(** * Reidin ingestion pipeline: a shallow embedding and its properties

    The development follows the Python sources of the importers:
    - [src/utils/database.py]                    (module [Database])
    - [src extract/import_cma_sales.py]          (module [CmaSales])
    - [src Extract/import_cma2_rents.py]         (module [Cma2Rents])
    - [src Extract/import_transaction_rent.py]   (module [TransactionRent])
    - [src Extract/import_transaction_sales.py]  (module [TransactionSales])
    - [src Extract/processors.py]                (module [TransactionSales])
    - [src Extract/import_transaction_list.py]   (module [TransactionList])
    - [src/utils/api_client.py]                  (module [ApiClient])

    Python dictionaries read through [dict.get] are finite maps from
    column names to values, Python sets are finite sets, lists are lists.
    Exceptions are explicit outcomes, the destination store is an explicit
    table that every writing function receives and returns, and wall-clock
    readings are inputs of the functions that call [time.time()]. *)

From Stdlib Require Import ZArith QArith Lqa Lia.
From stdpp Require Import base list gmap strings.

Set Warnings "-register-all,-abstract-large-number".

(** ** Python values *)

(** The JSON-shaped values that flow from the API to the store.  [VNone] is
    Python's [None] (JSON [null], SQL [NULL]). *)
Inductive value :=
| VNone
| VBool (b : bool)
| VInt (z : Z)
| VFloat (q : Q)
| VStr (s : string)
| VList (l : list value)
| VDict (d : list (string * value)).

Global Instance Q_eq_dec : EqDecision Q.
Proof. solve_decision. Defined.

Lemma value_eq_dec : ∀ x y : value, {x = y} + {x ≠ y}.
Proof.
  fix IH 1.
  intros x y. decide equality.
  - apply bool_eq_dec.
  - apply Z.eq_dec.
  - apply Q_eq_dec.
  - apply String.string_dec.
  - apply (@list_eq_dec _ IH).
  - apply @list_eq_dec. intros [a1 b1] [a2 b2].
    destruct (String.string_dec a1 a2); [|right; congruence].
    destruct (IH b1 b2); [left; congruence | right; congruence].
Defined.

Global Instance value_eq : EqDecision value := value_eq_dec.

(** Python truthiness, as used by [if x:] and [x if x else None]. *)
Definition truthy (v : value) : bool :=
  match v with
  | VNone => false
  | VBool b => b
  | VInt z => negb (z =? 0)%Z
  | VFloat q => negb (Qeq_bool q 0)
  | VStr s => negb (String.eqb s "")
  | VList l => negb (bool_decide (l = []))
  | VDict d => negb (bool_decide (d = []))
  end.

(** A flat record is a Python [dict] keyed by column name. *)
Abbreviation record := (gmap string value).

(** [record.get(col)]: a missing key reads as [None]. *)
Definition get (r : record) (col : string) : value := default VNone (r !! col).

(** How a call ends: it returns, or an exception leaves it. *)
Inductive outcome := Returned | Raised.

Global Instance outcome_eq : EqDecision outcome.
Proof. solve_decision. Defined.

(** [x > y] on clock readings and rates. *)
Definition Qgtb (x y : Q) : bool := negb (Qle_bool x y).

Lemma Qgtb_true x y : Qgtb x y = true ↔ (y < x)%Q.
Proof.
  unfold Qgtb. rewrite negb_true_iff. split.
  - intros Hb. apply Qnot_le_lt. intros Hle. apply Qle_bool_iff in Hle. congruence.
  - intros Hlt. destruct (Qle_bool x y) eqn:Hb; [|done].
    apply Qle_bool_iff in Hb. exfalso. by eapply Qlt_not_le.
Qed.

Lemma Qgtb_false x y : Qgtb x y = false ↔ (x <= y)%Q.
Proof.
  unfold Qgtb. rewrite negb_false_iff. apply Qle_bool_iff.
Qed.

(** What a run of an importer does to the outside world, in order: a call
    of the remote API, the flatten step run over the result elements of
    one response, a write handed to the destination store. *)
Inductive effect :=
| Fetched (request : list (string * value))
| Flattened (results : list value)
| Wrote (table : string) (rows : list record).

Definition is_fetch (e : effect) : bool := if e is Fetched _ then true else false.
Definition is_flatten (e : effect) : bool := if e is Flattened _ then true else false.
Definition is_write (e : effect) : bool := if e is Wrote _ _ then true else false.

(** How the body of a loop ends: with the next iteration, or a [break]. *)
Inductive control := Continue | Break.

(** [for x in xs: body], with the state the body threads through. *)
Fixpoint for_each {S A : Type} (xs : list A) (body : A → S → S * control) (s : S) : S :=
  match xs with
  | [] => s
  | x :: xs' =>
      let '(s', c) := body x s in
      match c with
      | Break => s'
      | Continue => for_each xs' body s'
      end
  end.

(** [k in d] and [d[k]] on a JSON object. *)
Fixpoint assoc (d : list (string * value)) (k : string) : option value :=
  match d with
  | [] => None
  | (k', v) :: d' => if String.eqb k' k then Some v else assoc d' k
  end.

(** [x.get(k) if isinstance(x, dict) else None]. *)
Definition get_if_dict (x : value) (k : string) : value :=
  match x with
  | VDict d => default VNone (assoc d k)
  | _ => VNone
  end.

(** Python's [max(a, b)] and [min(a, b)] of two numbers: the first argument
    unless the second is strictly beyond it. *)
Definition py_max (a b : Q) : Q := if Qgtb b a then b else a.
Definition py_min (a b : Q) : Q := if Qgtb a b then b else a.

Lemma py_max_spec a b : (a <= py_max a b ∧ b <= py_max a b ∧ (py_max a b = a ∨ py_max a b = b))%Q.
Proof.
  unfold py_max. destruct (Qgtb b a) eqn:Hb.
  - apply Qgtb_true in Hb. repeat split; [lra|lra|by right].
  - apply Qgtb_false in Hb. repeat split; [lra|lra|by left].
Qed.

Lemma py_min_spec a b : (py_min a b <= a ∧ py_min a b <= b ∧ (py_min a b = a ∨ py_min a b = b))%Q.
Proof.
  unfold py_min. destruct (Qgtb a b) eqn:Hb.
  - apply Qgtb_true in Hb. repeat split; [lra|lra|by right].
  - apply Qgtb_false in Hb. repeat split; [lra|lra|by left].
Qed.

(** A property of the loop state that every iteration keeps holds after the
    loop. *)
Lemma for_each_invariant {S A : Type} (P : S → Prop) (xs : list A)
    (body : A → S → S * control) (s : S) :
  P s → (∀ x s, P s → P (body x s).1) → P (for_each xs body s).
Proof.
  intros Hs Hbody. revert s Hs. induction xs as [|x xs IH]; intros s Hs; simpl; [done|].
  specialize (Hbody x s Hs). destruct (body x s) as [s' c]. simpl in Hbody.
  destruct c; [by apply IH|done].
Qed.

(** A measure that every iteration raises by one at most has risen by the
    number of iterations at most when the loop ends. *)
Lemma for_each_bounded {S A : Type} (m : S → nat) (xs : list A)
    (body : A → S → S * control) :
  (∀ x s, m (body x s).1 ≤ m s + 1) → ∀ s, m (for_each xs body s) ≤ m s + length xs.
Proof.
  intros Hbody. induction xs as [|x xs IH]; intros s; simpl; [lia|].
  specialize (Hbody x s). destruct (body x s) as [s' c]. simpl in Hbody.
  destruct c; [|lia]. specialize (IH s'). lia.
Qed.

(** Two runs of a loop whose states stay related and whose bodies take the
    same decisions end in related states. *)
Lemma for_each_related {S S' A : Type} (R : S → S' → Prop) (xs : list A)
    (body : A → S → S * control) (body' : A → S' → S' * control) :
  (∀ x s s', R s s' → R (body x s).1 (body' x s').1 ∧ (body x s).2 = (body' x s').2) →
  ∀ s s', R s s' → R (for_each xs body s) (for_each xs body' s').
Proof.
  intros Hbody. induction xs as [|x xs IH]; intros s s' Hs; simpl; [done|].
  destruct (Hbody x s s' Hs) as [HR Hc].
  destruct (body x s) as [s1 c], (body' x s') as [s1' c']. simpl in *. subst c'.
  destruct c; [by apply IH|done].
Qed.

(** [record.get('price') is not None]. *)
Definition has_price (r : record) : Prop := get r "price" ≠ VNone.

Global Instance has_price_dec r : Decision (has_price r).
Proof. unfold has_price. apply not_dec, value_eq. Defined.

Global Typeclasses Opaque has_price.

Lemma foldl_invariant {S A : Type} (P : S → Prop) (f : S → A → S) (xs : list A) (s : S) :
  P s → (∀ s x, P s → P (f s x)) → P (foldl f s xs).
Proof.
  intros Hs Hf. revert s Hs. induction xs as [|x xs IH]; intros s Hs; simpl; [done|].
  apply IH. by apply Hf.
Qed.

(** Every write among the effects hands over records with a price only. *)
Definition writes_priced (effects : list effect) : Prop :=
  Forall (λ e, match e with
               | Wrote _ rows => Forall has_price rows
               | _ => True
               end) effects.

(** The number a string of decimal digits writes, and none for any other
    string ([str.isdigit] and [int] on it). *)
Fixpoint digits_value (s : string) (acc : Z) : option Z :=
  match s with
  | EmptyString => Some acc
  | String c s' =>
      let n := Z.of_N (Ascii.N_of_ascii c) in
      if (48 <=? n)%Z && (n <=? 57)%Z then digits_value s' (10 * acc + (n - 48))%Z else None
  end.

Definition int_of_digits (s : string) : option Z :=
  match s with
  | EmptyString => None
  | _ => digits_value s 0
  end.

(** An [int(x)] for the scenarios below: an integer, a boolean, a float
    (truncated) or a string of decimal digits, and [None] for any other
    value.  Signs, blanks and underscores in a string are left out, so the
    importers take [int] as a parameter instead. *)
Definition py_int (x : value) : option Z :=
  match x with
  | VInt z => Some z
  | VBool b => Some (if b then 1 else 0)%Z
  | VFloat q => Some (Qnum q ÷ Zpos (Qden q))%Z
  | VStr s => int_of_digits s
  | _ => None
  end.

(** [int(x) if x and str(x).isdigit() else None]. *)
Definition int_if_digits (x : value) : value :=
  if truthy x then
    match x with
    | VInt z => if (0 <=? z)%Z then VInt z else VNone
    | VStr s => from_option VInt VNone (int_of_digits s)
    | _ => VNone
    end
  else VNone.

(** Whether a value can be a member of a tuple in a set. *)
Definition hashable (v : value) : bool :=
  match v with
  | VList _ | VDict _ => false
  | _ => true
  end.

(** The number a value compares as, for Python's [==] across [bool], [int]
    and [float]. *)
Definition numeric (v : value) : option Q :=
  match v with
  | VBool b => Some (if b then 1%Q else 0%Q)
  | VInt z => Some (inject_Z z)
  | VFloat q => Some q
  | _ => None
  end.

(** [a == b] on hashable values. *)
Definition py_eqb (a b : value) : bool :=
  match numeric a, numeric b with
  | Some x, Some y => Qeq_bool x y
  | None, None => bool_decide (a = b)
  | _, _ => false
  end.

(** [key in seen] for tuples of hashable values. *)
Definition key_in (key : list value) (seen : list (list value)) : bool :=
  existsb (λ k, bool_decide (length k = length key)
                && forallb (λ p, py_eqb p.1 p.2) (zip k key)) seen.

(** ** The destination store: [src/utils/database.py] *)

Module Database.

(** *** A table with a unique index

    The statements the code issues are [COPY ... FROM STDIN] and
    [INSERT ... VALUES ... ON CONFLICT (cols) DO NOTHING].  Their meaning is
    PostgreSQL's: a row is subject to the unique index when [key] gives
    [Some k] (a [NULL] in an indexed column, or a row outside a partial
    index, gives [None] and never conflicts); COPY aborts as a whole on the
    first violation; ON CONFLICT DO NOTHING skips the violating row. *)
Section Table.
Context {row K : Type} `{EqDecision K}.
Variable key : row → option K.

Definition violates (t : list row) (r : row) : bool :=
  match key r with
  | Some k => bool_decide (Some k ∈ key <$> t)
  | None => false
  end.

Definition on_conflict_do_nothing (t rows : list row) : list row :=
  foldl (λ acc r, if violates acc r then acc else acc ++ [r]) t rows.

Fixpoint copy_rows (t rows : list row) : option (list row) :=
  match rows with
  | [] => Some t
  | r :: rows' => if violates t r then None else copy_rows (t ++ [r]) rows'
  end.

(** No two rows of the table share an index key. *)
Definition unique_keys (t : list row) : Prop := NoDup (omap key t).

Lemma violates_true t r :
  violates t r = true ↔ ∃ k, key r = Some k ∧ Some k ∈ key <$> t.
Proof.
  unfold violates. destruct (key r) as [k|]; split.
  - intros Hb. apply bool_decide_eq_true in Hb. eauto.
  - intros (k' & [= <-] & Hin). by apply bool_decide_eq_true.
  - discriminate.
  - intros (k' & [=] & _).
Qed.

Lemma violates_app_l t t' r : violates t r = true → violates (t ++ t') r = true.
Proof.
  rewrite !violates_true. intros (k & Hk & Hin). exists k. split; [done|].
  rewrite fmap_app. apply elem_of_app. by left.
Qed.

Lemma violates_self t r : is_Some (key r) → violates (t ++ [r]) r = true.
Proof.
  intros [k Hk]. apply violates_true. exists k. split; [done|].
  rewrite fmap_app. apply elem_of_app. right. simpl. rewrite Hk. apply list_elem_of_here.
Qed.

Lemma do_nothing_prefix rows : ∀ t, t `prefix_of` on_conflict_do_nothing t rows.
Proof.
  induction rows as [|r rows IH]; intros t; simpl; [done|].
  destruct (violates t r); [apply IH|].
  etrans; [|apply IH]. by apply prefix_app_r.
Qed.

Lemma violates_prefix t t' r : t `prefix_of` t' → violates t r = true → violates t' r = true.
Proof. intros [s ->]. apply violates_app_l. Qed.

(** After the insert every keyed row of the batch is represented. *)
Lemma do_nothing_covers rows : ∀ t r,
  r ∈ rows → is_Some (key r) → violates (on_conflict_do_nothing t rows) r = true.
Proof.
  induction rows as [|r0 rows IH]; intros t r Hin Hk; [by apply elem_of_nil in Hin|].
  simpl. apply elem_of_cons in Hin as [->|Hin]; [|by apply IH].
  destruct (violates t r0) eqn:Hv.
  - eapply violates_prefix; [apply do_nothing_prefix|done].
  - eapply violates_prefix; [apply do_nothing_prefix|]. by apply violates_self.
Qed.

(** Rows that all conflict leave the table as it is. *)
Lemma do_nothing_noop rows : ∀ t,
  Forall (λ r, violates t r = true) rows → on_conflict_do_nothing t rows = t.
Proof.
  induction rows as [|r rows IH]; intros t Hall; simpl; [done|].
  inversion Hall as [|? ? Hr Hrest]; subst. rewrite Hr. by apply IH.
Qed.

Lemma do_nothing_idempotent t rows rows' :
  Forall (λ r, is_Some (key r)) rows → rows' ⊆ rows →
  on_conflict_do_nothing (on_conflict_do_nothing t rows) rows'
  = on_conflict_do_nothing t rows.
Proof.
  intros Hkeys Hsub. apply do_nothing_noop. apply Forall_forall.
  intros r Hr. apply do_nothing_covers; [by apply Hsub|].
  rewrite Forall_forall in Hkeys. apply Hkeys. by apply Hsub.
Qed.

Lemma unique_keys_snoc t r :
  unique_keys t → violates t r = false → unique_keys (t ++ [r]).
Proof.
  unfold unique_keys. intros Hnd Hv. rewrite omap_app. simpl.
  destruct (key r) as [k|] eqn:Hk; simpl; [|by rewrite app_nil_r].
  apply NoDup_app. split; [done|]. split; [|apply NoDup_singleton].
  intros k' Hin ->%list_elem_of_singleton.
  assert (violates t r = true) as Htrue; [|congruence].
  apply violates_true. exists k. split; [done|].
  apply list_elem_of_omap in Hin as (r' & Hr' & Hkr').
  apply list_elem_of_fmap. exists r'. by rewrite Hkr'.
Qed.

Lemma do_nothing_unique rows : ∀ t,
  unique_keys t → unique_keys (on_conflict_do_nothing t rows).
Proof.
  induction rows as [|r rows IH]; intros t Hu; simpl; [done|].
  destruct (violates t r) eqn:Hv; [by apply IH|].
  apply IH. by apply unique_keys_snoc.
Qed.

Lemma copy_rows_Some rows : ∀ t t', copy_rows t rows = Some t' → t' = t ++ rows.
Proof.
  induction rows as [|r rows IH]; intros t t'; simpl.
  - intros [= <-]. by rewrite app_nil_r.
  - destruct (violates t r); [discriminate|].
    intros Hc%IH. by rewrite Hc, <-app_assoc.
Qed.

Lemma copy_rows_unique rows : ∀ t t',
  unique_keys t → copy_rows t rows = Some t' → unique_keys t'.
Proof.
  induction rows as [|r rows IH]; intros t t' Hu; simpl.
  - by intros [= <-].
  - destruct (violates t r) eqn:Hv; [discriminate|].
    apply IH. by apply unique_keys_snoc.
Qed.

(** COPY of a batch whose first row is already represented aborts. *)
Lemma copy_rows_conflict t r rows : violates t r = true → copy_rows t (r :: rows) = None.
Proof. intros Hv. simpl. by rewrite Hv. Qed.

(** A COPY that succeeds inserts what ON CONFLICT DO NOTHING would. *)
Lemma copy_rows_do_nothing rows : ∀ t t',
  copy_rows t rows = Some t' → on_conflict_do_nothing t rows = t'.
Proof.
  induction rows as [|r rows IH]; intros t t'; simpl.
  - by intros [= <-].
  - destruct (violates t r); [discriminate|]. apply IH.
Qed.
Lemma violates_snoc t r r' :
  violates (t ++ [r]) r' = true ↔
  violates t r' = true ∨ ∃ k, key r' = Some k ∧ key r = Some k.
Proof.
  rewrite !violates_true. split.
  - intros (k & Hk & Hin). rewrite fmap_app in Hin.
    apply elem_of_app in Hin as [Hin|Hin]; [left; eauto|].
    right. exists k. split; [done|]. simpl in Hin.
    by apply list_elem_of_singleton in Hin.
  - intros [(k & Hk & Hin)|(k & Hk & Hr)]; exists k; (split; [done|]);
      rewrite fmap_app; apply elem_of_app; [by left|right].
    simpl. rewrite Hr. apply list_elem_of_here.
Qed.

(** COPY succeeds exactly when no row of the batch meets an index entry of
    the table and no two rows of the batch share one. *)
Lemma copy_rows_is_Some rows : ∀ t,
  is_Some (copy_rows t rows) ↔
  Forall (λ r, violates t r = false) rows ∧ NoDup (omap key rows).
Proof.
  induction rows as [|r rows IH]; intros t; simpl.
  - split; [intros _; split; constructor | by eexists].
  - destruct (violates t r) eqn:Hv.
    + split; [by intros [? [=]]|]. intros [Hall _].
      inversion Hall; congruence.
    + rewrite IH. split.
      * intros [Hall Hnd]. split.
        -- constructor; [done|]. eapply Forall_impl; [exact Hall|].
           intros r' Hr'. simpl in Hr'. destruct (violates t r') eqn:Hv'; [|done].
           rewrite <-Hr'. symmetry. by apply violates_app_l.
        -- destruct (key r) as [k|] eqn:Hk; simpl; [|done].
           constructor; [|done]. intros Hin.
           apply list_elem_of_omap in Hin as (r' & Hr' & Hkr').
           rewrite Forall_forall in Hall. specialize (Hall r' Hr').
           assert (violates (t ++ [r]) r' = true) as Ht; [|congruence].
           apply violates_snoc. right. eauto.
      * intros [Hall Hnd]. inversion Hall as [|? ? _ Hrest]; subst. split.
        -- apply Forall_forall. intros r' Hr'.
           rewrite Forall_forall in Hrest. specialize (Hrest r' Hr').
           destruct (violates (t ++ [r]) r') eqn:Hv'; [|done].
           apply violates_snoc in Hv' as [Hv'|(k & Hk' & Hk)]; [congruence|].
           exfalso. rewrite Hk in Hnd. simpl in Hnd.
           apply NoDup_cons in Hnd as [Hnin _]. apply Hnin.
           apply list_elem_of_omap. eauto.
        -- destruct (key r); simpl in Hnd; [by apply NoDup_cons in Hnd as [_ ?]|done].
Qed.

(** Whether COPY succeeds does not depend on the order of the batch. *)
Lemma copy_rows_None_perm t rows rows' :
  rows' ≡ₚ rows → copy_rows t rows = None → copy_rows t rows' = None.
Proof.
  intros Hperm Hnone.
  destruct (copy_rows t rows') as [t'|] eqn:Hc; [|done]. exfalso.
  assert (is_Some (copy_rows t rows)) as [? Hs]; [|congruence].
  apply copy_rows_is_Some.
  assert (is_Some (copy_rows t rows')) as Hs' by eauto.
  apply copy_rows_is_Some in Hs' as [Hall Hnd]. split.
  - by rewrite <-Hperm.
  - assert (omap key rows' ≡ₚ omap key rows) as <-; [|done].
    by apply omap_Permutation.
Qed.
End Table.


(** *** Rows, columns and statements *)

(** A stored row lists its values in the order of the statement's column
    list; [column cols row c] reads column [c] of such a row. *)
Fixpoint column (cols : list string) (row : list value) (c : string) : value :=
  match cols, row with
  | c' :: cols', v :: row' => if String.eqb c' c then v else column cols' row' c
  | _, _ => VNone
  end.

(** The unique-index entry of a row: its values in the indexed columns, and
    none when one of them is [NULL]. *)
Definition index_key (cols target : list string) (row : list value) : option (list value) :=
  let k := column cols row <$> target in
  if bool_decide (VNone ∈ k) then None else Some k.

(** What the code sends over its connection, in order; [ok] tells whether
    the statement succeeded. *)
Inductive db_op :=
| Copy (table : string) (rows : list (list value)) (ok : bool)
| InsertOnConflictDoNothing (table : string) (target : list string)
    (rows : list (list value)) (ok : bool)
| Commit
| Rollback.

Record db_result := {
  ended : outcome;
  stored : list (list value);
  issued : list db_op
}.

(** [Json(x) if x else None] (lines 772-773). *)
Definition json_or_none (v : value) : value := if truthy v then v else VNone.

(** *** [cma_sales]: [insert_cma_sales_data] and [_bulk_insert_with_copy] *)

Definition cma_sales_columns : list string :=
  [ "property_id"; "alias"; "currency"; "measurement"; "property_type"; "property_subtype";
    "comparable_property_id"; "comparable_property_name"; "size"; "price"; "price_per_size";
    "transaction_date"; "city_id"; "city_name"; "county_id"; "county_name"; "district_id";
    "district_name"; "location_id"; "location_name"; "municipal_area"; "activity_type";
    "no_of_bedrooms"; "number_of_unit"; "property_nature"; "number_of_floors";
    "parent_property"; "raw_data" ].

(** [ON CONFLICT (property_id, alias, currency, measurement, property_type,
    property_subtype, comparable_property_id)]. *)
Definition cma_sales_conflict_target : list string :=
  [ "property_id"; "alias"; "currency"; "measurement"; "property_type"; "property_subtype";
    "comparable_property_id" ].

Definition cma_sales_key : list value → option (list value) :=
  index_key cma_sales_columns cma_sales_conflict_target.

(** Lines 745-774: the record's values in column order. *)
Definition ordered_record (r : record) : list value :=
  [ get r "property_id"; get r "alias"; get r "currency"; get r "measurement";
    get r "property_type"; get r "property_subtype"; get r "comparable_property_id";
    get r "comparable_property_name"; get r "size"; get r "price"; get r "price_per_size";
    get r "transaction_date"; get r "city_id"; get r "city_name"; get r "county_id";
    get r "county_name"; get r "district_id"; get r "district_name"; get r "location_id";
    get r "location_name"; get r "municipal_area"; get r "activity_type";
    get r "no_of_bedrooms"; get r "number_of_unit"; get r "property_nature";
    get r "number_of_floors";
    json_or_none (get r "parent_property"); json_or_none (get r "raw_data") ].

(** Lines 799-855.  [cur.copy_from] has no conflict clause: the load either
    inserts every row and is committed, or it raises; the [except] logs and
    re-raises, and nothing of the load is committed.  The rows are taken
    as the load's input: the text of lines 811-823 ([str] of each value,
    tab and newline replaced by a blank) and what the server reads back
    from it, or rejects in it, are not modelled; a load that raises for
    such a reason is a load that raises, as in the second case. *)
Definition _bulk_insert_with_copy (t : list (list value)) (ordered_data : list (list value))
  : db_result :=
  match copy_rows cma_sales_key t ordered_data with
  | Some t' =>
      {| ended := Returned; stored := t';
         issued := [Copy "cma_sales" ordered_data true; Commit] |}
  | None =>
      {| ended := Raised; stored := t;
         issued := [Copy "cma_sales" ordered_data false] |}
  end.

(** Lines 718-797.  Batches of 5000 rows or more go through COPY, smaller
    ones through [execute_values] with [ON CONFLICT ... DO NOTHING]; an
    exception of either path is logged and re-raised. *)
Definition insert_cma_sales_data (t : list (list value)) (data_list : list record)
  : db_result :=
  match data_list with
  | [] => {| ended := Returned; stored := t; issued := [] |}
  | _ =>
      let ordered_data := ordered_record <$> data_list in
      if (5000 <=? length ordered_data)%nat then _bulk_insert_with_copy t ordered_data
      else
        {| ended := Returned;
           stored := on_conflict_do_nothing cma_sales_key t ordered_data;
           issued := [InsertOnConflictDoNothing "cma_sales" cma_sales_conflict_target
                        ordered_data true; Commit] |}
  end.

(** *** [transaction_raw_rent]: COPY with a fallback (lines 516-634) *)

(** [column_order] of [insert_transaction_raw_rent_data] (lines 527-534). *)
Definition rent_column_order : list string :=
  [ "date"; "size"; "price"; "end_date"; "start_date"; "size_land_int"; "price_per_size";
    "transaction_type"; "transaction_version"; "loc_city_id"; "loc_city_name"; "loc_county_id";
    "loc_county_name"; "loc_district_id"; "loc_location_id"; "loc_district_name";
    "loc_location_name"; "loc_municipal_area"; "prop_property_id"; "prop_property_name";
    "attr_unit"; "attr_floor"; "attr_parking"; "attr_land_number"; "attr_no_of_rooms";
    "attr_balcony_area"; "attr_building_name"; "attr_building_number"; "prop_type_name";
    "prop_subtype_name"; "currency"; "measurement"; "raw_data" ].

(** [ON CONFLICT (loc_location_id, currency, measurement, date, price, size)
    WHERE ((date IS NOT NULL) AND (price IS NOT NULL))]. *)
Definition rent_conflict_target : list string :=
  [ "loc_location_id"; "currency"; "measurement"; "date"; "price"; "size" ].

Definition rent_key (column_order : list string) : list value → option (list value) :=
  index_key column_order rent_conflict_target.

(** The values of one item in the order of [column_order]
    ([item.get(col) for col in column_order], lines 563-564 and 626). *)
Definition values_of (column_order : list string) (item : record) : list value :=
  get item <$> column_order.

(** Lines 599-634.  [insert_fault] says that the statement raises for a
    reason of the store's own (lost connection, statement timeout); the
    function has no handler, so the exception leaves it uncommitted. *)
Definition _bulk_insert_with_execute_values_fallback (insert_fault : bool)
    (t : list (list value)) (batch_data : list record) (column_order : list string)
  : db_result :=
  let values_list := values_of column_order <$> batch_data in
  if insert_fault then
    {| ended := Raised; stored := t;
       issued := [InsertOnConflictDoNothing "transaction_raw_rent" rent_conflict_target
                    values_list false] |}
  else
    {| ended := Returned;
       stored := on_conflict_do_nothing (rent_key column_order) t values_list;
       issued := [InsertOnConflictDoNothing "transaction_raw_rent" rent_conflict_target
                    values_list true; Commit] |}.

(** Lines 549-597.  [copy_fault] says that [copy_expert] raises for a reason
    other than a violated index.  A failed COPY is rolled back and the same
    [batch_data] goes to the fallback; what the fallback raises is logged
    and re-raised by the outer handler.  The rows a COPY stores are taken
    to be the rows handed to it: what the server reads back from the text
    of lines 556-571, where a backslash is not escaped, is not modelled,
    and nothing below depends on the values a COPY has stored. *)
Definition _bulk_insert_with_copy_optimized (copy_fault insert_fault : bool)
    (t : list (list value)) (batch_data : list record) (column_order : list string)
  : db_result :=
  let rows := values_of column_order <$> batch_data in
  match (if copy_fault then None else copy_rows (rent_key column_order) t rows) with
  | Some t' =>
      {| ended := Returned; stored := t';
         issued := [Copy "transaction_raw_rent" rows true; Commit] |}
  | None =>
      let fb := _bulk_insert_with_execute_values_fallback insert_fault t batch_data
                  column_order in
      {| ended := ended fb; stored := stored fb;
         issued := Copy "transaction_raw_rent" rows false :: Rollback :: issued fb |}
  end.

(** [data_list[start_idx:end_idx]] for consecutive batches of [n] items. *)
Fixpoint chunks_fuel {A} (fuel n : nat) (l : list A) : list (list A) :=
  match fuel, l with
  | S fuel', _ :: _ => take n l :: chunks_fuel fuel' n (drop n l)
  | _, _ => []
  end.

Definition chunks {A} (n : nat) (l : list A) : list (list A) := chunks_fuel (length l) n l.

(** Batches are written one after the other; an exception stops the loop and
    leaves the batches before it committed. *)
Fixpoint write_batches (write : list (list value) → list record → db_result)
    (t : list (list value)) (batches : list (list record)) : db_result :=
  match batches with
  | [] => {| ended := Returned; stored := t; issued := [] |}
  | b :: batches' =>
      let r := write t b in
      match ended r with
      | Raised => r
      | Returned =>
          let r' := write_batches write (stored r) batches' in
          {| ended := ended r'; stored := stored r'; issued := issued r ++ issued r' |}
      end
  end.

(** Lines 516-547. *)
Definition insert_transaction_raw_rent_data (copy_fault insert_fault : bool)
    (t : list (list value)) (data_list : list record) : db_result :=
  write_batches
    (λ t batch_data,
       _bulk_insert_with_copy_optimized copy_fault insert_fault t batch_data rent_column_order)
    t (chunks 50000 data_list).

(** *** [transaction_sales]: [insert_transaction_sales_data] (lines 636-716) *)

Definition sales_columns : list string :=
  [ "start_date"; "end_date"; "date"; "transaction_version"; "transaction_type";
    "location_id"; "loc_city_id"; "loc_city_name"; "loc_county_id"; "loc_county_name";
    "loc_district_id"; "loc_district_name"; "loc_location_id"; "loc_location_name";
    "loc_municipal_area"; "property_id"; "property_name"; "property_type_name";
    "property_subtype_name"; "price"; "price_per_size"; "size"; "size_land_imp";
    "attr_unit"; "attr_floor"; "attr_parking"; "attr_land_number"; "attr_no_of_rooms";
    "attr_balcony_area"; "attr_building_name"; "attr_building_number"; "currency";
    "measurement"; "bedroom"; "size_range"; "price_range"; "transaction_date"; "raw_data" ].

(** [ON CONFLICT (location_id, start_date, end_date, price, transaction_type,
    date) DO NOTHING]. *)
Definition sales_conflict_target : list string :=
  [ "location_id"; "start_date"; "end_date"; "price"; "transaction_type"; "date" ].

Definition sales_key : list value → option (list value) :=
  index_key sales_columns sales_conflict_target.

(** Lines 636-716.  Nothing is done for an empty list.  [insert_fault]
    says that the statement raises (a lost connection, a value a column
    rejects): the handler of lines 714-716 logs and re-raises, and nothing
    is committed. *)
Definition insert_transaction_sales_data (insert_fault : bool) (t : list (list value))
    (data_list : list record) : db_result :=
  match data_list with
  | [] => {| ended := Returned; stored := t; issued := [] |}
  | _ =>
      let ordered_data := values_of sales_columns <$> data_list in
      if insert_fault then
        {| ended := Raised; stored := t;
           issued := [InsertOnConflictDoNothing "transaction_sales" sales_conflict_target
                        ordered_data false] |}
      else
        {| ended := Returned;
           stored := on_conflict_do_nothing sales_key t ordered_data;
           issued := [InsertOnConflictDoNothing "transaction_sales" sales_conflict_target
                        ordered_data true; Commit] |}
  end.

(** A Record carries its natural key: none of the seven key columns is
    [None] (lines 417-427 of the importer build them with [int(...)] and
    the task's parameter strings). *)
Definition has_natural_key (r : record) : Prop :=
  Forall (λ c, get r c ≠ VNone) cma_sales_conflict_target.

Lemma ordered_record_key r :
  has_natural_key r → is_Some (cma_sales_key (ordered_record r)).
Proof.
  intros Hk. unfold cma_sales_key, index_key.
  rewrite bool_decide_eq_false_2; [by eexists|].
  intros Hin. apply list_elem_of_fmap in Hin as (c & Hc & Hin).
  unfold has_natural_key in Hk. rewrite Forall_forall in Hk.
  specialize (Hk c Hin). apply Hk.
  rewrite Hc. clear Hk Hc.
  unfold cma_sales_conflict_target in Hin.
  repeat (apply elem_of_cons in Hin as [->|Hin]; [reflexivity|]).
  by apply elem_of_nil in Hin.
Qed.

Lemma ordered_records_keyed data :
  Forall has_natural_key data →
  Forall (λ row, is_Some (cma_sales_key row)) (ordered_record <$> data).
Proof.
  intros Hall. apply Forall_fmap. eapply Forall_impl; [exact Hall|].
  intros r Hr. by apply ordered_record_key.
Qed.

(** The table [insert_cma_sales_data] leaves behind. *)
Lemma stored_insert_cma_sales_data t data :
  stored (insert_cma_sales_data t data) =
  match data with
  | [] => t
  | _ =>
      if (5000 <=? length data)%nat
      then default t (copy_rows cma_sales_key t (ordered_record <$> data))
      else on_conflict_do_nothing cma_sales_key t (ordered_record <$> data)
  end.
Proof.
  destruct data as [|r data]; [done|].
  unfold insert_cma_sales_data, _bulk_insert_with_copy. rewrite length_fmap.
  destruct (5000 <=? length (r :: data))%nat; [|done].
  by destruct (copy_rows _ _ _).
Qed.

(** State idempotence of the bulk upsert, for a re-delivery [data'] of the
    records of [data] in any order. *)
Lemma insert_cma_sales_data_again t data data' :
  Forall has_natural_key data → data' ≡ₚ data →
  stored (insert_cma_sales_data (stored (insert_cma_sales_data t data)) data')
  = stored (insert_cma_sales_data t data).
Proof.
  intros Hkeys Hperm.
  rewrite !stored_insert_cma_sales_data.
  destruct data as [|r data].
  { apply Permutation_nil_r in Hperm. by subst. }
  destruct data' as [|r' data'].
  { symmetry in Hperm. by apply Permutation_nil_r in Hperm. }
  remember (r :: data) as d eqn:Hd. remember (r' :: data') as d' eqn:Hd'.
  rewrite (Permutation_length Hperm).
  pose proof (ordered_records_keyed d Hkeys) as Hk.
  assert ((ordered_record <$> d') ≡ₚ (ordered_record <$> d)) as Hrows
    by by apply fmap_Permutation.
  destruct (5000 <=? length d)%nat.
  - (* COPY both times *)
    destruct (copy_rows cma_sales_key t (ordered_record <$> d)) as [t1|] eqn:Hc; simpl.
    + assert (copy_rows cma_sales_key t1 (ordered_record <$> d') = None) as ->; [|done].
      rewrite Hd', fmap_cons. apply copy_rows_conflict.
      apply copy_rows_do_nothing in Hc as <-.
      assert (ordered_record r' ∈ ordered_record <$> d) as Hin.
      { rewrite <-Hrows, Hd', fmap_cons. apply list_elem_of_here. }
      apply do_nothing_covers; [done|].
      rewrite Forall_forall in Hk. by apply Hk.
    + by rewrite (copy_rows_None_perm _ _ _ _ Hrows Hc).
  - apply do_nothing_idempotent; [done|].
    intros row Hrow. by rewrite <-Hrows.
Qed.

(** The bulk upsert keeps the rows it finds and never stores two rows with
    one natural key. *)
Lemma insert_cma_sales_data_keeps t data :
  t `prefix_of` stored (insert_cma_sales_data t data) ∧
  (unique_keys cma_sales_key t →
   unique_keys cma_sales_key (stored (insert_cma_sales_data t data))).
Proof.
  rewrite stored_insert_cma_sales_data.
  destruct data as [|r data]; [done|].
  destruct (5000 <=? length (r :: data))%nat.
  - destruct (copy_rows cma_sales_key t (ordered_record <$> r :: data)) as [t1|] eqn:Hc;
      simpl; [|done].
    split; [|intros Hu; by eapply copy_rows_unique].
    apply copy_rows_Some in Hc as ->. by apply prefix_app_r.
  - split; [apply do_nothing_prefix|apply do_nothing_unique].
Qed.

(** *** Sample data *)

(** A Record of the CMA sales importer for comparable property [i]. *)
Definition sample_record (i : Z) : record :=
  list_to_map
    [ ("property_id", VInt 101); ("alias", VStr "last-fifteen"); ("currency", VStr "aed");
      ("measurement", VStr "int"); ("property_type", VStr "Commercial");
      ("property_subtype", VStr "Shop"); ("comparable_property_id", VInt i);
      ("comparable_property_name", VStr "8Wd"); ("price", VFloat 3100000);
      ("size", VFloat 5746.25) ].

(** 5000 Records with the comparable ids 0 .. 4999. *)
Definition sample_batch_5000 : list record :=
  sample_record 0 :: ((λ i, sample_record (Z.of_nat i)) <$> seq 1 4999).

(** A [cma_sales] table that holds the row of comparable 0 already. *)
Definition sample_table : list (list value) := [ordered_record (sample_record 0)].

(** C1. For every destination table, every batch of Records (each with its
    natural key) and every re-delivery of the same Records in any order,
    the second bulk upsert leaves the table exactly as the first one left
    it; the first upsert keeps every row it found, and a table without
    duplicate natural keys stays without them. *)
Theorem bulk_upsert_idempotent (t : list (list value)) (data data' : list record) :
  Forall has_natural_key data → data' ≡ₚ data →
  stored (insert_cma_sales_data (stored (insert_cma_sales_data t data)) data')
  = stored (insert_cma_sales_data t data)
  ∧ t `prefix_of` stored (insert_cma_sales_data t data)
  ∧ (unique_keys cma_sales_key t →
     unique_keys cma_sales_key (stored (insert_cma_sales_data t data))).
Proof.
  intros Hkeys Hperm. split; [by apply insert_cma_sales_data_again|].
  apply insert_cma_sales_data_keeps.
Qed.

Lemma sample_record_has_natural_key i : has_natural_key (sample_record i).
Proof. repeat constructor; vm_compute; discriminate. Defined.

Lemma bulk_upsert_idempotent_witness :
  let data := [sample_record 1; sample_record 2] in
  let data' := [sample_record 2; sample_record 1] in
  stored (insert_cma_sales_data (stored (insert_cma_sales_data sample_table data)) data')
  = stored (insert_cma_sales_data sample_table data)
  ∧ sample_table `prefix_of` stored (insert_cma_sales_data sample_table data)
  ∧ (unique_keys cma_sales_key sample_table →
     unique_keys cma_sales_key (stored (insert_cma_sales_data sample_table data))).
Proof.
  apply (bulk_upsert_idempotent sample_table
           [sample_record 1; sample_record 2] [sample_record 2; sample_record 1]).
  - constructor; [apply sample_record_has_natural_key|].
    constructor; [apply sample_record_has_natural_key|constructor].
  - apply Permutation_swap.
Defined.

(** The rent importer's bulk load: whenever COPY fails, the failed
    transaction is rolled back, the same batch goes to the multi-row insert
    with [ON CONFLICT ... DO NOTHING], nothing of the COPY stays in the
    table, and the call raises only if the fallback statement itself does. *)
Lemma copy_optimized_falls_back (copy_fault insert_fault : bool) (t : list (list value))
    (batch_data : list record) (column_order : list string) :
  let rows := values_of column_order <$> batch_data in
  (if copy_fault then None else copy_rows (rent_key column_order) t rows) = None →
  let r := _bulk_insert_with_copy_optimized copy_fault insert_fault t batch_data
             column_order in
  issued r =
    Copy "transaction_raw_rent" rows false :: Rollback ::
    InsertOnConflictDoNothing "transaction_raw_rent" rent_conflict_target rows
      (negb insert_fault) :: (if insert_fault then [] else [Commit])
  ∧ ended r = (if insert_fault then Raised else Returned)
  ∧ stored r =
      (if insert_fault then t
       else on_conflict_do_nothing (rent_key column_order) t rows).
Proof.
  intros rows Hfail r. subst r rows.
  unfold _bulk_insert_with_copy_optimized. rewrite Hfail.
  unfold _bulk_insert_with_execute_values_fallback.
  by destruct insert_fault.
Qed.

(** A batch of 5000 rows or more whose first row meets an index entry:
    the COPY raises, and that is all [insert_cma_sales_data] does. *)
Lemma insert_cma_sales_data_copy_conflict t r data :
  5000 ≤ length (r :: data) →
  violates cma_sales_key t (ordered_record r) = true →
  insert_cma_sales_data t (r :: data) =
  {| ended := Raised; stored := t;
     issued := [Copy "cma_sales" (ordered_record <$> r :: data) false] |}.
Proof.
  intros Hlen Hv. unfold insert_cma_sales_data.
  rewrite length_fmap. apply Nat.leb_le in Hlen. rewrite Hlen.
  unfold _bulk_insert_with_copy. rewrite fmap_cons.
  by rewrite (copy_rows_conflict _ _ _ _ Hv).
Qed.

(** C6, evaluated on [_bulk_insert_with_copy]: a batch of 5000 Records one of
    which is stored already.  The COPY fails, the exception leaves
    [insert_cma_sales_data], the table is as before, and no insert with a
    conflict clause was issued. *)
Theorem cma_sales_copy_failure_propagates :
  insert_cma_sales_data sample_table sample_batch_5000 =
  {| ended := Raised; stored := sample_table;
     issued := [Copy "cma_sales" (ordered_record <$> sample_batch_5000) false] |}.
Proof.
  apply insert_cma_sales_data_copy_conflict.
  - cbn [length]. rewrite length_fmap, length_seq. lia.
  - by vm_compute.
Qed.

(** *** Batches *)

Lemma chunks_fuel_concat {A} n : ∀ fuel (l : list A),
  0 < n → length l ≤ fuel → concat (chunks_fuel fuel n l) = l.
Proof.
  induction fuel as [|fuel IH]; intros l Hn Hlen.
  - destruct l; [done|simpl in Hlen; lia].
  - destruct l as [|x l]; [done|].
    cbn [chunks_fuel concat]. rewrite IH; [apply take_drop|done|].
    rewrite length_drop. simpl in *. lia.
Qed.

(** Consecutive slices of [n] items put together give the list back. *)
Lemma chunks_concat {A} n (l : list A) : 0 < n → concat (chunks n l) = l.
Proof. intros Hn. by apply chunks_fuel_concat. Qed.

Lemma chunks_fuel_sizes {A} n : ∀ fuel (l : list A),
  0 < n → Forall (λ c, 0 < length c ≤ n) (chunks_fuel fuel n l).
Proof.
  induction fuel as [|fuel IH]; intros l Hn; [constructor|].
  destruct l as [|x l]; [constructor|].
  cbn [chunks_fuel]. constructor; [|by apply IH].
  rewrite length_take. simpl. lia.
Qed.

(** No slice is empty and none has more than [n] items. *)
Lemma chunks_sizes {A} n (l : list A) :
  0 < n → Forall (λ c, 0 < length c ≤ n) (chunks n l).
Proof. apply chunks_fuel_sizes. Qed.

Section TableFacts.
Context {row K : Type} `{EqDecision K}.
Variable key : row → option K.

Lemma do_nothing_app (t rows rows' : list row) :
  on_conflict_do_nothing key t (rows ++ rows')
  = on_conflict_do_nothing key (on_conflict_do_nothing key t rows) rows'.
Proof. unfold on_conflict_do_nothing. apply foldl_app. Qed.

End TableFacts.

(** One batch of the rent loader returns when the fallback statement does
    not fail, whether the COPY went through or not; and so does the whole
    load. *)
Lemma copy_optimized_returns copy_fault t batch_data column_order :
  ended (_bulk_insert_with_copy_optimized copy_fault false t batch_data column_order)
  = Returned.
Proof.
  unfold _bulk_insert_with_copy_optimized.
  by destruct (if copy_fault then None else copy_rows _ _ _).
Qed.

Lemma write_batches_returns copy_fault column_order batches : ∀ t,
  ended (write_batches
           (λ t batch_data,
              _bulk_insert_with_copy_optimized copy_fault false t batch_data column_order)
           t batches)
  = Returned.
Proof.
  induction batches as [|b batches IH]; intros t; [done|].
  cbn [write_batches]. rewrite copy_optimized_returns. cbn [ended]. apply IH.
Qed.

Lemma insert_transaction_raw_rent_data_returns copy_fault t data_list :
  ended (insert_transaction_raw_rent_data copy_fault false t data_list) = Returned.
Proof. apply write_batches_returns. Qed.

(** *** The text handed to COPY (lines 556-571)

    A Python [str] is taken as the string of its UTF-8 bytes; tab, line feed
    and carriage return are single bytes that occur in no other character,
    so [str.replace] on them works byte by byte. *)

(** The characters 9, 10 and 13, lowest bit first. *)
Definition tab : Ascii.ascii := Ascii.Ascii true false false true false false false false.
Definition line_feed : Ascii.ascii :=
  Ascii.Ascii false true false true false false false false.
Definition carriage_return : Ascii.ascii :=
  Ascii.Ascii true false true true false false false false.

(** [s.replace(old, new)] for a one-character [old]. *)
Fixpoint replace_char (old : Ascii.ascii) (new : string) (s : string) : string :=
  match s with
  | EmptyString => EmptyString
  | String c s' =>
      if Ascii.eqb c old then new +:+ replace_char old new s'
      else String c (replace_char old new s')
  end.

(** [.replace('\t', '\\t').replace('\n', '\\n').replace('\r', '\\r')]. *)
Definition copy_escape (s : string) : string :=
  replace_char carriage_return "\r" (replace_char line_feed "\n" (replace_char tab "\t" s)).

Section CopyText.
(** [json.dumps] and [str], the serializers of Python. *)
Variable json_dumps : value → string.
Variable py_str : value → string.

(** One field of a line (lines 560-569). *)
Definition copy_field (v : value) : string :=
  match v with
  | VNone => "\N"
  | VDict _ => copy_escape (json_dumps v)
  | _ => copy_escape (py_str v)
  end.

(** ['\t'.join(row_data) + '\n'] for one item. *)
Definition copy_line (column_order : list string) (item : record) : string :=
  String.concat (String tab EmptyString) (copy_field ∘ get item <$> column_order)
  +:+ String line_feed EmptyString.

(** What the loop writes to the buffer. *)
Definition copy_text (column_order : list string) (batch_data : list record) : string :=
  foldr (λ item text, copy_line column_order item +:+ text) EmptyString batch_data.

End CopyText.

(** The number of occurrences of a character. *)
Fixpoint count_char (c : Ascii.ascii) (s : string) : nat :=
  match s with
  | EmptyString => 0
  | String c' s' => (if Ascii.eqb c' c then 1 else 0) + count_char c s'
  end.

Lemma count_char_app c s1 s2 : count_char c (s1 +:+ s2) = count_char c s1 + count_char c s2.
Proof. induction s1 as [|c' s1 IH]; simpl; [done|]. rewrite IH. lia. Qed.

Lemma count_char_replace c old new s :
  count_char c new = 0 →
  count_char c (replace_char old new s)
  = if Ascii.eqb old c then 0 else count_char c s.
Proof.
  intros Hnew. induction s as [|c' s IH]; simpl; [by destruct (Ascii.eqb old c)|].
  destruct (Ascii.eqb c' old) eqn:Hc'.
  - apply Ascii.eqb_eq in Hc' as ->. rewrite count_char_app, Hnew, IH. simpl.
    by destruct (Ascii.eqb old c).
  - simpl. rewrite IH. destruct (Ascii.eqb old c) eqn:Hold; [|done].
    apply Ascii.eqb_eq in Hold as ->. by rewrite Hc'.
Qed.

(** An escaped string holds no tab, no line feed and no carriage return. *)
Lemma copy_escape_clean s :
  count_char tab (copy_escape s) = 0
  ∧ count_char line_feed (copy_escape s) = 0
  ∧ count_char carriage_return (copy_escape s) = 0.
Proof.
  unfold copy_escape. by rewrite !count_char_replace.
Qed.

Lemma copy_field_clean json_dumps py_str v :
  count_char tab (copy_field json_dumps py_str v) = 0
  ∧ count_char line_feed (copy_field json_dumps py_str v) = 0
  ∧ count_char carriage_return (copy_field json_dumps py_str v) = 0.
Proof. destruct v; try apply copy_escape_clean. done. Qed.

Lemma count_char_join c sep fields :
  Forall (λ f, count_char c f = 0) fields →
  count_char c (String.concat sep fields) = (length fields - 1) * count_char c sep.
Proof.
  induction fields as [|f [|f' fields] IH]; intros Hall; [done| |].
  - inversion Hall; subst. simpl. lia.
  - inversion Hall as [|? ? Hf Hrest]; subst. specialize (IH Hrest).
    change (String.concat sep (f :: f' :: fields))
      with (f +:+ sep +:+ String.concat sep (f' :: fields)).
    rewrite !count_char_app, IH, Hf. simpl. lia.
Qed.

(** X3.  Whatever values the records hold and whatever [str] and
    [json.dumps] make of them, the text handed to COPY keeps its shape:
    every line has one tab less than there are columns and ends with its
    only line feed, no carriage return occurs, and the text has as many
    lines as the batch has records. *)
Theorem copy_text_shape (json_dumps py_str : value → string) (column_order : list string)
    (batch_data : list record) :
  (∀ item,
     count_char tab (copy_line json_dumps py_str column_order item) = length column_order - 1
     ∧ count_char line_feed (copy_line json_dumps py_str column_order item) = 1)
  ∧ count_char line_feed (copy_text json_dumps py_str column_order batch_data)
    = length batch_data
  ∧ count_char carriage_return (copy_text json_dumps py_str column_order batch_data) = 0.
Proof.
  assert (∀ c item, c = tab ∨ c = line_feed ∨ c = carriage_return →
            Forall (λ f, count_char c f = 0)
                   (copy_field json_dumps py_str ∘ get item <$> column_order)) as Hclean.
  { intros c item Hc. apply Forall_fmap, Forall_forall. intros col _. simpl.
    destruct (copy_field_clean json_dumps py_str (get item col)) as (Ht & Hl & Hr).
    by destruct Hc as [->| [->| ->]]. }
  assert (∀ item,
     count_char tab (copy_line json_dumps py_str column_order item) = length column_order - 1
     ∧ count_char line_feed (copy_line json_dumps py_str column_order item) = 1
     ∧ count_char carriage_return (copy_line json_dumps py_str column_order item) = 0)
    as Hline.
  { intros item. unfold copy_line. rewrite !count_char_app.
    rewrite !count_char_join by (apply Hclean; tauto).
    rewrite length_fmap. simpl. lia. }
  split; [intros item; destruct (Hline item) as (? & ? & ?); done|].
  induction batch_data as [|item batch_data [IHl IHr]]; [done|].
  destruct (Hline item) as (_ & Hl & Hr).
  simpl. rewrite !count_char_app, IHl, IHr, Hl, Hr. done.
Qed.

End Database.

(** ** Python's [queue.Queue] *)

Module PyQueue.

Record Queue (A : Type) := { maxsize : nat; items : list A }.
Arguments maxsize {A} _.
Arguments items {A} _.

(** [Queue.full()]: a [maxsize] of zero means no bound. *)
Definition full {A} (q : Queue A) : bool :=
  (0 <? maxsize q) && (maxsize q <=? length (items q)).

(** The queue holds no more than its capacity. *)
Definition within_capacity {A} (q : Queue A) : Prop :=
  maxsize q = 0 ∨ length (items q) ≤ maxsize q.

(** [put] once the queue has room: [None] stands for a queue that is full,
    where [put] waits (and raises [Full] when its timeout runs out). *)
Definition put {A} (q : Queue A) (x : A) : option (Queue A) :=
  if full q then None else Some {| maxsize := maxsize q; items := items q ++ [x] |}.

(** [get] once the queue has an item: [None] stands for an empty queue,
    where [get] waits (and raises [Empty] when its timeout runs out). *)
Definition get {A} (q : Queue A) : option (A * Queue A) :=
  match items q with
  | x :: rest => Some (x, {| maxsize := maxsize q; items := rest |})
  | [] => None
  end.

Lemma put_within_capacity {A} (q q' : Queue A) x :
  within_capacity q → put q x = Some q' → within_capacity q'.
Proof.
  unfold within_capacity, put, full. intros Hq.
  destruct (0 <? maxsize q) eqn:Hpos; simpl.
  - destruct (maxsize q <=? length (items q)) eqn:Hfull; [discriminate|].
    intros [= <-]. simpl. right. rewrite length_app. simpl.
    apply Nat.leb_gt in Hfull. lia.
  - intros [= <-]. simpl. left. apply Nat.ltb_ge in Hpos. lia.
Qed.

Lemma get_within_capacity {A} (q q' : Queue A) x :
  within_capacity q → get q = Some (x, q') → within_capacity q'.
Proof.
  unfold within_capacity, get. intros Hq.
  destruct (items q) as [|y rest] eqn:Hi; [discriminate|].
  intros [= <- <-]. simpl in *. lia.
Qed.

Lemma put_maxsize {A} (q q' : Queue A) x : put q x = Some q' → maxsize q' = maxsize q.
Proof. unfold put. destruct (full q); [discriminate|]. by intros [= <-]. Qed.

Lemma get_maxsize {A} (q q' : Queue A) x : get q = Some (x, q') → maxsize q' = maxsize q.
Proof. unfold get. destruct (items q); [discriminate|]. by intros [= <- <-]. Qed.

(** One turn of the loop of [put(item, timeout=...)] on a queue
    ([Lib/queue.py]): [while self._qsize() >= self.maxsize: remaining =
    endtime - time(); if remaining <= 0.0: raise Full;
    self.not_full.wait(remaining)], and [self._put(item)] after the loop.
    A turn runs under the mutex of the queue; [now] is what [time()]
    reads in it. *)
Inductive put_turn (A : Type) :=
| Enqueued (q : Queue A)
| RaisesFull
| Waits.
Arguments Enqueued {A} _.
Arguments RaisesFull {A}.
Arguments Waits {A}.

Definition put_check {A} (q : Queue A) (x : A) (endtime now : Q) : put_turn A :=
  match put q x with
  | Some q' => Enqueued q'
  | None => if Qle_bool (endtime - now) 0 then RaisesFull else Waits
  end.

End PyQueue.

(** ** The CMA sales importer: [src extract/import_cma_sales.py] *)

Module CmaSales.
Import Database.

(** What travels on [data_queue]: a record, a re-queued chunk of records, or
    the [None] that stops a flusher. *)
Inductive qitem :=
| Single (r : record)
| Chunk (l : list record)
| PoisonPill.

(** [Queue(maxsize=200000)] (lines 63-65). *)
Definition data_queue_maxsize : nat := 200000.

(** *** [add_to_queue] against the flushers (lines 312-322)

    The producer walks through [data] and calls [put(record, timeout=5.0)]
    for each record; flushers take items off the queue in between.  An
    interleaving is a list of events, each of them atomic under the mutex
    of the queue: the producer enters [put] and reads the clock for the
    deadline; a turn of the loop of [put], at its entry and after each
    wait, which enqueues the record, raises [Full] (caught at line 317:
    the record is logged and left behind, the loop goes on with the next
    one) or waits on; a flusher's [get]. *)
Inductive event :=
| PutEnters (now : Q)
| PutTurns (now : Q)
| FlusherGets.

(** A [put] in progress: the clock at its entry, and at the turns after
    which it went on waiting. *)
Record put_call := { entered : Q; woken : list Q }.

(** A record left behind: the clock when its [put] was entered and when
    it raised [Full]. *)
Record given_up := { lost : record; put_at : Q; full_at : Q }.

Record producer_state := {
  data_queue : PyQueue.Queue qitem;
  pending : list record;     (* the records of [data] not yet through [put] *)
  in_put : option put_call;  (* the [put] of the first of them, once entered *)
  accepted : list record;    (* the records put on the queue so far *)
  dropped : list given_up;   (* the records given up after [Full] *)
  taken : list qitem         (* what the flushers have got, in order *)
}.

(** [timeout=5.0] (line 316). *)
Definition put_timeout : Q := 5.

Definition step (e : event) (s : producer_state) : option producer_state :=
  match e with
  | PutEnters now =>
      match pending s, in_put s with
      | _ :: _, None =>
          Some {| data_queue := data_queue s; pending := pending s;
                  in_put := Some {| entered := now; woken := [] |};
                  accepted := accepted s; dropped := dropped s; taken := taken s |}
      | _, _ => None
      end
  | PutTurns now =>
      match pending s, in_put s with
      | r :: rest, Some c =>
          match PyQueue.put_check (data_queue s) (Single r)
                  (entered c + put_timeout) now with
          | PyQueue.Enqueued q' =>
              Some {| data_queue := q'; pending := rest; in_put := None;
                      accepted := accepted s ++ [r]; dropped := dropped s;
                      taken := taken s |}
          | PyQueue.RaisesFull =>
              Some {| data_queue := data_queue s; pending := rest; in_put := None;
                      accepted := accepted s;
                      dropped := dropped s
                                 ++ [{| lost := r; put_at := entered c; full_at := now |}];
                      taken := taken s |}
          | PyQueue.Waits =>
              Some {| data_queue := data_queue s; pending := pending s;
                      in_put := Some {| entered := entered c; woken := woken c ++ [now] |};
                      accepted := accepted s; dropped := dropped s; taken := taken s |}
          end
      | _, _ => None
      end
  | FlusherGets =>
      '(x, q') ← PyQueue.get (data_queue s);
      Some {| data_queue := q'; pending := pending s; in_put := in_put s;
              accepted := accepted s; dropped := dropped s; taken := taken s ++ [x] |}
  end.

Fixpoint run (evs : list event) (s : producer_state) : option producer_state :=
  match evs with
  | [] => Some s
  | e :: evs' => s' ← step e s; run evs' s'
  end.

(** [add_to_queue(data)] entered with the queue [q]. *)
Definition add_to_queue (q : PyQueue.Queue qitem) (data : list record) : producer_state :=
  {| data_queue := q; pending := data; in_put := None; accepted := []; dropped := [];
     taken := [] |}.

(** A [put] that is still waiting has found its deadline ahead at every
    turn so far. *)
Definition waits_within_deadline (s : producer_state) : Prop :=
  ∀ c, in_put s = Some c → Forall (λ now, (now < entered c + put_timeout)%Q) (woken c).

Lemma put_check_Enqueued {A} (q q' : PyQueue.Queue A) x endtime now :
  PyQueue.put_check q x endtime now = PyQueue.Enqueued q' ↔ PyQueue.put q x = Some q'.
Proof.
  unfold PyQueue.put_check. destruct (PyQueue.put q x) as [q1|].
  - split; by intros [= ->].
  - split; [by destruct (Qle_bool _ _)|done].
Qed.

Lemma put_check_RaisesFull {A} (q : PyQueue.Queue A) x endtime now :
  PyQueue.put_check q x endtime now = PyQueue.RaisesFull →
  PyQueue.full q = true ∧ (endtime <= now)%Q.
Proof.
  unfold PyQueue.put_check, PyQueue.put. destruct (PyQueue.full q); [|done].
  destruct (Qle_bool _ _) eqn:Hle; [|done]. intros _. split; [done|].
  apply Qle_bool_iff in Hle. lra.
Qed.

Lemma put_check_Waits {A} (q : PyQueue.Queue A) x endtime now :
  PyQueue.put_check q x endtime now = PyQueue.Waits →
  PyQueue.full q = true ∧ (now < endtime)%Q.
Proof.
  unfold PyQueue.put_check, PyQueue.put. destruct (PyQueue.full q); [|done].
  destruct (Qle_bool _ _) eqn:Hle; [done|]. intros _. split; [done|].
  assert (¬ (endtime - now <= 0)%Q) as Hn
    by (intros Hle'; apply Qle_bool_iff in Hle'; congruence).
  lra.
Qed.

(** What one event does to the queue and to the producer's books. *)
Lemma step_accounts e s s' :
  PyQueue.within_capacity (data_queue s) → waits_within_deadline s → step e s = Some s' →
  PyQueue.within_capacity (data_queue s')
  ∧ PyQueue.maxsize (data_queue s') = PyQueue.maxsize (data_queue s)
  ∧ waits_within_deadline s'
  ∧ ∃ passed acc drp,
      pending s = passed ++ pending s'
      ∧ accepted s' = accepted s ++ acc ∧ dropped s' = dropped s ++ drp
      ∧ passed ≡ₚ acc ++ (lost <$> drp)
      ∧ taken s' ++ PyQueue.items (data_queue s')
        = taken s ++ PyQueue.items (data_queue s) ++ (Single <$> acc)
      ∧ Forall (λ d, (put_at d + put_timeout <= full_at d)%Q) drp.
Proof.
  intros Hq Hw. destruct e as [now|now|]; cbn [step].
  - destruct (pending s) as [|r rest] eqn:Hp; [done|].
    destruct (in_put s) as [c|]; [done|]. intros [= <-]. cbn.
    split_and!; [done|done| |].
    + intros c [= <-]. constructor.
    + exists [], [], []. rewrite !app_nil_r. by split_and!.
  - destruct (pending s) as [|r rest] eqn:Hp; [done|].
    destruct (in_put s) as [c|] eqn:Hc; [|done].
    destruct (PyQueue.put_check _ _ _ _) as [q'| |] eqn:Hcheck; intros [= <-]; cbn.
    + apply put_check_Enqueued in Hcheck.
      split_and!; [by eapply PyQueue.put_within_capacity|by eapply PyQueue.put_maxsize
                  |done|].
      exists [r], [r], []. rewrite !app_nil_r. split_and!; try done.
      revert Hcheck. unfold PyQueue.put. destruct (PyQueue.full _); [done|].
      by intros [= <-].
    + apply put_check_RaisesFull in Hcheck as [_ Hlate].
      split_and!; [done|done|done|].
      exists [r], [], [{| lost := r; put_at := entered c; full_at := now |}].
      rewrite !app_nil_r. split_and!; try done. by apply Forall_singleton.
    + apply put_check_Waits in Hcheck as [_ Hearly].
      split_and!; [done|done| |].
      * intros c' [= <-]. cbn. apply Forall_app. split; [by apply Hw|].
        by apply Forall_singleton.
      * exists [], [], []. rewrite !app_nil_r. by split_and!.
  - destruct (PyQueue.get (data_queue s)) as [[x q']|] eqn:Hget; [|done].
    cbn. intros [= <-]. cbn.
    split_and!; [by eapply PyQueue.get_within_capacity|by eapply PyQueue.get_maxsize
                |done|].
    exists [], [], []. rewrite !app_nil_r. split_and!; try done.
    revert Hget. unfold PyQueue.get.
    destruct (PyQueue.items (data_queue s)) as [|y rest]; [done|].
    intros [= <- <-]. cbn. by rewrite <-app_assoc.
Qed.

Lemma run_accounts evs : ∀ s s',
  PyQueue.within_capacity (data_queue s) → waits_within_deadline s → run evs s = Some s' →
  PyQueue.within_capacity (data_queue s')
  ∧ PyQueue.maxsize (data_queue s') = PyQueue.maxsize (data_queue s)
  ∧ waits_within_deadline s'
  ∧ ∃ passed acc drp,
      pending s = passed ++ pending s'
      ∧ accepted s' = accepted s ++ acc ∧ dropped s' = dropped s ++ drp
      ∧ passed ≡ₚ acc ++ (lost <$> drp)
      ∧ taken s' ++ PyQueue.items (data_queue s')
        = taken s ++ PyQueue.items (data_queue s) ++ (Single <$> acc)
      ∧ Forall (λ d, (put_at d + put_timeout <= full_at d)%Q) drp.
Proof.
  induction evs as [|e evs IH]; intros s s' Hq Hw; cbn [run].
  - intros [= <-]. split_and!; [done|done|done|].
    exists [], [], []. rewrite !app_nil_r. by split_and!.
  - destruct (step e s) as [s1|] eqn:Hstep; [|done]. cbn. intros Hrun.
    destruct (step_accounts _ _ _ Hq Hw Hstep)
      as (Hq1 & Hm1 & Hw1 & tk1 & ac1 & dr1 & Hp1 & Ha1 & Hd1 & Hperm1 & Hi1 & Ht1).
    destruct (IH _ _ Hq1 Hw1 Hrun)
      as (Hq' & Hm' & Hw' & tk2 & ac2 & dr2 & Hp2 & Ha2 & Hd2 & Hperm2 & Hi2 & Ht2).
    split_and!; [done|congruence|done|].
    exists (tk1 ++ tk2), (ac1 ++ ac2), (dr1 ++ dr2).
    rewrite Hp1, Hp2, Ha2, Ha1, Hd2, Hd1, <-!app_assoc. split_and!; try done.
    + rewrite Hperm1, Hperm2, fmap_app. rewrite <-!app_assoc. f_equiv.
      rewrite !app_assoc. f_equiv. apply Permutation_app_comm.
    + rewrite Hi2, (app_assoc (taken s1)), Hi1, fmap_app. by rewrite <-!app_assoc.
    + by apply Forall_app.
Qed.

(** C2, as the code has it.  Along every interleaving of the producer's
    puts and the flushers' gets the queue stays within its capacity and
    keeps its capacity; the records the producer has put are, in their
    order and behind what was there, what the flushers have taken and what
    the queue holds; every record the producer has passed is either among
    these or dropped, and a record is dropped only at a turn of its [put]
    five seconds or more after the [put] was entered; a [put] that is
    still waiting has found less than five seconds gone at every turn;
    and a turn of a [put] enqueues its record when there is room, and on
    a full queue enqueues nothing: it gives the record up when five
    seconds or more are gone since the [put] was entered, and waits on
    otherwise. *)
Theorem queue_bounded_put_waits_then_drops (s s' : producer_state) (evs : list event) :
  PyQueue.within_capacity (data_queue s) → waits_within_deadline s →
  run evs s = Some s' →
  PyQueue.within_capacity (data_queue s')
  ∧ PyQueue.maxsize (data_queue s') = PyQueue.maxsize (data_queue s)
  ∧ waits_within_deadline s'
  ∧ (∃ passed acc drp,
       pending s = passed ++ pending s'
       ∧ accepted s' = accepted s ++ acc ∧ dropped s' = dropped s ++ drp
       ∧ passed ≡ₚ acc ++ (lost <$> drp)
       ∧ taken s' ++ PyQueue.items (data_queue s')
         = taken s ++ PyQueue.items (data_queue s) ++ (Single <$> acc)
       ∧ Forall (λ d, (put_at d + put_timeout <= full_at d)%Q) drp)
  ∧ (∀ s1 s2 now, step (PutTurns now) s1 = Some s2 →
       ∃ r rest c,
         pending s1 = r :: rest ∧ in_put s1 = Some c
         ∧ if PyQueue.full (data_queue s1)
           then data_queue s2 = data_queue s1 ∧ accepted s2 = accepted s1
                ∧ (((entered c + put_timeout <= now)%Q
                    ∧ dropped s2
                      = dropped s1
                        ++ [{| lost := r; put_at := entered c; full_at := now |}]
                    ∧ in_put s2 = None ∧ pending s2 = rest)
                   ∨ ((now < entered c + put_timeout)%Q
                      ∧ dropped s2 = dropped s1
                      ∧ in_put s2
                        = Some {| entered := entered c; woken := woken c ++ [now] |}
                      ∧ pending s2 = pending s1))
           else accepted s2 = accepted s1 ++ [r] ∧ dropped s2 = dropped s1
                ∧ in_put s2 = None ∧ pending s2 = rest
                ∧ PyQueue.items (data_queue s2)
                  = PyQueue.items (data_queue s1) ++ [Single r]).
Proof.
  intros Hq Hw Hrun.
  destruct (run_accounts _ _ _ Hq Hw Hrun) as (Hq' & Hm & Hw' & Hacc).
  split_and!; [done|done|done|done|].
  intros s1 s2 now. cbn [step].
  destruct (pending s1) as [|r rest] eqn:Hp; [done|].
  destruct (in_put s1) as [c|]; [|done].
  intros Hstep. exists r, rest, c. split_and!; [done|done|].
  destruct (PyQueue.put_check _ _ _ _) as [q'| |] eqn:Hcheck;
    injection Hstep as <-; cbn.
  - apply put_check_Enqueued in Hcheck. revert Hcheck. unfold PyQueue.put.
    destruct (PyQueue.full (data_queue s1)); [done|]. by intros [= <-].
  - apply put_check_RaisesFull in Hcheck as [-> Hlate].
    split_and!; [done|done|]. left. by split_and!.
  - apply put_check_Waits in Hcheck as [-> Hearly].
    split_and!; [done|done|]. right. by split_and!.
Qed.

(** A queue for one item, three records, and a flusher that takes the
    first record only after the second was given up. *)
Definition small_run : list event :=
  [ PutEnters 0; PutTurns 0; PutEnters 1; PutTurns 1; PutTurns 3; PutTurns 6;
    FlusherGets; PutEnters 7; PutTurns 7 ]%Q.

Lemma queue_bounded_put_waits_then_drops_witness :
  let s := add_to_queue {| PyQueue.maxsize := 1; PyQueue.items := [] |}
             [sample_record 1; sample_record 2; sample_record 3] in
  let s' := {| data_queue := {| PyQueue.maxsize := 1;
                                PyQueue.items := [Single (sample_record 3)] |};
               pending := []; in_put := None;
               accepted := [sample_record 1; sample_record 3];
               dropped := [{| lost := sample_record 2; put_at := 1; full_at := 6 |}];
               taken := [Single (sample_record 1)] |} in
  run small_run s = Some s'
  ∧ PyQueue.within_capacity (data_queue s')
  ∧ PyQueue.maxsize (data_queue s') = PyQueue.maxsize (data_queue s)
  ∧ waits_within_deadline s'
  ∧ (∃ passed acc drp,
       pending s = passed ++ pending s'
       ∧ accepted s' = accepted s ++ acc ∧ dropped s' = dropped s ++ drp
       ∧ passed ≡ₚ acc ++ (lost <$> drp)
       ∧ taken s' ++ PyQueue.items (data_queue s')
         = taken s ++ PyQueue.items (data_queue s) ++ (Single <$> acc)
       ∧ Forall (λ d, (put_at d + put_timeout <= full_at d)%Q) drp).
Proof.
  intros s s'. split; [reflexivity|].
  destruct (queue_bounded_put_waits_then_drops s s' small_run)
    as (Hq & Hm & Hw & Hacc & _).
  - right. simpl. lia.
  - intros c Hc. discriminate Hc.
  - reflexivity.
  - by split_and!.
Defined.

(** The importer's queue, filled to its capacity of 200000 items. *)
Definition full_data_queue : PyQueue.Queue qitem :=
  {| PyQueue.maxsize := data_queue_maxsize;
     PyQueue.items := replicate data_queue_maxsize (Single (sample_record 0)) |}.

(** A [put] on a queue that stays full: the turn at its entry waits, the
    turn at the deadline raises [Full]. *)
Lemma put_on_full_queue q r rest (t0 t1 : Q) :
  PyQueue.full q = true →
  Qle_bool (t0 + put_timeout - t0) 0 = false → Qle_bool (t0 + put_timeout - t1) 0 = true →
  run [PutEnters t0; PutTurns t0; PutTurns t1] (add_to_queue q (r :: rest))
  = Some {| data_queue := q; pending := rest; in_put := None; accepted := [];
            dropped := [{| lost := r; put_at := t0; full_at := t1 |}]; taken := [] |}.
Proof.
  intros Hfull Hearly Hlate.
  unfold run, step, add_to_queue, PyQueue.put_check, PyQueue.put.
  cbn [pending in_put data_queue entered woken mbind option_bind accepted dropped taken].
  rewrite Hfull, Hearly.
  cbn [mbind option_bind pending in_put data_queue entered woken].
  by rewrite Hfull, Hlate.
Qed.

(** C2 as stated fails: with the queue full and no flusher taking an item
    within the five seconds of [put(record, timeout=5.0)], the turn at the
    deadline raises [Full]; [add_to_queue] catches it, leaves the record
    behind and returns; the record was never enqueued. *)
Lemma full_queue_put_drops_record :
  PyQueue.full full_data_queue = true
  ∧ run [PutEnters 0; PutTurns 0; PutTurns 5]%Q
        (add_to_queue full_data_queue [sample_record 1])
    = Some {| data_queue := full_data_queue; pending := []; in_put := None;
              accepted := [];
              dropped := [{| lost := sample_record 1; put_at := 0; full_at := 5 |}];
              taken := [] |}.
Proof.
  assert (PyQueue.full full_data_queue = true) as Hfull by by vm_compute.
  split; [done|]. by apply put_on_full_queue.
Qed.

(** *** The flusher thread: [_flusher_worker] (lines 162-207) *)

Record flusher := { buffer : list record; last_flush_time : Q }.

(** What one pass of the [while True] loop observes: the outcome of
    [data_queue.get(timeout=1.0)] ([None] for [Empty]), the clock at the
    test of line 183, the clock after a flush, and the two reads of
    [self.processing_complete] (lines 183 and 188). *)
Record pass := {
  received : option qitem;
  now : Q;
  now_flushed : Q;
  complete_at_test : bool;
  complete_at_break : bool
}.

(** [_flush_buffer(buffer)] (lines 209-266) as the worker sees it: an empty
    buffer returns at once, any other is handed as one batch to
    [insert_cma_sales_data]. *)
Definition _flush_buffer (buffer : list record) : list (list record) :=
  match buffer with
  | [] => []
  | _ => [buffer]
  end.

(** One pass of the loop: the worker after it, the batches flushed in it,
    and whether the loop goes on. *)
Definition flusher_pass (batch_size : Z) (w : flusher) (p : pass)
  : flusher * list (list record) * control :=
  match received p with
  | Some PoisonPill => (w, [], Break)
  | Some d =>
      let buffer' :=
        match d with
        | Chunk l => buffer w ++ l
        | Single r => buffer w ++ [r]
        | PoisonPill => buffer w
        end in
      if (batch_size <=? Z.of_nat (length buffer'))%Z
      then ({| buffer := []; last_flush_time := now_flushed p |},
            _flush_buffer buffer', Continue)
      else ({| buffer := buffer'; last_flush_time := last_flush_time w |}, [], Continue)
  | None =>
      let w_flushes :=
        if negb (bool_decide (buffer w = []))
           && (Qgtb (now p - last_flush_time w) 30 || complete_at_test p)
        then ({| buffer := []; last_flush_time := now_flushed p |}, _flush_buffer (buffer w))
        else (w, []) in
      (w_flushes.1, w_flushes.2, if complete_at_break p then Break else Continue)
  end.

(** A worker that still waits on the queue, or one that has returned. *)
Inductive worker_status := Running (w : flusher) | Finished.

(** The loop over the passes the worker lives through, with the flush of
    lines 203-206 once the loop is left. *)
Fixpoint flusher_run (batch_size : Z) (w : flusher) (passes : list pass)
  : worker_status * list (list record) :=
  match passes with
  | [] => (Running w, [])
  | p :: passes' =>
      let '(w', flushed, c) := flusher_pass batch_size w p in
      match c with
      | Break => (Finished, flushed ++ _flush_buffer (buffer w'))
      | Continue =>
          let '(st, later) := flusher_run batch_size w' passes' in
          (st, flushed ++ later)
      end
  end.

Definition _flusher_worker (batch_size : Z) (started : Q) (passes : list pass)
  : worker_status * list (list record) :=
  flusher_run batch_size {| buffer := []; last_flush_time := started |} passes.

(** The records an item carries. *)
Definition records_of (d : option qitem) : list record :=
  match d with
  | Some (Single r) => [r]
  | Some (Chunk l) => l
  | _ => []
  end.

Lemma concat_flush_buffer b : concat (_flush_buffer b) = b.
Proof. destruct b; [done|]. simpl. by rewrite app_nil_r. Qed.

Lemma flusher_pass_keeps batch_size w p w' flushed c :
  flusher_pass batch_size w p = (w', flushed, c) →
  concat flushed ++ buffer w' = buffer w ++ records_of (received p).
Proof.
  unfold flusher_pass. destruct (received p) as [[r|l|]|]; simpl.
  - destruct (_ <=? _)%Z; intros [= <- <- <-]; simpl; [|done].
    by rewrite concat_flush_buffer, app_nil_r.
  - destruct (_ <=? _)%Z; intros [= <- <- <-]; simpl; [|done].
    by rewrite concat_flush_buffer, app_nil_r.
  - intros [= <- <- <-]. by rewrite app_nil_r.
  - destruct (negb _ && _); intros [= <- <- <-]; simpl; [|by rewrite app_nil_r].
    by rewrite concat_flush_buffer.
Qed.

(** A worker that has finished flushed every record it had buffered or
    received before it left the loop, in order. *)
Lemma flusher_run_finished batch_size passes : ∀ w flushed,
  flusher_run batch_size w passes = (Finished, flushed) →
  ∃ seen, seen `prefix_of` passes ∧
    concat flushed = buffer w ++ concat (records_of ∘ received <$> seen).
Proof.
  induction passes as [|p passes IH]; intros w flushed; simpl; [discriminate|].
  destruct (flusher_pass batch_size w p) as [[w' fl] c] eqn:Hpass.
  apply flusher_pass_keeps in Hpass.
  destruct c.
  - destruct (flusher_run batch_size w' passes) as [st later] eqn:Hrun.
    intros [= -> <-]. destruct (IH _ _ Hrun) as (seen & Hpre & Hcat).
    exists (p :: seen). split; [by apply prefix_cons|].
    rewrite concat_app, Hcat, app_assoc, Hpass. simpl. by rewrite <-app_assoc.
  - intros [= <-]. exists [p]. split; [apply prefix_cons, prefix_nil|].
    rewrite concat_app, concat_flush_buffer, Hpass. simpl. by rewrite app_nil_r.
Qed.

(** *** Task generation: [generate_api_tasks] (lines 573-617) *)

(** The parameter lists of [__init__] (lines 85-127). *)
Record CMASalesImporter := {
  aliases : list string;
  currencies : list string;
  measurements : list string;
  property_types : list string;
  property_type_subtypes : gmap string (list string)
}.

Definition CMASalesImporter_init : CMASalesImporter :=
  {| aliases := ["last-fifteen"];
     currencies := ["aed"];
     measurements := ["int"];
     property_types := ["Commercial"; "Land"; "Residential"; "Office"];
     property_type_subtypes :=
       list_to_map
         [ ("Commercial",
            ["Industrial-Warehouse"; "Other"; "Shop"; "Showroom"; "Sized Partition";
             "Sport & Entertainment"; "Villa"; "Whole Building"; "Workshop"]);
           ("Land",
            ["Commercial Land"; "Land for Agriculture"; "Land for Airport";
             "Land for Education"; "Land for Government Housing";
             "Land for Government Organizations"; "Land for Industrial";
             "Land for Labor Camp"; "Land for Shopping Mall"; "Land for Sports";
             "Land for Warehouse"; "Land - General"; "Other Land"; "Residential Land"]);
           ("Residential",
            ["Apartment"; "Serviced/Hotel Apartment"; "Villa"; "Villa Plot"]);
           ("Office", ["Medical Office"; "Office"; "Sized Partition"; "Whole Building"]) ] |}.

(** One API task (lines 596-608); the five optional parameters are always
    [None]. *)
Record task := {
  property_id : value;
  alias : string;
  currency : string;
  measurement : string;
  property_type : string;
  property_subtype : string;
  no_of_bedrooms : value;
  size_param : value;
  sales_activity_type : value;
  lat : value;
  lon : value
}.

Global Instance task_eq : EqDecision task.
Proof. solve_decision. Defined.

(** The tasks of one property, in the order of the nested loops. *)
Definition tasks_of_property (self : CMASalesImporter) (pid : value) : list task :=
  a ← aliases self;
  c ← currencies self;
  m ← measurements self;
  pt ← property_types self;
  pst ← default [] (property_type_subtypes self !! pt);
  [ {| property_id := pid; alias := a; currency := c; measurement := m;
       property_type := pt; property_subtype := pst;
       no_of_bedrooms := VNone; size_param := VNone; sales_activity_type := VNone;
       lat := VNone; lon := VNone |} ].

(** [max_combinations_per_property] is received and never read.  The
    average logged at line 615 divides by [len(properties)]: an empty list
    of properties raises [ZeroDivisionError], here [None]. *)
Definition generate_api_tasks (self : CMASalesImporter) (properties : list record)
    (max_combinations_per_property : Z) : option (list task) :=
  let tasks :=
    property_data ← properties;
    let pid := get property_data "id" in
    if truthy pid then tasks_of_property self pid else [] in
  match properties with
  | [] => None
  | _ => Some tasks
  end.

(** *** The resume filter (lines 282-310 and 656-668) *)

(** The rows the query of [get_processed_property_ids] selects: those whose
    [alias], [currency], [measurement] and [property_type] equal the given
    parameters. *)
Definition under_signature (a c m pt : string) (row : list value) : Prop :=
  column cma_sales_columns row "alias" = VStr a
  ∧ column cma_sales_columns row "currency" = VStr c
  ∧ column cma_sales_columns row "measurement" = VStr m
  ∧ column cma_sales_columns row "property_type" = VStr pt.

Global Typeclasses Opaque under_signature.

Global Instance under_signature_dec a c m pt row : Decision (under_signature a c m pt row).
Proof. unfold under_signature. repeat apply and_dec; apply value_eq. Defined.

(** [SELECT DISTINCT property_id FROM cma_sales WHERE ...] with the first
    value of each parameter list, read into a set (here the list of its
    distinct elements).  An empty parameter list ([IndexError]) or a failing
    query ([query_fault]) ends in the handler, which returns [set()]. *)
Definition get_processed_property_ids (self : CMASalesImporter) (query_fault : bool)
    (cma_sales : list (list value)) : list value :=
  match aliases self, currencies self, measurements self, property_types self with
  | a :: _, c :: _, m :: _, pt :: _ =>
      if query_fault then []
      else remove_dups
             ((λ row, column cma_sales_columns row "property_id")
                <$> filter (under_signature a c m pt) cma_sales)
  | _, _, _, _ => []
  end.

(** Lines 658-664. *)
Definition resume_filter (processed_property_ids : list value) (api_tasks : list task)
  : list task :=
  match processed_property_ids with
  | [] => api_tasks
  | _ => filter (λ task, property_id task ∉ processed_property_ids) api_tasks
  end.

(** The work item of [task] is in the destination: some row carries its
    unit id and each of its parameter values. *)
Definition persisted (cma_sales : list (list value)) (task : task) : Prop :=
  Exists (λ row,
    column cma_sales_columns row "property_id" = property_id task
    ∧ under_signature (alias task) (currency task) (measurement task) (property_type task) row
    ∧ column cma_sales_columns row "property_subtype" = VStr (property_subtype task))
  cma_sales.

Global Typeclasses Opaque persisted.

Global Instance persisted_dec t task : Decision (persisted t task).
Proof.
  unfold persisted. apply Exists_dec. intros row.
  apply and_dec; [apply value_eq|]. apply and_dec; [apply under_signature_dec|apply value_eq].
Defined.

(** *** [process_cma_sales] (lines 619-775)

    The dry-run test of lines 640-642 comes before everything else of the
    method; [pipeline] stands for lines 644-775 (properties, tasks, resume
    filter, fetch pool and flushers). *)
Record run_result := {
  effects : list effect;
  destination : list (list value)
}.

Definition process_cma_sales (dry_run : bool)
    (pipeline : list (list value) → run_result) (cma_sales : list (list value))
  : run_result :=
  if dry_run then {| effects := []; destination := cma_sales |}
  else pipeline cma_sales.

(** *** Properties of task generation and of the resume filter *)

(** Scenario A: the parameter dimensions {A,B} x {X,Y}. *)
Definition scenario_importer : CMASalesImporter :=
  {| aliases := ["last-fifteen"]; currencies := ["aed"]; measurements := ["int"];
     property_types := ["A"; "B"];
     property_type_subtypes := list_to_map [("A", ["X"; "Y"]); ("B", ["X"; "Y"])] |}.

(** A row of [SELECT id FROM property]. *)
Definition property_row (id : Z) : record := {[ "id" := VInt id ]}.

Definition units_and_parameters (tasks : list task) : list (value * string * string) :=
  (λ t, (property_id t, property_type t, property_subtype t)) <$> tasks.

(** C8, evaluated on [generate_api_tasks]: with three units, the dimensions
    {A,B} x {X,Y} and a cap of 2 the function returns all four combinations
    of every unit, the items of B included; with the importer's own
    parameter lists and the default cap of 10 it returns 31 tasks for one
    unit. *)
Theorem generate_api_tasks_ignores_cap :
  (units_and_parameters
     <$> generate_api_tasks scenario_importer [property_row 1; property_row 2; property_row 3] 2)
  = Some [ (VInt 1, "A", "X"); (VInt 1, "A", "Y"); (VInt 1, "B", "X"); (VInt 1, "B", "Y");
           (VInt 2, "A", "X"); (VInt 2, "A", "Y"); (VInt 2, "B", "X"); (VInt 2, "B", "Y");
           (VInt 3, "A", "X"); (VInt 3, "A", "Y"); (VInt 3, "B", "X"); (VInt 3, "B", "Y") ]
  ∧ (length <$> generate_api_tasks CMASalesImporter_init [property_row 1] 10) = Some 31%nat.
Proof. split; reflexivity. Qed.

(** The cap has no influence on the result. *)
Lemma generate_api_tasks_cap_irrelevant self properties cap cap' :
  generate_api_tasks self properties cap = generate_api_tasks self properties cap'.
Proof. reflexivity. Qed.

Lemma elem_of_processed_ids self t a c m pt pid :
  aliases self !! 0 = Some a → currencies self !! 0 = Some c →
  measurements self !! 0 = Some m → property_types self !! 0 = Some pt →
  pid ∈ get_processed_property_ids self false t ↔
  Exists (λ row, column cma_sales_columns row "property_id" = pid
                 ∧ under_signature a c m pt row) t.
Proof.
  intros Ha Hc Hm Hpt. unfold get_processed_property_ids.
  destruct (aliases self) as [|a' ?]; [done|]. injection Ha as ->.
  destruct (currencies self) as [|c' ?]; [done|]. injection Hc as ->.
  destruct (measurements self) as [|m' ?]; [done|]. injection Hm as ->.
  destruct (property_types self) as [|pt' ?]; [done|]. injection Hpt as ->.
  rewrite elem_of_remove_dups, list_elem_of_fmap, Exists_exists. split.
  - intros (row & -> & Hrow). apply list_elem_of_filter in Hrow as [Hsig Hin]. eauto.
  - intros (row & Hin & <- & Hsig). exists row. split; [done|].
    by apply list_elem_of_filter.
Qed.

Lemma resume_filter_filter processed api_tasks :
  resume_filter processed api_tasks = filter (λ task, property_id task ∉ processed) api_tasks.
Proof.
  unfold resume_filter. destruct processed as [|v processed]; [|done].
  induction api_tasks as [|task api_tasks IH]; [done|].
  rewrite filter_cons_True; [by rewrite <-IH|]. apply not_elem_of_nil.
Qed.

(** C4, as the code has it.  With the first value [a], [c], [m], [pt] of each
    parameter list, the resume filter keeps, in their order, exactly the
    tasks of the units that have no stored row under ([a], [c], [m], [pt]);
    a unit that has such a row loses all its tasks, whatever their own
    property type and subtype.  When the query fails nothing is removed. *)
Theorem resume_filter_by_unit (self : CMASalesImporter) (t : list (list value))
    (api_tasks : list task) (a c m pt : string) :
  aliases self !! 0 = Some a → currencies self !! 0 = Some c →
  measurements self !! 0 = Some m → property_types self !! 0 = Some pt →
  resume_filter (get_processed_property_ids self false t) api_tasks
  = filter (λ task, ¬ Exists (λ row, column cma_sales_columns row "property_id"
                                      = property_id task
                                    ∧ under_signature a c m pt row) t) api_tasks
  ∧ resume_filter (get_processed_property_ids self true t) api_tasks = api_tasks.
Proof.
  intros Ha Hc Hm Hpt. split.
  - rewrite resume_filter_filter. apply list_filter_iff. intros task.
    by rewrite (elem_of_processed_ids self t a c m pt).
  - unfold get_processed_property_ids.
    by destruct (aliases self), (currencies self), (measurements self), (property_types self).
Qed.

(** A task of unit 101 for (Land, Commercial Land). *)
Definition land_task : task :=
  {| property_id := VInt 101; alias := "last-fifteen"; currency := "aed";
     measurement := "int"; property_type := "Land"; property_subtype := "Commercial Land";
     no_of_bedrooms := VNone; size_param := VNone; sales_activity_type := VNone;
     lat := VNone; lon := VNone |}.

(** A Record of unit 101 stored under (Land, Commercial Land). *)
Definition land_record : record :=
  <[ "property_type" := VStr "Land" ]>
    (<[ "property_subtype" := VStr "Commercial Land" ]> (sample_record 7)).

Lemma resume_filter_by_unit_witness :
  let t := [ordered_record (sample_record 0)] in
  let api_tasks := [land_task] in
  resume_filter (get_processed_property_ids CMASalesImporter_init false t) api_tasks
  = filter (λ task, ¬ Exists (λ row, column cma_sales_columns row "property_id"
                                      = property_id task
                                    ∧ under_signature "last-fifteen" "aed" "int"
                                        "Commercial" row) t) api_tasks
  ∧ resume_filter (get_processed_property_ids CMASalesImporter_init true t) api_tasks
    = api_tasks.
Proof.
  apply (resume_filter_by_unit CMASalesImporter_init
           [ordered_record (sample_record 0)] [land_task]
           "last-fifteen" "aed" "int" "Commercial"); reflexivity.
Defined.

(** C4 as stated fails in both directions.  Unit 101 has one stored row,
    for (Commercial, Shop): its task for (Land, Commercial Land) is not in
    the destination and is removed all the same.  And with one stored row
    for (Land, Commercial Land) alone, that very task is in the destination
    and is kept. *)
Lemma resume_filter_over_and_under_skips :
  let tasks := default [] (generate_api_tasks CMASalesImporter_init [property_row 101] 10) in
  let shop_only := [ordered_record (sample_record 0)] in
  let land_only := [ordered_record land_record] in
  land_task ∈ tasks
  ∧ ¬ persisted shop_only land_task
  ∧ resume_filter (get_processed_property_ids CMASalesImporter_init false shop_only) tasks = []
  ∧ persisted land_only land_task
  ∧ land_task ∈ resume_filter (get_processed_property_ids CMASalesImporter_init false land_only)
                  tasks.
Proof.
  cbv zeta. split; [by apply (bool_decide_eq_true_1 _); vm_compute|].
  split; [by apply (bool_decide_eq_false_1 _); vm_compute|].
  split; [by vm_compute|].
  split; [by apply (bool_decide_eq_true_1 _); vm_compute|].
  by apply (bool_decide_eq_true_1 _); vm_compute.
Qed.

(** *** [_process_cma_sales_data] (lines 324-466) *)

(** How a conversion ([int(x)], [float(x)]) ends: with a number, with
    [ValueError] or [TypeError], or with another exception
    ([OverflowError]). *)
Inductive converted (A : Type) :=
| Value (a : A)
| Rejects
| Fails.
Arguments Value {A} _.
Arguments Rejects {A}.
Arguments Fails {A}.

Section Process.
(** [int] and [float], the conversions of Python. *)
Variable int_conversion : value → converted Z.
Variable float_conversion : value → converted Q.

(** [to_float] and [to_int] (lines 29-39): [None] stays [None], a value
    that [float] rejects gives [None]; the result is [None] here when the
    exception is not one the function catches. *)
Definition to_float (v : value) : option value :=
  match v with
  | VNone => Some VNone
  | _ => match float_conversion v with
         | Value q => Some (VFloat q)
         | Rejects => Some VNone
         | Fails => None
         end
  end.

Definition to_int (v : value) : option value :=
  match v with
  | VNone => Some VNone
  | _ => match int_conversion v with
         | Value z => Some (VInt z)
         | Rejects => Some VNone
         | Fails => None
         end
  end.

(** [unique_key] (lines 384-392). *)
Definition unique_key : Type := Z * string * string * string * string * string * Z.

(** Lines 395-452 for one item that is new: the record, and nothing when
    an exception leaves the [try] ([location.get] on a value that is no
    dict raises [AttributeError]). *)
Definition processed_record (item : list (string * value)) (pid cid : Z)
    (alias currency measurement property_type property_subtype : string) : option record :=
  let field k := default VNone (assoc item k) in
  size_value ← to_float (field "size");
  price_value ← to_float (field "price");
  price_per_size_value ← to_float (field "price_per_size");
  item_no_of_bedrooms ← to_int (field "no_of_bedrooms");
  location ← match assoc item "location" with
             | None => Some []
             | Some (VDict d) => Some d
             | Some _ => None
             end;
  let loc k := default VNone (assoc location k) in
  Some (list_to_map
    [ ("property_id", VInt pid); ("alias", VStr alias); ("currency", VStr currency);
      ("measurement", VStr measurement); ("property_type", VStr property_type);
      ("property_subtype", VStr property_subtype);
      ("comparable_property_id", VInt cid);
      ("comparable_property_name", field "property_name");
      ("size", size_value); ("price", price_value);
      ("price_per_size", price_per_size_value);
      ("transaction_date", field "transaction_date");
      ("city_id", loc "city_id"); ("city_name", loc "city_name");
      ("county_id", loc "county_id"); ("county_name", loc "county_name");
      ("district_id", loc "district_id"); ("district_name", loc "district_name");
      ("location_id", loc "location_id"); ("location_name", loc "location_name");
      ("municipal_area", loc "municipal_area");
      ("activity_type", field "activity_type");
      ("no_of_bedrooms", item_no_of_bedrooms);
      ("number_of_unit", field "number_of_unit");
      ("property_nature", field "property_nature");
      ("number_of_floors", field "number_of_floors");
      ("parent_property", default (VDict []) (assoc item "parent_property"));
      ("raw_data", VDict item) ]).

(** One pass of [for item in raw_data] over the records and the keys seen
    so far.  The key is added to [seen_keys] before the record is built. *)
Definition process_item (property_id : value)
    (alias currency measurement property_type property_subtype : string)
    (s : list record * list unique_key) (item : value) : list record * list unique_key :=
  let '(processed_records, seen_keys) := s in
  match item with
  | VDict d =>
      let comparable_property_id := default VNone (assoc d "property_id") in
      if negb (truthy comparable_property_id) then s
      else
        match int_conversion property_id, int_conversion comparable_property_id with
        | Value pid, Value cid =>
            let key : unique_key :=
              (pid, alias, currency, measurement, property_type, property_subtype, cid) in
            if bool_decide (key ∈ seen_keys) then s
            else
              match processed_record d pid cid alias currency measurement property_type
                      property_subtype with
              | Some r => (processed_records ++ [r], seen_keys ++ [key])
              | None => (processed_records, seen_keys ++ [key])
              end
        | _, _ => s
        end
  | _ => s
  end.

Definition _process_cma_sales_data (raw_data : list value) (property_id : value)
    (alias currency measurement property_type property_subtype : string) : list record :=
  (foldl (process_item property_id alias currency measurement property_type property_subtype)
         ([], []) raw_data).1.

(** The index entry of a record built for [(pid, ..., cid)]. *)
Definition entry_of (k : unique_key) : list value :=
  let '(pid, alias, currency, measurement, property_type, property_subtype, cid) := k in
  [ VInt pid; VStr alias; VStr currency; VStr measurement; VStr property_type;
    VStr property_subtype; VInt cid ].

Global Instance entry_of_inj : Inj (=) (=) entry_of.
Proof.
  intros [[[[[[pid a] c] m] pt] pst] cid] [[[[[[pid' a'] c'] m'] pt'] pst'] cid'].
  simpl. by intros [= -> -> -> -> -> -> ->].
Qed.

Lemma processed_record_entry item pid cid alias currency measurement property_type
    property_subtype r :
  processed_record item pid cid alias currency measurement property_type property_subtype
    = Some r →
  cma_sales_key (ordered_record r)
    = Some (entry_of (pid, alias, currency, measurement, property_type, property_subtype, cid))
  ∧ has_natural_key r
  ∧ get r "raw_data" = VDict item.
Proof.
  unfold processed_record. intros Hr.
  destruct (to_float (default VNone (assoc item "size"))) as [size_value|];
    cbv [mbind option_bind] in Hr; [|discriminate].
  destruct (to_float (default VNone (assoc item "price"))) as [price_value|];
    cbv [mbind option_bind] in Hr; [|discriminate].
  destruct (to_float (default VNone (assoc item "price_per_size")))
    as [price_per_size_value|]; cbv [mbind option_bind] in Hr; [|discriminate].
  destruct (to_int _) as [item_no_of_bedrooms|]; cbv [mbind option_bind] in Hr;
    [|discriminate].
  destruct (match assoc item "location" with None => _ | _ => _ end) as [location|];
    cbv [mbind option_bind] in Hr; [|discriminate].
  apply (inj Some) in Hr. subst r.
  split; [reflexivity|]. split; [|reflexivity].
  repeat (constructor; [by vm_compute|]). constructor.
Qed.

(** What the loop keeps true: every record has its natural key and its raw
    item, the index entries of the records are among the keys seen, in
    order, and no key was seen twice. *)
Definition process_invariant (raw_data : list value) (s : list record * list unique_key)
  : Prop :=
  Forall (λ r, has_natural_key r ∧ get r "raw_data" ∈ raw_data) s.1
  ∧ omap (cma_sales_key ∘ ordered_record) s.1 `sublist_of` (entry_of <$> s.2)
  ∧ length (omap (cma_sales_key ∘ ordered_record) s.1) = length s.1
  ∧ NoDup s.2
  ∧ length s.1 ≤ length s.2.

Lemma process_item_invariant raw_data property_id alias currency measurement property_type
    property_subtype s item :
  item ∈ raw_data → process_invariant raw_data s →
  process_invariant raw_data
    (process_item property_id alias currency measurement property_type property_subtype
       s item).
Proof.
  intros Hin Hs. destruct s as [processed_records seen_keys]. unfold process_item.
  destruct item as [| | | | | |d]; try done.
  destruct (negb _); [done|].
  destruct (int_conversion property_id) as [pid| |]; try done.
  destruct (int_conversion _) as [cid| |]; try done.
  destruct (bool_decide _) eqn:Hseen; [done|]. apply bool_decide_eq_false in Hseen.
  destruct Hs as (Hall & Hsub & Hlen & Hnd & Hle). simpl in *.
  assert (NoDup (seen_keys
            ++ [(pid, alias, currency, measurement, property_type, property_subtype, cid)]))
    as Hnd'.
  { apply NoDup_app. split; [done|]. split; [|apply NoDup_singleton].
    by intros k Hk ->%list_elem_of_singleton. }
  destruct (processed_record _ _ _ _ _ _ _ _) as [r|] eqn:Hr.
  - apply processed_record_entry in Hr as (Hkey & Hnat & Hraw).
    unfold process_invariant. simpl.
    rewrite omap_app, fmap_app. simpl. rewrite Hkey. simpl.
    split; [|split; [|split; [|split]]].
    + apply Forall_app. split; [done|]. apply Forall_singleton. by rewrite Hraw.
    + by apply sublist_app.
    + rewrite !length_app, Hlen. done.
    + done.
    + rewrite !length_app. simpl. lia.
  - unfold process_invariant. simpl. rewrite fmap_app.
    split; [done|]. split; [by apply sublist_inserts_r|]. split; [done|]. split; [done|].
    rewrite length_app. simpl. lia.
Qed.

Lemma _process_cma_sales_data_invariant raw_data property_id alias currency measurement
    property_type property_subtype :
  process_invariant raw_data
    (foldl (process_item property_id alias currency measurement property_type
              property_subtype) ([], []) raw_data).
Proof.
  assert (∀ items s, items ⊆ raw_data → process_invariant raw_data s →
            process_invariant raw_data
              (foldl (process_item property_id alias currency measurement property_type
                        property_subtype) s items)) as Hfold.
  { induction items as [|item items IH]; intros s Hsub Hs; [done|]. simpl.
    apply IH; [set_solver|]. apply process_item_invariant; [|done].
    apply Hsub. apply list_elem_of_here. }
  apply Hfold; [done|]. unfold process_invariant. simpl.
  split_and!; [constructor|constructor|done|apply NoDup_nil_2|done].
Qed.

Lemma _process_cma_sales_data_length property_id alias currency measurement property_type
    property_subtype items : ∀ s,
  length (foldl (process_item property_id alias currency measurement property_type
                   property_subtype) s items).1
  ≤ length s.1 + length items.
Proof.
  induction items as [|item items IH]; intros s; simpl; [lia|].
  etrans; [apply IH|]. apply Nat.add_le_mono_r with (p := length items).
  destruct s as [processed_records seen_keys]. unfold process_item.
  destruct item as [| | | | | |d]; simpl; try lia.
  destruct (negb _); simpl; [lia|].
  destruct (int_conversion property_id) as [pid| |]; simpl; try lia.
  destruct (int_conversion _) as [cid| |]; simpl; try lia.
  destruct (bool_decide _); simpl; [lia|].
  destruct (processed_record _ _ _ _ _ _ _ _); simpl; [|lia].
  rewrite length_app. simpl. lia.
Qed.

End Process.

Lemma length_omap_le {A B} (f : A → option B) (l : list A) : length (omap f l) ≤ length l.
Proof.
  induction l as [|x l IH]; [done|]. unfold omap in *. simpl.
  destruct (f x); simpl; lia.
Qed.

Lemma fmap_omap_Some {A B} (f : A → option B) (l : list A) :
  length (omap f l) = length l → f <$> l = Some <$> omap f l.
Proof.
  induction l as [|x l IH]; [done|].
  pose proof (length_omap_le f l) as Hle.
  unfold omap in *. simpl. destruct (f x) as [y|]; simpl; [|lia].
  intros [= Hlen]. f_equal. by apply IH.
Qed.

(** X5.  Whatever the response holds and however [int] and [float] deal
    with its values, the records [_process_cma_sales_data] returns all
    carry the seven columns of the natural key, no two of them have the
    same natural key, each keeps an item of the response as [raw_data],
    and there are no more records than items. *)
Theorem cma_sales_records_keyed (int_conversion : value → converted Z)
    (float_conversion : value → converted Q) (raw_data : list value) (property_id : value)
    (alias currency measurement property_type property_subtype : string) :
  let records := _process_cma_sales_data int_conversion float_conversion raw_data
                   property_id alias currency measurement property_type property_subtype in
  Forall has_natural_key records
  ∧ NoDup (cma_sales_key ∘ ordered_record <$> records)
  ∧ Forall (λ r, get r "raw_data" ∈ raw_data) records
  ∧ length records ≤ length raw_data.
Proof.
  intros records. subst records. unfold _process_cma_sales_data.
  pose proof (_process_cma_sales_data_invariant int_conversion float_conversion raw_data
                property_id alias currency measurement property_type property_subtype)
    as (Hall & Hsub & Hlen & Hnd & _).
  pose proof (_process_cma_sales_data_length int_conversion float_conversion property_id
                alias currency measurement property_type property_subtype raw_data ([], []))
    as Hle.
  split_and!.
  - eapply Forall_impl; [exact Hall|]. by intros r [? _].
  - rewrite (fmap_omap_Some _ _ Hlen). apply (NoDup_fmap_2 Some).
    eapply sublist_NoDup; [|exact Hsub]. by apply (NoDup_fmap_2 entry_of).
  - eapply Forall_impl; [exact Hall|]. by intros r [_ ?].
  - exact Hle.
Qed.

(** *** [_flush_buffer] when the insert fails (lines 250-266)

    The buffer goes back on the queue in chunks of at most 100 records, each
    with [put(chunk, timeout=1.0)]; [put_ok i] says whether the [put] of
    chunk [i] returned (a chunk whose [put] raises [Full] is logged and left
    behind). *)
Fixpoint put_chunks (i : nat) (put_ok : nat → bool) (chunks : list (list record))
  : list qitem :=
  match chunks with
  | [] => []
  | chunk :: chunks' =>
      (if put_ok i then [Chunk chunk] else []) ++ put_chunks (S i) put_ok chunks'
  end.

Definition requeue (buffer : list record) (put_ok : nat → bool) : list qitem :=
  put_chunks 0 put_ok (chunks (100 `min` length buffer) buffer).

Lemma put_chunks_sublist put_ok cs : ∀ i,
  concat (records_of ∘ Some <$> put_chunks i put_ok cs) `sublist_of` concat cs.
Proof.
  induction cs as [|c cs IH]; intros i; simpl; [done|].
  destruct (put_ok i); simpl.
  - apply sublist_app; [done|apply IH].
  - apply sublist_inserts_l, IH.
Qed.

Lemma put_chunks_all put_ok cs : ∀ i,
  (∀ i, put_ok i = true) → concat (records_of ∘ Some <$> put_chunks i put_ok cs) = concat cs.
Proof.
  intros i Hok. revert i. induction cs as [|c cs IH]; intros i; simpl; [done|].
  rewrite Hok. simpl. by rewrite IH.
Qed.

Lemma put_chunks_sizes put_ok n cs : ∀ i,
  Forall (λ c : list record, 0 < length c ≤ n) cs →
  Forall (λ d, ∃ l, d = Chunk l ∧ 0 < length l ≤ n) (put_chunks i put_ok cs).
Proof.
  intros i Hall. revert i. induction Hall as [|c cs Hc _ IH]; intros i; simpl; [constructor|].
  destruct (put_ok i); simpl; [|apply IH]. constructor; [by exists c|apply IH].
Qed.

(** X7.  When a flush fails, the records that go back on the queue are
    records of the buffer, in their order and none twice, in chunks of 1 to
    100 records; when every [put] returns, they are the whole buffer. *)
Theorem requeue_keeps_order (buffer : list record) (put_ok : nat → bool) :
  let items := requeue buffer put_ok in
  concat (records_of ∘ Some <$> items) `sublist_of` buffer
  ∧ Forall (λ d, ∃ l, d = Chunk l ∧ 0 < length l ≤ 100) items
  ∧ ((∀ i, put_ok i = true) → concat (records_of ∘ Some <$> items) = buffer).
Proof.
  unfold requeue. destruct buffer as [|r buffer]; [by repeat split; try constructor|].
  assert (0 < 100 `min` length (r :: buffer)) as Hpos by (simpl; lia).
  pose proof (chunks_concat _ (r :: buffer) Hpos) as Hcat.
  pose proof (chunks_sizes _ (r :: buffer) Hpos) as Hsizes.
  cbv zeta. split_and!.
  - pose proof (put_chunks_sublist put_ok (chunks (100 `min` length (r :: buffer))
                                             (r :: buffer)) 0) as Hsub.
    by rewrite Hcat in Hsub.
  - apply put_chunks_sizes. eapply Forall_impl; [exact Hsizes|].
    intros c [Hc Hc']. split; [done|]. etrans; [exact Hc'|]. apply Nat.le_min_l.
  - intros Hok. by rewrite put_chunks_all, Hcat.
Qed.

(** *** What the flusher does with the records it receives *)

Lemma _flush_buffer_nonempty b : Forall (λ batch, batch ≠ []) (_flush_buffer b).
Proof. destruct b; [constructor|]. by apply Forall_singleton. Qed.

Lemma flusher_pass_nonempty batch_size w p w' flushed c :
  flusher_pass batch_size w p = (w', flushed, c) → Forall (λ batch, batch ≠ []) flushed.
Proof.
  unfold flusher_pass. destruct (received p) as [[r|l|]|].
  - destruct (_ <=? _)%Z; intros [= <- <- <-]; [apply _flush_buffer_nonempty|constructor].
  - destruct (_ <=? _)%Z; intros [= <- <- <-]; [apply _flush_buffer_nonempty|constructor].
  - intros [= <- <- <-]. constructor.
  - destruct (negb _ && _); intros [= <- <- <-]; [apply _flush_buffer_nonempty|constructor].
Qed.

(** X8.  A flusher loses and repeats nothing: the batches it has handed
    to the insert, put together, and the records still in its buffer are
    the records it started with followed by those it received, in order;
    a worker that has finished has handed over every record it received
    before it left its loop; and no batch is empty. *)
Theorem flusher_hands_over_in_order (batch_size : Z) (w : flusher) (passes : list pass)
    (st : worker_status) (flushed : list (list record)) :
  flusher_run batch_size w passes = (st, flushed) →
  Forall (λ batch, batch ≠ []) flushed
  ∧ match st with
    | Running w' =>
        concat flushed ++ buffer w'
        = buffer w ++ concat (records_of ∘ received <$> passes)
    | Finished =>
        ∃ seen, seen `prefix_of` passes
                ∧ concat flushed = buffer w ++ concat (records_of ∘ received <$> seen)
    end.
Proof.
  revert w st flushed. induction passes as [|p passes IH]; intros w st flushed; simpl.
  - intros [= <- <-]. split; [constructor|]. by rewrite !app_nil_r.
  - destruct (flusher_pass batch_size w p) as [[w' fl] c] eqn:Hpass.
    pose proof (flusher_pass_nonempty _ _ _ _ _ _ Hpass) as Hne.
    pose proof (flusher_pass_keeps _ _ _ _ _ _ Hpass) as Hkeep.
    destruct c.
    + destruct (flusher_run batch_size w' passes) as [st' later] eqn:Hrun.
      intros [= <- <-]. destruct (IH _ _ _ Hrun) as [Hne' Hst].
      split; [by apply Forall_app|].
      destruct st' as [w''|].
      * rewrite concat_app, <-app_assoc, Hst, app_assoc, Hkeep. by rewrite <-app_assoc.
      * destruct Hst as (seen & Hpre & Hcat). exists (p :: seen).
        split; [by apply prefix_cons|].
        rewrite concat_app, Hcat, app_assoc, Hkeep. simpl. by rewrite <-app_assoc.
    + intros [= <- <-]. split.
      * apply Forall_app. split; [done|apply _flush_buffer_nonempty].
      * exists [p]. split; [apply prefix_cons, prefix_nil|].
        rewrite concat_app, concat_flush_buffer, Hkeep. simpl. by rewrite app_nil_r.
Qed.

Lemma flusher_hands_over_in_order_witness :
  let passes :=
    [ {| received := Some (Single (sample_record 1)); now := 1; now_flushed := 1;
         complete_at_test := false; complete_at_break := false |};
      {| received := Some (Chunk [sample_record 2; sample_record 3]); now := 2;
         now_flushed := 3; complete_at_test := false; complete_at_break := false |};
      {| received := Some (Single (sample_record 4)); now := 4; now_flushed := 4;
         complete_at_test := false; complete_at_break := false |};
      {| received := Some PoisonPill; now := 5; now_flushed := 5;
         complete_at_test := false; complete_at_break := false |} ] in
  let flushed := [ [sample_record 1; sample_record 2; sample_record 3]; [sample_record 4] ] in
  Forall (λ batch, batch ≠ []) flushed
  ∧ ∃ seen, seen `prefix_of` passes
            ∧ concat flushed = [] ++ concat (records_of ∘ received <$> seen).
Proof.
  intros passes flushed.
  apply (flusher_hands_over_in_order 3 {| buffer := []; last_flush_time := 0 |} passes
           Finished flushed).
  reflexivity.
Defined.

(** *** What [generate_api_tasks] returns *)

Lemma elem_of_tasks_of_property self pid task :
  task ∈ tasks_of_property self pid ↔
    property_id task = pid
    ∧ alias task ∈ aliases self ∧ currency task ∈ currencies self
    ∧ measurement task ∈ measurements self ∧ property_type task ∈ property_types self
    ∧ property_subtype task
        ∈ default [] (property_type_subtypes self !! property_type task)
    ∧ no_of_bedrooms task = VNone ∧ size_param task = VNone
    ∧ sales_activity_type task = VNone ∧ lat task = VNone ∧ lon task = VNone.
Proof.
  unfold tasks_of_property. split.
  - intros Hin.
    apply list_elem_of_bind in Hin as (a & Hin & Ha).
    apply list_elem_of_bind in Hin as (c & Hin & Hc).
    apply list_elem_of_bind in Hin as (m & Hin & Hm).
    apply list_elem_of_bind in Hin as (pt & Hin & Hpt).
    apply list_elem_of_bind in Hin as (pst & Hin & Hpst).
    apply list_elem_of_singleton in Hin as ->. simpl. by repeat split.
  - intros (Hpid & Ha & Hc & Hm & Hpt & Hpst & Hb & Hs & Hact & Hlat & Hlon).
    apply list_elem_of_bind. exists (alias task). split; [|done].
    apply list_elem_of_bind. exists (currency task). split; [|done].
    apply list_elem_of_bind. exists (measurement task). split; [|done].
    apply list_elem_of_bind. exists (property_type task). split; [|done].
    apply list_elem_of_bind. exists (property_subtype task). split; [|done].
    apply list_elem_of_singleton. destruct task. simpl in *. by subst.
Qed.

(** X9.  The tasks [generate_api_tasks] returns for a list of properties
    that is not empty are exactly the combinations of a property whose id
    is set with an alias, a currency, a measurement, a property type and a
    subtype listed for that type, the optional parameters left out; a
    property without id, or with id 0, gets no task. *)
Theorem generate_api_tasks_exact (self : CMASalesImporter) (properties : list record)
    (max_combinations_per_property : Z) (tasks : list task) :
  generate_api_tasks self properties max_combinations_per_property = Some tasks →
  ∀ task, task ∈ tasks ↔
    ∃ property_data, property_data ∈ properties
      ∧ truthy (get property_data "id") = true
      ∧ property_id task = get property_data "id"
      ∧ alias task ∈ aliases self ∧ currency task ∈ currencies self
      ∧ measurement task ∈ measurements self ∧ property_type task ∈ property_types self
      ∧ property_subtype task
          ∈ default [] (property_type_subtypes self !! property_type task)
      ∧ no_of_bedrooms task = VNone ∧ size_param task = VNone
      ∧ sales_activity_type task = VNone ∧ lat task = VNone ∧ lon task = VNone.
Proof.
  unfold generate_api_tasks. intros Htasks task.
  assert (tasks = properties ≫= (λ property_data,
            if truthy (get property_data "id")
            then tasks_of_property self (get property_data "id") else [])) as ->.
  { destruct properties; [discriminate|]. by injection Htasks as <-. }
  rewrite list_elem_of_bind. split.
  - intros (pd & Hin & Hpd). exists pd. split; [done|].
    destruct (truthy (get pd "id")); [|by apply elem_of_nil in Hin].
    split; [done|]. by apply elem_of_tasks_of_property.
  - intros (pd & Hpd & Hid & Hrest). exists pd. split; [|done].
    rewrite Hid. by apply elem_of_tasks_of_property.
Qed.

Lemma generate_api_tasks_exact_witness :
  let properties := [property_row 1; {[ "name" := VStr "no id" ]}] in
  let tasks := default [] (generate_api_tasks scenario_importer properties 2) in
  generate_api_tasks scenario_importer properties 2 = Some tasks
  ∧ ∀ task, task ∈ tasks ↔
    ∃ property_data, property_data ∈ properties
      ∧ truthy (get property_data "id") = true
      ∧ property_id task = get property_data "id"
      ∧ alias task ∈ aliases scenario_importer ∧ currency task ∈ currencies scenario_importer
      ∧ measurement task ∈ measurements scenario_importer
      ∧ property_type task ∈ property_types scenario_importer
      ∧ property_subtype task
          ∈ default [] (property_type_subtypes scenario_importer !! property_type task)
      ∧ no_of_bedrooms task = VNone ∧ size_param task = VNone
      ∧ sales_activity_type task = VNone ∧ lat task = VNone ∧ lon task = VNone.
Proof.
  split; [reflexivity|].
  apply (generate_api_tasks_exact scenario_importer
           [property_row 1; {[ "name" := VStr "no id" ]}] 2).
  reflexivity.
Defined.

End CmaSales.

(** ** The CMA2 rents importer: [src Extract/import_cma2_rents.py]

    As shipped the file does not parse: the [except] of line 265 does not
    stand at the indentation of its [try] (line 232).  The flusher,
    [_flusher_worker] and [_flush_batch_to_db] (lines 84-142), whose text
    is intact, is what is modelled here. *)

Module Cma2Rents.

(** *** The flusher thread: [_flusher_worker] (lines 84-122) *)

(** What [data_queue.get(timeout=1.0)] gives: [Empty], the [None] sentinel,
    or a record. *)
Inductive got := Empty | Sentinel | Item (r : record).

Record flusher := { batch : list record; batch_start_time : Q }.

(** One pass of the loop observes the item and two clock readings (the test
    of line 105 and the restart of the interval). *)
Record pass := { received : got; now : Q; now_flushed : Q }.

(** [_flush_batch_to_db(batch)] (lines 124-142) as the worker sees it. *)
Definition _flush_batch_to_db (batch : list record) : list (list record) :=
  match batch with
  | [] => []
  | _ => [batch]
  end.

Definition flusher_pass (batch_size : Z) (w : flusher) (p : pass)
  : flusher * list (list record) * control :=
  match received p with
  | Sentinel => (w, _flush_batch_to_db (batch w), Break)
  | Item r =>
      let batch' := batch w ++ [r] in
      if (batch_size <=? Z.of_nat (length batch'))%Z || Qgtb (now p - batch_start_time w) 5
      then ({| batch := []; batch_start_time := now_flushed p |},
            _flush_batch_to_db batch', Continue)
      else ({| batch := batch'; batch_start_time := batch_start_time w |}, [], Continue)
  | Empty =>
      match batch w with
      | [] => (w, [], Continue)
      | _ => ({| batch := []; batch_start_time := now_flushed p |},
              _flush_batch_to_db (batch w), Continue)
      end
  end.

Inductive worker_status := Running (w : flusher) | Finished.

Fixpoint flusher_run (batch_size : Z) (w : flusher) (passes : list pass)
  : worker_status * list (list record) :=
  match passes with
  | [] => (Running w, [])
  | p :: passes' =>
      let '(w', flushed, c) := flusher_pass batch_size w p in
      match c with
      | Break => (Finished, flushed)
      | Continue =>
          let '(st, later) := flusher_run batch_size w' passes' in
          (st, flushed ++ later)
      end
  end.

Definition _flusher_worker (batch_size : Z) (started : Q) (passes : list pass)
  : worker_status * list (list record) :=
  flusher_run batch_size {| batch := []; batch_start_time := started |} passes.

(** *** What the flusher does with the records it receives *)

Definition records_of (d : got) : list record :=
  match d with
  | Item r => [r]
  | _ => []
  end.

Lemma concat_flush_batch b : concat (_flush_batch_to_db b) = b.
Proof. destruct b; [done|]. simpl. by rewrite app_nil_r. Qed.

Lemma _flush_batch_to_db_nonempty b : Forall (λ batch, batch ≠ []) (_flush_batch_to_db b).
Proof. destruct b; [constructor|]. by apply Forall_singleton. Qed.

Lemma flusher_pass_hands_over batch_size w p w' flushed c :
  flusher_pass batch_size w p = (w', flushed, c) →
  Forall (λ batch, batch ≠ []) flushed
  ∧ concat flushed ++ (if c is Break then [] else batch w')
    = batch w ++ records_of (received p).
Proof.
  unfold flusher_pass. destruct (received p) as [| |r]; simpl.
  - destruct (batch w) as [|r b] eqn:Hb; intros [= <- <- <-]; simpl.
    + rewrite Hb. by split; [constructor|].
    + split; [by apply Forall_singleton|]. by rewrite !app_nil_r.
  - intros [= <- <- <-]. split; [apply _flush_batch_to_db_nonempty|].
    by rewrite concat_flush_batch.
  - destruct (_ || _); intros [= <- <- <-]; simpl.
    + split; [apply _flush_batch_to_db_nonempty|]. by rewrite concat_flush_batch, app_nil_r.
    + by split; [constructor|].
Qed.

(** X11.  The flusher of the CMA2 importer loses and repeats nothing:
    the batches it has handed to the insert, put together, and the records
    still in its batch are the records it started with followed by those
    it received, in order; a worker stopped by the sentinel has handed
    over every record it received; and no batch is empty. *)
Theorem cma2_flusher_hands_over_in_order (batch_size : Z) (w : flusher)
    (passes : list pass) (st : worker_status) (flushed : list (list record)) :
  flusher_run batch_size w passes = (st, flushed) →
  Forall (λ batch, batch ≠ []) flushed
  ∧ match st with
    | Running w' =>
        concat flushed ++ batch w' = batch w ++ concat (records_of ∘ received <$> passes)
    | Finished =>
        ∃ seen, seen `prefix_of` passes
                ∧ concat flushed = batch w ++ concat (records_of ∘ received <$> seen)
    end.
Proof.
  revert w st flushed. induction passes as [|p passes IH]; intros w st flushed; simpl.
  - intros [= <- <-]. split; [constructor|]. by rewrite !app_nil_r.
  - destruct (flusher_pass batch_size w p) as [[w' fl] c] eqn:Hpass.
    destruct (flusher_pass_hands_over _ _ _ _ _ _ Hpass) as [Hne Hkeep].
    destruct c.
    + destruct (flusher_run batch_size w' passes) as [st' later] eqn:Hrun.
      intros [= <- <-]. destruct (IH _ _ _ Hrun) as [Hne' Hst].
      split; [by apply Forall_app|].
      destruct st' as [w''|].
      * rewrite concat_app, <-app_assoc, Hst, app_assoc, Hkeep. by rewrite <-app_assoc.
      * destruct Hst as (seen & Hpre & Hcat). exists (p :: seen).
        split; [by apply prefix_cons|].
        rewrite concat_app, Hcat, app_assoc, Hkeep. simpl. by rewrite <-app_assoc.
    + intros [= <- <-]. split; [done|].
      exists [p]. split; [apply prefix_cons, prefix_nil|].
      rewrite app_nil_r in Hkeep. rewrite Hkeep. simpl. by rewrite app_nil_r.
Qed.

Lemma cma2_flusher_hands_over_in_order_witness :
  let r1 : record := {[ "property_id" := VInt 1 ]} in
  let r2 : record := {[ "property_id" := VInt 2 ]} in
  let r3 : record := {[ "property_id" := VInt 3 ]} in
  let passes :=
    [ {| received := Item r1; now := 1; now_flushed := 1 |};
      {| received := Item r2; now := 2; now_flushed := 2 |};
      {| received := Empty; now := 3; now_flushed := 3 |};
      {| received := Item r3; now := 4; now_flushed := 4 |};
      {| received := Sentinel; now := 5; now_flushed := 5 |} ] in
  let flushed := [ [r1; r2]; [r3] ] in
  Forall (λ batch, batch ≠ []) flushed
  ∧ ∃ seen, seen `prefix_of` passes
            ∧ concat flushed = [] ++ concat (records_of ∘ received <$> seen).
Proof.
  intros r1 r2 r3 passes flushed.
  apply (cma2_flusher_hands_over_in_order 2 {| batch := []; batch_start_time := 0 |} passes
           Finished flushed).
  reflexivity.
Defined.

End Cma2Rents.

(** ** The transaction rent importer: [src Extract/import_transaction_rent.py] *)

Module TransactionRent.
Import Database.

(** *** [AdaptiveRateLimiter] (lines 47-142)

    Rates and clock readings are the rational numbers the Python floats
    stand for; the rounding of binary64 arithmetic is not modelled. *)
Record AdaptiveRateLimiter := {
  current_rate : Q;
  min_rate : Q;
  max_rate : Q;
  last_adjustment : Q;
  adjustment_interval : Q;
  timeout_errors : list Q;     (* deque(maxlen=100) of clock readings *)
  success_requests : list Q;   (* deque(maxlen=100) of clock readings *)
  total_requests : nat;
  total_timeouts : nat;
  total_429_errors : nat
}.

(** [deque.append] with [maxlen]: the oldest entry leaves a full deque. *)
Definition deque_append (maxlen : nat) (d : list Q) (x : Q) : list Q :=
  let d' := d ++ [x] in drop (length d' - maxlen) d'.

(** [__init__], entered when the clock reads [started]. *)
Definition AdaptiveRateLimiter_init (initial_rate min_rate max_rate started : Q)
  : AdaptiveRateLimiter :=
  {| current_rate := initial_rate; min_rate := min_rate; max_rate := max_rate;
     last_adjustment := started; adjustment_interval := 30;
     timeout_errors := []; success_requests := [];
     total_requests := 0; total_timeouts := 0; total_429_errors := 0 |}.

Definition record_request (self : AdaptiveRateLimiter) (success : bool)
    (error_type : option string) (current_time : Q) : AdaptiveRateLimiter :=
  let timeout := bool_decide (error_type = Some "timeout") in
  let throttled := bool_decide (error_type = Some "429") in
  {| current_rate := current_rate self; min_rate := min_rate self;
     max_rate := max_rate self; last_adjustment := last_adjustment self;
     adjustment_interval := adjustment_interval self;
     timeout_errors :=
       if negb success && timeout
       then deque_append 100 (timeout_errors self) current_time
       else timeout_errors self;
     success_requests :=
       if success then deque_append 100 (success_requests self) current_time
       else success_requests self;
     total_requests := total_requests self + 1;
     total_timeouts :=
       if negb success && timeout then total_timeouts self + 1 else total_timeouts self;
     total_429_errors :=
       if negb success && negb timeout && throttled
       then total_429_errors self + 1 else total_429_errors self |}.

Definition should_adjust (self : AdaptiveRateLimiter) (now : Q) : bool :=
  Qgtb (now - last_adjustment self) (adjustment_interval self).

(** Lines 103-107: the timeouts of the last two minutes over the successes
    in the window plus those timeouts. *)
Definition recent_timeouts (self : AdaptiveRateLimiter) (current_time : Q) : nat :=
  length (List.filter (λ t, Qgtb 120 (current_time - t)) (timeout_errors self)).

Definition ratio (n d : nat) : Q := inject_Z (Z.of_nat n) / inject_Z (Z.of_nat (Nat.max d 1)).

Definition timeout_rate (self : AdaptiveRateLimiter) (current_time : Q) : Q :=
  ratio (recent_timeouts self current_time)
        (length (success_requests self) + recent_timeouts self current_time).

(** Lines 110-111: the 429 answers over all requests since the start. *)
Definition error_rate (self : AdaptiveRateLimiter) : Q :=
  ratio (total_429_errors self) (total_requests self).

Definition with_rate (self : AdaptiveRateLimiter) (rate current_time : Q)
  : AdaptiveRateLimiter :=
  {| current_rate := rate; min_rate := min_rate self; max_rate := max_rate self;
     last_adjustment := current_time; adjustment_interval := adjustment_interval self;
     timeout_errors := timeout_errors self; success_requests := success_requests self;
     total_requests := total_requests self; total_timeouts := total_timeouts self;
     total_429_errors := total_429_errors self |}.

(** Lines 93-130.  [now] is the clock read by [should_adjust],
    [current_time] the one read under the lock. *)
Definition adjust_rate (self : AdaptiveRateLimiter) (now current_time : Q)
  : AdaptiveRateLimiter :=
  if negb (should_adjust self now) then self
  else
    let timeout_rate := timeout_rate self current_time in
    let error_rate := error_rate self in
    if Qgtb timeout_rate 0.1 then
      with_rate self (py_max (min_rate self) (current_rate self * 0.7)) current_time
    else if Qgtb timeout_rate 0.05 then
      with_rate self (py_max (min_rate self) (current_rate self * 0.85)) current_time
    else if Qgtb 0.01 timeout_rate && Qgtb 0.02 error_rate then
      with_rate self (py_min (max_rate self) (current_rate self * 1.1)) current_time
    else
      with_rate self (current_rate self) current_time.

Local Ltac rate_cases :=
  repeat split; intros;
  repeat match goal with H : _ ∨ _ |- _ => destruct H end;
  try done; try (exfalso; lra); try lra; try (left; lra); try (by right).

(** C3, as the code has it.  For a rate state with
    [0 < min_rate <= current_rate <= max_rate] whose adjustment is due:
    above 10% timeouts the new rate is [max(min_rate, 0.7 * current_rate)],
    below the old one unless that was [min_rate] already; above 5% it is
    [max(min_rate, 0.85 * current_rate)], likewise; with less than 1%
    timeouts and less than 2% throttling it is
    [min(max_rate, 1.1 * current_rate)], above the old one unless that was
    [max_rate] already; otherwise it is unchanged; and it always lies in
    [min_rate, max_rate]. *)
Theorem adjust_rate_clamped (self : AdaptiveRateLimiter) (now current_time : Q) :
  should_adjust self now = true →
  (0 < min_rate self)%Q → (min_rate self <= current_rate self)%Q →
  (current_rate self <= max_rate self)%Q →
  let self' := adjust_rate self now current_time in
  let tr := timeout_rate self current_time in
  ((0.1 < tr)%Q →
     current_rate self' = py_max (min_rate self) (current_rate self * 0.7)
     ∧ ((min_rate self < current_rate self)%Q → (current_rate self' < current_rate self)%Q))
  ∧ ((0.05 < tr)%Q → (tr <= 0.1)%Q →
     current_rate self' = py_max (min_rate self) (current_rate self * 0.85)
     ∧ ((min_rate self < current_rate self)%Q → (current_rate self' < current_rate self)%Q))
  ∧ ((tr < 0.01)%Q → (error_rate self < 0.02)%Q →
     current_rate self' = py_min (max_rate self) (current_rate self * 1.1)
     ∧ ((current_rate self < max_rate self)%Q → (current_rate self < current_rate self')%Q))
  ∧ ((0.01 <= tr)%Q ∨ (0.02 <= error_rate self)%Q → (tr <= 0.05)%Q →
     current_rate self' = current_rate self)
  ∧ (min_rate self <= current_rate self')%Q ∧ (current_rate self' <= max_rate self)%Q
  ∧ (current_rate self' <= current_rate self ∨ (tr < 0.01)%Q)%Q.
Proof.
  intros Hdue Hpos Hmin Hmax self' tr. subst self'. unfold adjust_rate.
  rewrite Hdue. simpl. fold tr.
  destruct (Qgtb tr 0.1) eqn:H10.
  { apply Qgtb_true in H10. simpl.
    destruct (py_max_spec (min_rate self) (current_rate self * 0.7)) as (M1 & M2 & [E|E]);
      rewrite E in *; rate_cases. }
  apply Qgtb_false in H10.
  destruct (Qgtb tr 0.05) eqn:H5.
  { apply Qgtb_true in H5. simpl.
    destruct (py_max_spec (min_rate self) (current_rate self * 0.85)) as (M1 & M2 & [E|E]);
      rewrite E in *; rate_cases. }
  apply Qgtb_false in H5.
  destruct (Qgtb 0.01 tr) eqn:H1; [destruct (Qgtb 0.02 (error_rate self)) eqn:H2|]; simpl.
  - apply Qgtb_true in H1, H2.
    destruct (py_min_spec (max_rate self) (current_rate self * 1.1)) as (M1 & M2 & [E|E]);
      rewrite E in *; rate_cases.
  - apply Qgtb_true in H1. apply Qgtb_false in H2. rate_cases.
  - apply Qgtb_false in H1. rate_cases.
Qed.

(** A limiter with bounds [0.5, 5.0] that has seen one timeout, ten seconds
    after its start. *)
Definition limiter_after_timeout (initial_rate : Q) : AdaptiveRateLimiter :=
  record_request (AdaptiveRateLimiter_init initial_rate 0.5 5 0) false (Some "timeout") 10.

(** The same limiter after one success and no error. *)
Definition limiter_after_success (initial_rate : Q) : AdaptiveRateLimiter :=
  record_request (AdaptiveRateLimiter_init initial_rate 0.5 5 0) true None 10.

Lemma adjust_rate_clamped_witness :
  let self := limiter_after_timeout 2 in
  let self' := adjust_rate self 31 31 in
  let tr := timeout_rate self 31 in
  ((0.1 < tr)%Q →
     current_rate self' = py_max (min_rate self) (current_rate self * 0.7)
     ∧ ((min_rate self < current_rate self)%Q → (current_rate self' < current_rate self)%Q))
  ∧ ((0.05 < tr)%Q → (tr <= 0.1)%Q →
     current_rate self' = py_max (min_rate self) (current_rate self * 0.85)
     ∧ ((min_rate self < current_rate self)%Q → (current_rate self' < current_rate self)%Q))
  ∧ ((tr < 0.01)%Q → (error_rate self < 0.02)%Q →
     current_rate self' = py_min (max_rate self) (current_rate self * 1.1)
     ∧ ((current_rate self < max_rate self)%Q → (current_rate self < current_rate self')%Q))
  ∧ ((0.01 <= tr)%Q ∨ (0.02 <= error_rate self)%Q → (tr <= 0.05)%Q →
     current_rate self' = current_rate self)
  ∧ (min_rate self <= current_rate self')%Q ∧ (current_rate self' <= max_rate self)%Q
  ∧ (current_rate self' <= current_rate self ∨ (tr < 0.01)%Q)%Q.
Proof. apply (adjust_rate_clamped (limiter_after_timeout 2) 31 31); by vm_compute. Defined.

(** C3 as stated fails.  At [min_rate] a timeout rate of 100% leaves the
    rate where it is; at [max_rate] an error-free window leaves it where it
    is; and from the importer's own start (8 requests per second, bounds
    0.5 and 5.0) a timeout rate of 100% gives 5.6, above [max_rate], while
    an error-free window lowers the rate to 5.0. *)
Lemma adjust_rate_not_strict_nor_bounded :
  (should_adjust (limiter_after_timeout 0.5) 31 = true
   ∧ (0.1 < timeout_rate (limiter_after_timeout 0.5) 31)%Q
   ∧ (current_rate (adjust_rate (limiter_after_timeout 0.5) 31 31)
      == current_rate (limiter_after_timeout 0.5))%Q)
  ∧ (should_adjust (limiter_after_success 5) 31 = true
     ∧ (timeout_rate (limiter_after_success 5) 31 == 0)%Q
     ∧ (error_rate (limiter_after_success 5) == 0)%Q
     ∧ (current_rate (adjust_rate (limiter_after_success 5) 31 31)
        == current_rate (limiter_after_success 5))%Q)
  ∧ (should_adjust (limiter_after_timeout 8) 31 = true
     ∧ (0.1 < timeout_rate (limiter_after_timeout 8) 31)%Q
     ∧ (current_rate (adjust_rate (limiter_after_timeout 8) 31 31) == 5.6)%Q
     ∧ (max_rate (limiter_after_timeout 8) == 5)%Q)
  ∧ (timeout_rate (limiter_after_success 8) 31 == 0)%Q
  ∧ (current_rate (adjust_rate (limiter_after_success 8) 31 31) == 5)%Q
  ∧ (current_rate (limiter_after_success 8) == 8)%Q.
Proof. repeat split; by vm_compute. Qed.

(** *** Fetching a location: lines 384-450 *)

Record OptimizedProcessingConfig := {
  country_code : string;
  max_workers : nat;
  requests_per_second : Q;
  max_pages : Z;
  dry_run : bool;
  resume_scroll_id : value;
  locations_per_batch : Z;
  max_accumulated_records : Z;
  template_parallel_workers : nat;
  adaptive_rate_limiting : bool
}.

(** The defaults of the dataclass (lines 148-158). *)
Definition OptimizedProcessingConfig_default : OptimizedProcessingConfig :=
  {| country_code := "AE"; max_workers := 16; requests_per_second := 8; max_pages := 20;
     dry_run := false; resume_scroll_id := VNone; locations_per_batch := 2001;
     max_accumulated_records := 50000; template_parallel_workers := 4;
     adaptive_rate_limiting := true |}.

Record RequestTemplate := { measurement : string; template_id : string }.

(** The remote API: the answer to a request, [None] when the call raises. *)
Definition api := list (string * value) → option value.

Definition _build_api_params (location_id : value) (template : RequestTemplate)
    (page_number : Z) (scroll_id : value) : list (string * value) :=
  [ ("measurement", VStr (measurement template)); ("location", location_id);
    ("page_number", VInt page_number) ]
  ++ (if truthy scroll_id then [("scroll_id", scroll_id)] else []).

(** [if key in item: processed[key] = item[key]] for each of [keys]. *)
Definition copy_present (keys : list string) (item : list (string * value))
    (processed : record) : record :=
  foldl (λ acc key, match assoc item key with
                    | Some v => <[key := v]> acc
                    | None => acc
                    end) processed keys.

(** [processed.update({col: nested.get(key), ...})] when [item[name]] is a
    dict. *)
Definition update_from (item : list (string * value)) (name : string)
    (fields : list (string * string)) (processed : record) : record :=
  match assoc item name with
  | Some (VDict nested) =>
      foldl (λ acc '(col, key), <[col := default VNone (assoc nested key)]> acc)
            processed fields
  | _ => processed
  end.

(** [ResponseFlattener.flatten_response] (lines 205-264). *)
Definition flatten_response (item : list (string * value)) (location_id : value)
    (measurement : string) : record :=
  let processed : record :=
    list_to_map [ ("raw_data", VDict item); ("currency", VStr "aed");
                  ("measurement", VStr measurement) ] in
  let processed :=
    copy_present [ "date"; "size"; "price"; "end_date"; "start_date"; "size_land_int";
                   "price_per_size"; "transaction_type"; "transaction_version" ]
                 item processed in
  let processed :=
    update_from item "location"
      [ ("loc_city_id", "city_id"); ("loc_city_name", "city_name");
        ("loc_county_id", "county_id"); ("loc_county_name", "county_name");
        ("loc_district_id", "district_id"); ("loc_location_id", "location_id");
        ("loc_district_name", "district_name"); ("loc_location_name", "location_name");
        ("loc_municipal_area", "municipal_area") ] processed in
  let processed :=
    update_from item "property"
      [ ("prop_property_id", "property_id"); ("prop_property_name", "property_name") ]
      processed in
  let processed :=
    update_from item "attributes"
      [ ("attr_unit", "unit"); ("attr_floor", "floor"); ("attr_parking", "parking");
        ("attr_land_number", "land_number"); ("attr_no_of_rooms", "no_of_rooms");
        ("attr_balcony_area", "balcony_area"); ("attr_building_name", "building_name");
        ("attr_building_number", "building_number") ] processed in
  update_from item "property_type"
    [ ("prop_type_name", "type_name"); ("prop_subtype_name", "subtype_name") ] processed.

(** [_process_api_response] (lines 395-402): the dict items, flattened. *)
Definition _process_api_response (results : list value) (location_id : value)
    (measurement : string) : list record :=
  omap (λ item, match item with
                | VDict d => Some (flatten_response d location_id measurement)
                | _ => None
                end) results.

(** The state of the page loop of [_fetch_location_data]. *)
Record page_loop := {
  total_records : nat;
  current_scroll_id : value;
  page : Z;
  accumulated_data : list record;
  done_effects : list effect;
  api_failed : bool
}.

(** Lines 441-444: the cursor of the answer decides about a next page. *)
Definition next_page (payload : value) (s : page_loop) : page_loop * control :=
  let sid := get_if_dict payload "scroll_id" in
  ({| total_records := total_records s; current_scroll_id := sid; page := page s + 1;
      accumulated_data := accumulated_data s; done_effects := done_effects s;
      api_failed := api_failed s |},
   if truthy sid then Continue else Break).

(** One iteration of [for _ in range(self.config.max_pages)] (lines 418-444). *)
Definition fetch_page (config : OptimizedProcessingConfig) (call : api)
    (location_id : value) (template : RequestTemplate) (_ : nat) (s : page_loop)
  : page_loop * control :=
  let params := _build_api_params location_id template (page s) (current_scroll_id s) in
  let fetched := done_effects s ++ [Fetched params] in
  match call params with
  | None =>
      ({| total_records := total_records s; current_scroll_id := current_scroll_id s;
          page := page s; accumulated_data := accumulated_data s;
          done_effects := fetched; api_failed := true |}, Break)
  | Some payload =>
      match get_if_dict payload "results" with
      | VList (item :: items) =>
          let results := item :: items in
          let total := total_records s + length results in
          if dry_run config then
            next_page payload
              {| total_records := total; current_scroll_id := current_scroll_id s;
                 page := page s; accumulated_data := accumulated_data s;
                 done_effects := fetched; api_failed := api_failed s |}
          else
            let processed_data :=
              _process_api_response results location_id (measurement template) in
            let valid_data := filter has_price processed_data in
            let flattened := fetched ++ [Flattened results] in
            match valid_data with
            | [] =>
                ({| total_records := total; current_scroll_id := current_scroll_id s;
                    page := page s; accumulated_data := accumulated_data s;
                    done_effects := flattened; api_failed := api_failed s |}, Break)
            | _ =>
                next_page payload
                  {| total_records := total; current_scroll_id := current_scroll_id s;
                     page := page s; accumulated_data := accumulated_data s ++ valid_data;
                     done_effects := flattened; api_failed := api_failed s |}
            end
      | _ =>
          next_page payload
            {| total_records := total_records s; current_scroll_id := current_scroll_id s;
               page := page s; accumulated_data := accumulated_data s;
               done_effects := fetched; api_failed := api_failed s |}
      end
  end.

(** [_fetch_location_data] (lines 404-450): the loop state when the function
    returns; its result is
    [(total_records, accumulated_data, not api_failed)]. *)
Definition _fetch_location_data (config : OptimizedProcessingConfig) (call : api)
    (location_id : value) (template : RequestTemplate) : page_loop :=
  for_each (seq 0 (Z.to_nat (max_pages config)))
    (fetch_page config call location_id template)
    {| total_records := 0; current_scroll_id := resume_scroll_id config; page := 1;
       accumulated_data := []; done_effects := []; api_failed := false |}.

(** *** The run: lines 288-342 and 452-604

    The pools hand their work to threads; here the locations of a batch and
    the batches are taken in the order of their submission.  The limiter of
    the run only paces the calls and is left out. *)

Definition generate_all_parameter_combinations (measurements : list string)
  : list RequestTemplate :=
  (λ m, {| measurement := m; template_id := m |}) <$> measurements.

Record BatchRequest := {
  template : RequestTemplate;
  location_ids : list value;
  batch_number : nat   (* the number that ends [batch_id] *)
}.

(** Lines 311-342.  [range(0, len(location_ids), locations_per_batch)]
    raises [ValueError] for a step of zero ([None]) and is empty for a
    negative one. *)
Definition create_location_batches (config : OptimizedProcessingConfig)
    (location_ids : list value) (templates : list RequestTemplate)
  : option (list BatchRequest) :=
  match templates with
  | [] => Some []
  | _ =>
      if (locations_per_batch config =? 0)%Z then None
      else if (locations_per_batch config <? 0)%Z then Some []
      else Some (
        template ← templates;
        imap (λ i ids, {| template := template; location_ids := ids;
                          batch_number := i + 1 |})
             (chunks (Z.to_nat (locations_per_batch config)) location_ids))
  end.

(** What [_process_batch_request] returns, with the effects of its calls. *)
Record batch_result := {
  batch_records : nat;
  all_processed_data : list record;
  successful_locations : nat;
  failed_locations : nat;
  batch_effects : list effect
}.

(** Lines 452-501: a location that failed contributes its count and none
    of its data. *)
Definition _process_batch_request (config : OptimizedProcessingConfig) (call : api)
    (batch_request : BatchRequest) : batch_result :=
  foldl (λ acc location_id,
           let r := _fetch_location_data config call location_id (template batch_request) in
           {| batch_records := batch_records acc + total_records r;
              all_processed_data :=
                if api_failed r then all_processed_data acc
                else all_processed_data acc ++ accumulated_data r;
              successful_locations :=
                if api_failed r then successful_locations acc
                else successful_locations acc + 1;
              failed_locations :=
                if api_failed r then failed_locations acc + 1 else failed_locations acc;
              batch_effects := batch_effects acc ++ done_effects r |})
        {| batch_records := 0; all_processed_data := []; successful_locations := 0;
           failed_locations := 0; batch_effects := [] |}
        (location_ids batch_request).

(** The state of the loop over the batches, and the result of the run. *)
Record rent_run := {
  run_records : nat;
  successful_requests : nat;
  failed_requests : nat;
  all_accumulated_data : list record;
  transaction_raw_rent : list (list value);
  run_effects : list effect;
  run_ended : outcome
}.

(** Lines 558-584: one batch, and the insert once the threshold is reached;
    an exception of the insert is caught here, and the data stays
    accumulated. *)
Definition accumulate_batch (config : OptimizedProcessingConfig) (call : api)
    (copy_fault insert_fault : bool) (acc : rent_run) (batch_request : BatchRequest)
  : rent_run :=
  let b := _process_batch_request config call batch_request in
  let data := all_accumulated_data acc ++ all_processed_data b in
  let successful := successful_requests acc + successful_locations b in
  let failed := failed_requests acc + failed_locations b in
  if (max_accumulated_records config <=? Z.of_nat (length data))%Z && negb (dry_run config)
  then
    let w := insert_transaction_raw_rent_data copy_fault insert_fault
               (transaction_raw_rent acc) data in
    {| run_records := run_records acc + batch_records b;
       successful_requests := successful;
       failed_requests :=
         match ended w with
         | Returned => failed
         | Raised => failed + length (location_ids batch_request)
         end;
       all_accumulated_data := match ended w with Returned => [] | Raised => data end;
       transaction_raw_rent := stored w;
       run_effects := run_effects acc ++ batch_effects b ++ [Wrote "transaction_raw_rent" data];
       run_ended := Returned |}
  else
    {| run_records := run_records acc + batch_records b;
       successful_requests := successful;
       failed_requests := failed;
       all_accumulated_data := data;
       transaction_raw_rent := transaction_raw_rent acc;
       run_effects := run_effects acc ++ batch_effects b;
       run_ended := Returned |}.

(** Lines 503-604.  [locations] is what [_get_locations] returned (the empty
    list when the query failed). *)
Definition process_optimized_transaction_rent_batch (config : OptimizedProcessingConfig)
    (call : api) (copy_fault insert_fault : bool) (locations : list record)
    (table : list (list value)) : rent_run :=
  let start :=
    {| run_records := 0; successful_requests := 0; failed_requests := 0;
       all_accumulated_data := []; transaction_raw_rent := table; run_effects := [];
       run_ended := Returned |} in
  match locations with
  | [] => start
  | _ =>
      let ids := (λ loc, get loc "location_id") <$> locations in
      let templates := generate_all_parameter_combinations ["int"; "imp"] in
      match create_location_batches config ids templates with
      | None =>
          {| run_records := 0; successful_requests := 0; failed_requests := 0;
             all_accumulated_data := []; transaction_raw_rent := table; run_effects := [];
             run_ended := Raised |}
      | Some batch_requests =>
          let acc := foldl (accumulate_batch config call copy_fault insert_fault)
                           start batch_requests in
          match all_accumulated_data acc with
          | [] => acc
          | data =>
              if dry_run config then acc
              else
                let w := insert_transaction_raw_rent_data copy_fault insert_fault
                           (transaction_raw_rent acc) data in
                {| run_records := run_records acc;
                   successful_requests := successful_requests acc;
                   failed_requests := failed_requests acc;
                   all_accumulated_data := data;
                   transaction_raw_rent := stored w;
                   run_effects := run_effects acc ++ [Wrote "transaction_raw_rent" data];
                   run_ended := ended w |}
          end
      end
  end.

(** *** Properties of the fetch *)

Lemma copy_present_lookup keys item k : ∀ processed : record,
  copy_present keys item processed !! k
  = match (if bool_decide (k ∈ keys) then assoc item k else None) with
    | Some v => Some v
    | None => processed !! k
    end.
Proof.
  induction keys as [|key keys IH]; intros processed; [done|].
  unfold copy_present in *. simpl. rewrite IH.
  destruct (bool_decide (k ∈ keys)) eqn:Hin.
  - apply bool_decide_eq_true in Hin.
    rewrite (bool_decide_eq_true_2 (k ∈ key :: keys)) by (by apply list_elem_of_further).
    destruct (assoc item k) as [v|] eqn:Hk; [done|].
    destruct (assoc item key) as [v'|] eqn:Hkey; [|done].
    rewrite lookup_insert_ne; [done|]. intros ->. congruence.
  - apply bool_decide_eq_false in Hin.
    destruct (decide (k = key)) as [->|Hne].
    + rewrite (bool_decide_eq_true_2 (key ∈ key :: keys)) by apply list_elem_of_here.
      destruct (assoc item key) as [v'|]; [by rewrite lookup_insert_eq|done].
    + rewrite (bool_decide_eq_false_2 (k ∈ key :: keys)).
      * destruct (assoc item key) as [v'|]; [by rewrite lookup_insert_ne|done].
      * intros [->|?]%elem_of_cons; done.
Qed.

Lemma update_from_lookup item name fields k (processed : record) :
  k ∉ fields.*1 → update_from item name fields processed !! k = processed !! k.
Proof.
  unfold update_from. destruct (assoc item name) as [[| | | | | |nested]|]; try done.
  revert processed. induction fields as [|[col key] fields IH]; intros processed Hk; [done|].
  simpl. rewrite IH.
  - apply lookup_insert_ne. intros ->. apply Hk. simpl. apply list_elem_of_here.
  - intros Hin. apply Hk. simpl. by apply list_elem_of_further.
Qed.

(** The flattened record carries the price of its item. *)
Lemma flatten_response_price item location_id measurement :
  get (flatten_response item location_id measurement) "price"
  = default VNone (assoc item "price").
Proof.
  unfold get, flatten_response.
  rewrite !update_from_lookup by (by apply (bool_decide_eq_false_1 _); vm_compute).
  rewrite copy_present_lookup.
  rewrite (bool_decide_eq_true_2 _) by (by apply (bool_decide_eq_true_1 _); vm_compute).
  by destruct (assoc item "price").
Qed.

(** A record is the flattening of a fetched item whose price is not null. *)
Definition from_priced_item (results : list value) (location_id : value)
    (measurement : string) (r : record) : Prop :=
  ∃ item, VDict item ∈ results
          ∧ default VNone (assoc item "price") ≠ VNone
          ∧ r = flatten_response item location_id measurement.

Lemma valid_data_priced results location_id measurement r :
  r ∈ filter has_price (_process_api_response results location_id measurement) →
  has_price r ∧ from_priced_item results location_id measurement r.
Proof.
  intros [Hp Hin]%list_elem_of_filter. split; [done|].
  unfold _process_api_response in Hin.
  apply list_elem_of_omap in Hin as (v & Hv & Hr).
  destruct v as [| | | | | |item]; try discriminate. injection Hr as <-.
  exists item. split; [done|]. split; [|done].
  unfold has_price in Hp. by rewrite flatten_response_price in Hp.
Qed.

(** Whatever the mode, every accumulated record has a price. *)
Lemma fetch_page_priced config call location_id template n s :
  Forall has_price (accumulated_data s) →
  Forall has_price (accumulated_data (fetch_page config call location_id template n s).1).
Proof.
  intros Hacc. unfold fetch_page, next_page.
  destruct (call _) as [payload|]; [|done].
  destruct (get_if_dict payload "results") as [| | | | |[|item items]|]; try done.
  destruct (dry_run config); [done|].
  destruct (filter has_price _) as [|r valid] eqn:Hvalid; [done|]. simpl.
  apply Forall_app. split; [done|]. rewrite <-Hvalid.
  apply Forall_forall. intros x Hx. by apply list_elem_of_filter in Hx as [? _].
Qed.

Lemma _fetch_location_data_priced config call location_id template :
  Forall has_price (accumulated_data (_fetch_location_data config call location_id template)).
Proof.
  unfold _fetch_location_data.
  apply (for_each_invariant (λ s, Forall has_price (accumulated_data s))); [done|].
  intros n s. apply fetch_page_priced.
Qed.

(** In a dry run a fetch only calls the API: nothing is flattened and
    nothing is accumulated. *)
Lemma fetch_page_dry config call location_id template n s :
  dry_run config = true →
  Forall (λ e, is_fetch e = true) (done_effects s) ∧ accumulated_data s = [] →
  let s' := (fetch_page config call location_id template n s).1 in
  Forall (λ e, is_fetch e = true) (done_effects s') ∧ accumulated_data s' = [].
Proof.
  intros Hdry [Heff Hacc]. unfold fetch_page, next_page. rewrite Hdry.
  assert (Forall (λ e, is_fetch e = true)
            (done_effects s ++ [Fetched (_build_api_params location_id template (page s)
                                           (current_scroll_id s))])) as Heff'.
  { apply Forall_app. split; [done|]. by repeat constructor. }
  destruct (call _) as [payload|]; [|done].
  by destruct (get_if_dict payload "results") as [| | | | |[|item items]|].
Qed.

Lemma _fetch_location_data_dry config call location_id template :
  dry_run config = true →
  let r := _fetch_location_data config call location_id template in
  Forall (λ e, is_fetch e = true) (done_effects r) ∧ accumulated_data r = [].
Proof.
  intros Hdry. unfold _fetch_location_data.
  apply (for_each_invariant
           (λ s, Forall (λ e, is_fetch e = true) (done_effects s) ∧ accumulated_data s = []));
    [done|].
  intros n s. by apply fetch_page_dry.
Qed.

(** Outside a dry run, a page with results none of which has a price ends
    the loop, whatever cursor the answer carries. *)
Lemma fetch_page_unpriced_breaks config call location_id template n s payload item items :
  dry_run config = false →
  call (_build_api_params location_id template (page s) (current_scroll_id s))
    = Some payload →
  get_if_dict payload "results" = VList (item :: items) →
  filter has_price (_process_api_response (item :: items) location_id (measurement template))
    = [] →
  (fetch_page config call location_id template n s).2 = Break.
Proof.
  intros Hdry Hcall Hres Hvalid. unfold fetch_page.
  by rewrite Hcall, Hres, Hdry, Hvalid.
Qed.

(** *** Properties of the run *)

(** A fetch writes nothing. *)
Lemma _fetch_location_data_no_write config call location_id template :
  Forall (λ e, is_write e = false)
         (done_effects (_fetch_location_data config call location_id template)).
Proof.
  unfold _fetch_location_data.
  apply (for_each_invariant (λ s, Forall (λ e, is_write e = false) (done_effects s))); [done|].
  intros n s Hs. unfold fetch_page, next_page.
  assert (Forall (λ e, is_write e = false)
            (done_effects s ++ [Fetched (_build_api_params location_id template (page s)
                                           (current_scroll_id s))])) as Hs'.
  { apply Forall_app. split; [done|]. by repeat constructor. }
  destruct (call _) as [payload|]; [|done].
  destruct (get_if_dict payload "results") as [| | | | |[|item items]|]; try done.
  destruct (dry_run config); [done|].
  assert (Forall (λ e, is_write e = false)
            ((done_effects s ++ [Fetched (_build_api_params location_id template (page s)
                                            (current_scroll_id s))])
             ++ [Flattened (item :: items)])) as Hs''.
  { apply Forall_app. split; [done|]. by repeat constructor. }
  by destruct (filter has_price _).
Qed.

Lemma writes_priced_no_write effects :
  Forall (λ e, is_write e = false) effects → writes_priced effects.
Proof.
  unfold writes_priced. intros H. eapply Forall_impl; [exact H|].
  by intros [?|?|? ?] ?.
Qed.

Lemma _process_batch_request_priced config call batch_request :
  let b := _process_batch_request config call batch_request in
  Forall has_price (all_processed_data b) ∧ Forall (λ e, is_write e = false) (batch_effects b).
Proof.
  unfold _process_batch_request.
  apply (foldl_invariant
           (λ b, Forall has_price (all_processed_data b)
                 ∧ Forall (λ e, is_write e = false) (batch_effects b))); [done|].
  intros acc location_id [Hdata Heff]. simpl. split.
  - destruct (api_failed _); [done|]. apply Forall_app. split; [done|].
    apply _fetch_location_data_priced.
  - apply Forall_app. split; [done|]. apply _fetch_location_data_no_write.
Qed.

Lemma _process_batch_request_dry config call batch_request :
  dry_run config = true →
  let b := _process_batch_request config call batch_request in
  all_processed_data b = [] ∧ Forall (λ e, is_fetch e = true) (batch_effects b).
Proof.
  intros Hdry. unfold _process_batch_request.
  apply (foldl_invariant
           (λ b, all_processed_data b = []
                 ∧ Forall (λ e, is_fetch e = true) (batch_effects b))); [done|].
  intros acc location_id [Hdata Heff]. simpl.
  destruct (_fetch_location_data_dry config call location_id (template batch_request) Hdry)
    as [Hf Ha].
  split.
  - destruct (api_failed _); [done|]. by rewrite Hdata, Ha.
  - by apply Forall_app.
Qed.

(** Whatever the mode, the run hands only records with a price to the
    store. *)
Lemma rent_run_writes_priced config call copy_fault insert_fault locations table :
  writes_priced
    (run_effects (process_optimized_transaction_rent_batch config call copy_fault
                    insert_fault locations table)).
Proof.
  unfold process_optimized_transaction_rent_batch.
  destruct locations as [|loc locations]; [constructor|].
  destruct (create_location_batches _ _ _) as [batch_requests|]; [|constructor].
  match goal with |- context [foldl ?f ?s0 batch_requests] =>
    assert (Forall has_price (all_accumulated_data (foldl f s0 batch_requests))
            ∧ writes_priced (run_effects (foldl f s0 batch_requests))) as [Hdata Heff]
  end.
  { apply (foldl_invariant
             (λ acc, Forall has_price (all_accumulated_data acc)
                     ∧ writes_priced (run_effects acc))); [by split; constructor|].
    intros acc batch_request [Hdata Heff]. unfold accumulate_batch.
    destruct (_process_batch_request_priced config call batch_request) as [Hb Hbe].
    assert (Forall has_price (all_accumulated_data acc
              ++ all_processed_data (_process_batch_request config call batch_request)))
      as Hall by by apply Forall_app.
    apply writes_priced_no_write in Hbe.
    destruct (_ && _); simpl.
    - split; [by destruct (ended _)|].
      apply Forall_app. split; [done|]. apply Forall_app. split; [done|].
      by apply Forall_singleton.
    - split; [done|]. by apply Forall_app. }
  destruct (all_accumulated_data _) as [|r data] eqn:Hacc; [done|].
  destruct (dry_run config); [done|]. simpl.
  apply Forall_app. split; [done|]. by apply Forall_singleton.
Qed.

(** A dry run leaves the table as it is; it calls the API and does nothing
    else. *)
Lemma rent_dry_run config call copy_fault insert_fault locations table :
  dry_run config = true →
  let r := process_optimized_transaction_rent_batch config call copy_fault insert_fault
             locations table in
  transaction_raw_rent r = table ∧ Forall (λ e, is_fetch e = true) (run_effects r).
Proof.
  intros Hdry. unfold process_optimized_transaction_rent_batch.
  destruct locations as [|loc locations]; [done|].
  destruct (create_location_batches _ _ _) as [batch_requests|]; [|done].
  match goal with |- context [foldl ?f ?s0 batch_requests] =>
    assert (transaction_raw_rent (foldl f s0 batch_requests) = table
            ∧ Forall (λ e, is_fetch e = true) (run_effects (foldl f s0 batch_requests)))
      as [Ht Heff]
  end.
  { apply (foldl_invariant
             (λ acc, transaction_raw_rent acc = table
                     ∧ Forall (λ e, is_fetch e = true) (run_effects acc))); [done|].
    intros acc batch_request [Ht Heff]. unfold accumulate_batch.
    destruct (_process_batch_request_dry config call batch_request Hdry) as [_ Hbe].
    rewrite Hdry, andb_false_r. simpl. split; [done|]. by apply Forall_app. }
  cbv zeta. destruct (all_accumulated_data _) as [|r data]; [done|]. by rewrite Hdry.
Qed.

Lemma unpriced_page_has_no_valid_data results location_id measurement :
  Forall (λ item, get_if_dict item "price" = VNone) results →
  filter has_price (_process_api_response results location_id measurement) = [].
Proof.
  intros Hall. induction results as [|item results IH]; [done|].
  inversion Hall as [|? ? Hitem Hrest]; subst. specialize (IH Hrest).
  unfold _process_api_response in *. simpl.
  destruct item as [| | | | | |d]; try done. simpl.
  rewrite filter_cons_False; [done|].
  unfold has_price. rewrite flatten_response_price. by intros [].
Qed.

(** *** Sample servers *)

(** A result element that has a price. *)
Definition sample_item (i : Z) : value :=
  VDict [ ("date", VStr "2025-06-18"); ("size", VFloat 100); ("price", VInt (1000 + i));
          ("location", VDict [("location_id", VInt 7); ("city_name", VStr "Dubai")]) ].

(** A result element whose price is null. *)
Definition unpriced_item : value :=
  VDict [ ("date", VStr "2025-06-18"); ("size", VFloat 100); ("price", VNone) ].

Definition page_number (params : list (string * value)) : Z :=
  match assoc params "page_number" with
  | Some (VInt p) => p
  | _ => 1
  end.

(** Scenario B: a server whose pages hold 50, 50 and 0 results (every later
    page is empty as well) and which, like a scroll API, echoes its cursor
    with every answer. *)
Definition scrolling_server : api := λ params,
  let items :=
    if (page_number params =? 1)%Z then (λ i, sample_item (Z.of_nat i)) <$> seq 0 50
    else if (page_number params =? 2)%Z then (λ i, sample_item (Z.of_nat i)) <$> seq 50 50
    else [] in
  Some (VDict [("results", VList items); ("scroll_id", VStr "scroll-1")]).

(** A server every page of which holds one result without a price, and a
    cursor. *)
Definition unpriced_server : api := λ params,
  Some (VDict [("results", VList [unpriced_item]); ("scroll_id", VStr "scroll-1")]).

Definition int_template : RequestTemplate := {| measurement := "int"; template_id := "int" |}.

Definition dry_config : OptimizedProcessingConfig :=
  {| country_code := "AE"; max_workers := 16; requests_per_second := 8; max_pages := 20;
     dry_run := true; resume_scroll_id := VNone; locations_per_batch := 2001;
     max_accumulated_records := 50000; template_parallel_workers := 4;
     adaptive_rate_limiting := true |}.

(** The number of API calls among the effects. *)
Definition requests (effects : list effect) : nat := length (List.filter is_fetch effects).

(** C5, evaluated on [_fetch_location_data]: against the server of
    Scenario B and with the default bound of 20 pages, the rent importer
    accumulates the 100 records of the first two pages and then goes on
    past the empty third page: it issues 20 requests, not 3. *)
Theorem rent_pagination_passes_empty_page :
  let r := _fetch_location_data OptimizedProcessingConfig_default scrolling_server
             (VInt 7) int_template in
  total_records r = 100 ∧ length (accumulated_data r) = 100
  ∧ requests (done_effects r) = 20 ∧ page r = 21%Z.
Proof. by vm_compute. Qed.

(** C10 as stated fails in a dry run: the first page holds a result, none
    with a price, and the rent importer follows the cursor all the same,
    up to the bound of 20 pages; outside a dry run it stops after the
    first page. *)
Lemma rent_dry_run_follows_cursor_past_unpriced_page :
  requests (done_effects (_fetch_location_data dry_config unpriced_server (VInt 7)
                            int_template)) = 20
  ∧ requests (done_effects (_fetch_location_data OptimizedProcessingConfig_default
                              unpriced_server (VInt 7) int_template)) = 1.
Proof. by vm_compute. Qed.

(** A server with a single page: one result with a price, no cursor. *)
Definition single_page_server : api := λ params,
  Some (VDict [("results", VList [sample_item 0]); ("scroll_id", VNone)]).

(** A row of [SELECT location_id FROM location]. *)
Definition location_row (id : Z) : record := {[ "location_id" := VInt id ]}.

(** *** The limiter over a run *)

(** What happens to the limiter in the course of a run: [record_request]
    and [adjust_rate], with the clock readings of each call. *)
Inductive limiter_event :=
| Recorded (success : bool) (error_type : option string) (current_time : Q)
| Adjusted (now current_time : Q).

Definition is_recorded (e : limiter_event) : bool :=
  if e is Recorded _ _ _ then true else false.

Definition limiter_step (self : AdaptiveRateLimiter) (e : limiter_event)
  : AdaptiveRateLimiter :=
  match e with
  | Recorded success error_type current_time =>
      record_request self success error_type current_time
  | Adjusted now current_time => adjust_rate self now current_time
  end.

Definition limiter_run (self : AdaptiveRateLimiter) (events : list limiter_event)
  : AdaptiveRateLimiter :=
  foldl limiter_step self events.

(** The rate lies within the bounds, the windows hold at most 100 clock
    readings, and no more errors are counted than requests. *)
Definition limiter_ok (self : AdaptiveRateLimiter) : Prop :=
  (0 <= min_rate self)%Q
  ∧ (min_rate self <= current_rate self)%Q ∧ (current_rate self <= max_rate self)%Q
  ∧ length (timeout_errors self) ≤ 100 ∧ length (success_requests self) ≤ 100
  ∧ total_timeouts self + total_429_errors self ≤ total_requests self.

Lemma deque_append_length maxlen d x :
  length d ≤ maxlen → 0 < maxlen → length (deque_append maxlen d x) ≤ maxlen.
Proof.
  intros Hd Hpos. unfold deque_append. rewrite length_drop, length_app. simpl. lia.
Qed.

Lemma record_request_ok self success error_type current_time :
  limiter_ok self → limiter_ok (record_request self success error_type current_time).
Proof.
  intros (H0 & Hmin & Hmax & Ht & Hs & Hcount). unfold limiter_ok, record_request. simpl.
  split_and!; try done.
  - destruct (negb success && _); [apply deque_append_length; lia|done].
  - destruct success; [apply deque_append_length; lia|done].
  - destruct success, (bool_decide (error_type = Some "timeout")),
      (bool_decide (error_type = Some "429")); simpl; lia.
Qed.

Lemma adjust_rate_ok self now current_time :
  limiter_ok self → limiter_ok (adjust_rate self now current_time).
Proof.
  intros (H0 & Hmin & Hmax & Ht & Hs & Hcount). unfold limiter_ok, adjust_rate.
  destruct (negb (should_adjust self now)); [done|].
  pose proof (py_max_spec (min_rate self) (current_rate self * 0.7)) as (A1 & A2 & A3).
  pose proof (py_max_spec (min_rate self) (current_rate self * 0.85)) as (B1 & B2 & B3).
  pose proof (py_min_spec (max_rate self) (current_rate self * 1.1)) as (C1 & C2 & C3).
  destruct (Qgtb (timeout_rate self current_time) 0.1); simpl.
  { split_and!; try done. destruct A3 as [-> | ->]; lra. }
  destruct (Qgtb (timeout_rate self current_time) 0.05); simpl.
  { split_and!; try done. destruct B3 as [-> | ->]; lra. }
  destruct (_ && _); simpl; [|done].
  split_and!; try done. destruct C3 as [-> | ->]; lra.
Qed.

Lemma limiter_step_fixed self e :
  min_rate (limiter_step self e) = min_rate self
  ∧ max_rate (limiter_step self e) = max_rate self
  ∧ total_requests (limiter_step self e)
    = total_requests self + (if is_recorded e then 1 else 0).
Proof.
  destruct e as [success error_type current_time|now current_time]; simpl.
  - split_and!; done.
  - unfold adjust_rate. destruct (negb _); [by rewrite Nat.add_0_r|].
    destruct (Qgtb _ 0.1); [by rewrite Nat.add_0_r|].
    destruct (Qgtb _ 0.05); [by rewrite Nat.add_0_r|].
    destruct (_ && _); by rewrite Nat.add_0_r.
Qed.

(** X12.  A limiter that starts with its rate within its bounds (and a
    lower bound that is not negative) keeps it there through every
    sequence of recorded requests and adjustments; its bounds never change,
    its two windows never hold more than 100 readings, it never counts
    more errors than requests, and it counts exactly the requests that
    were recorded. *)
Theorem limiter_stays_within_bounds (self : AdaptiveRateLimiter)
    (events : list limiter_event) :
  limiter_ok self →
  let self' := limiter_run self events in
  limiter_ok self'
  ∧ min_rate self' = min_rate self ∧ max_rate self' = max_rate self
  ∧ total_requests self' = total_requests self + length (List.filter is_recorded events).
Proof.
  unfold limiter_run. revert self. induction events as [|e events IH]; intros self Hok; simpl.
  - by rewrite Nat.add_0_r.
  - destruct (limiter_step_fixed self e) as (Hmin & Hmax & Htotal).
    assert (limiter_ok (limiter_step self e)) as Hok'.
    { destruct e; [by apply record_request_ok|by apply adjust_rate_ok]. }
    destruct (IH _ Hok') as (Hok'' & Hmin' & Hmax' & Htotal').
    split; [done|]. rewrite Hmin', Hmax', Htotal', Hmin, Hmax, Htotal.
    split; [done|]. split; [done|]. destruct (is_recorded e); simpl; lia.
Qed.

Lemma limiter_stays_within_bounds_witness :
  let self := AdaptiveRateLimiter_init 2 0.5 5 0 in
  let events := [ Recorded false (Some "timeout") 10; Adjusted 31 31;
                  Recorded true None 32; Adjusted 62 62 ] in
  let self' := limiter_run self events in
  limiter_ok self'
  ∧ min_rate self' = min_rate self ∧ max_rate self' = max_rate self
  ∧ total_requests self' = total_requests self + length (List.filter is_recorded events).
Proof.
  apply (limiter_stays_within_bounds (AdaptiveRateLimiter_init 2 0.5 5 0)).
  unfold limiter_ok. simpl. split_and!; try lia; by vm_compute.
Defined.

Lemma ratio_bounds n d : n ≤ d → (0 <= ratio n d)%Q ∧ (ratio n d <= 1)%Q.
Proof.
  intros Hle. unfold ratio.
  assert (0 < inject_Z (Z.of_nat (d `max` 1)))%Q as Hpos.
  { change 0%Q with (inject_Z 0). rewrite <-Zlt_Qlt. lia. }
  assert (0 <= inject_Z (Z.of_nat n))%Q as Hn.
  { change 0%Q with (inject_Z 0). rewrite <-Zle_Qle. lia. }
  assert (inject_Z (Z.of_nat n) <= inject_Z (Z.of_nat (d `max` 1)))%Q as Hnd.
  { rewrite <-Zle_Qle. lia. }
  split.
  - apply Qle_shift_div_l; [done|]. lra.
  - apply Qle_shift_div_r; [done|]. lra.
Qed.

(** X13.  The two rates [adjust_rate] decides on are proportions: the
    timeout rate always lies between 0 and 1, and so does the 429 rate of a
    limiter that counts no more errors than requests. *)
Theorem limiter_rates_are_proportions (self : AdaptiveRateLimiter) (current_time : Q) :
  (0 <= timeout_rate self current_time)%Q ∧ (timeout_rate self current_time <= 1)%Q
  ∧ (total_timeouts self + total_429_errors self ≤ total_requests self →
     (0 <= error_rate self)%Q ∧ (error_rate self <= 1)%Q).
Proof.
  split_and!.
  - apply ratio_bounds. lia.
  - apply ratio_bounds. lia.
  - intros Hcount. apply ratio_bounds. lia.
Qed.

(** *** How many requests a fetch issues *)

Lemma requests_app effects effects' :
  requests (effects ++ effects') = requests effects + requests effects'.
Proof. unfold requests. by rewrite List.filter_app, length_app. Qed.

Lemma fetch_page_requests config call location_id template n s :
  requests (done_effects (fetch_page config call location_id template n s).1)
  = requests (done_effects s) + 1.
Proof.
  unfold fetch_page, next_page.
  destruct (call _) as [payload|]; simpl; [|by rewrite requests_app].
  destruct (get_if_dict payload "results") as [| | | | |[|item items]|]; simpl;
    try by rewrite requests_app.
  destruct (dry_run config); simpl; [by rewrite requests_app|].
  destruct (filter has_price _); simpl; rewrite !requests_app; unfold requests; simpl; lia.
Qed.

Lemma _fetch_location_data_requests (config : OptimizedProcessingConfig) (call : api)
    (location_id : value) (template : RequestTemplate) :
  let r := _fetch_location_data config call location_id template in
  requests (done_effects r) ≤ Z.to_nat (max_pages config)
  ∧ ((0 < max_pages config)%Z → 1 ≤ requests (done_effects r)).
Proof.
  unfold _fetch_location_data. split.
  - etrans; [apply (for_each_bounded (λ s, requests (done_effects s)))|].
    + intros n s. by rewrite fetch_page_requests.
    + by rewrite length_seq.
  - intros Hpos. destruct (Z.to_nat (max_pages config)) as [|n] eqn:Hn; [lia|].
    cbn [seq for_each].
    match goal with |- context [fetch_page ?c ?a ?l ?t 0 ?s0] =>
      pose proof (fetch_page_requests c a l t 0 s0) as Hfirst;
      destruct (fetch_page c a l t 0 s0) as [s1 ctl]
    end.
    simpl in Hfirst.
    assert (∀ xs s, requests (done_effects s) ≤
              requests (done_effects (for_each xs (fetch_page config call location_id
                                                     template) s))) as Hmono.
    { induction xs as [|x xs IH]; intros s; simpl; [done|].
      pose proof (fetch_page_requests config call location_id template x s) as Hx.
      destruct (fetch_page config call location_id template x s) as [s' c'].
      simpl in Hx. destruct c'; [|lia]. specialize (IH s'). lia. }
    destruct ctl; [|lia]. specialize (Hmono (seq 1 n) s1). lia.
Qed.

(** X14.  One location and one template never cost more than
    [max_pages] requests, in a dry run or not, whatever the API answers;
    and with [max_pages] at 1 or more the first request is always made. *)
Theorem fetch_location_within_max_pages (config : OptimizedProcessingConfig) (call : api)
    (location_id : value) (template : RequestTemplate) :
  let r := _fetch_location_data config call location_id template in
  requests (done_effects r) ≤ Z.to_nat (max_pages config)
  ∧ ((0 < max_pages config)%Z → 1 ≤ requests (done_effects r)).
Proof. apply _fetch_location_data_requests. Qed.

(** *** The counters of a batch and of a run *)

Lemma _process_batch_request_counts (config : OptimizedProcessingConfig) (call : api)
    (batch_request : BatchRequest) :
  let b := _process_batch_request config call batch_request in
  successful_locations b + failed_locations b = length (location_ids batch_request)
  ∧ requests (batch_effects b)
    ≤ length (location_ids batch_request) * Z.to_nat (max_pages config)
  ∧ Forall (λ e, is_write e = false) (batch_effects b).
Proof.
  unfold _process_batch_request.
  generalize (location_ids batch_request). intros ids.
  assert (∀ acc,
    let b := foldl (λ acc location_id,
           let r := _fetch_location_data config call location_id (template batch_request) in
           {| batch_records := batch_records acc + total_records r;
              all_processed_data :=
                if api_failed r then all_processed_data acc
                else all_processed_data acc ++ accumulated_data r;
              successful_locations :=
                if api_failed r then successful_locations acc
                else successful_locations acc + 1;
              failed_locations :=
                if api_failed r then failed_locations acc + 1 else failed_locations acc;
              batch_effects := batch_effects acc ++ done_effects r |}) acc ids in
    successful_locations b + failed_locations b
    = successful_locations acc + failed_locations acc + length ids
    ∧ requests (batch_effects b)
      ≤ requests (batch_effects acc) + length ids * Z.to_nat (max_pages config)
    ∧ (Forall (λ e, is_write e = false) (batch_effects acc) →
       Forall (λ e, is_write e = false) (batch_effects b))) as Hfold.
  { induction ids as [|location_id ids IH]; intros acc; simpl; [split_and!; [lia|lia|done]|].
    match goal with |- context [foldl ?f ?acc' ids] =>
      destruct (IH acc') as (Hc & Hr & Hw)
    end.
    simpl in Hc, Hr, Hw.
    destruct (_fetch_location_data_requests config call location_id
                (template batch_request)) as [Hmax _].
    split_and!.
    - rewrite Hc. destruct (api_failed _); lia.
    - etrans; [exact Hr|]. rewrite requests_app. lia.
    - intros Hacc. apply Hw. apply Forall_app. split; [done|].
      apply _fetch_location_data_no_write. }
  destruct (Hfold {| batch_records := 0; all_processed_data := []; successful_locations := 0;
                     failed_locations := 0; batch_effects := [] |}) as (Hc & Hr & Hw).
  split_and!; [exact Hc|exact Hr|by apply Hw].
Qed.

(** X15.  [_process_batch_request] counts every location of its batch
    once, as successful or as failed; it issues no more than [max_pages]
    requests for each of them and writes nothing. *)
Theorem batch_counts_every_location (config : OptimizedProcessingConfig) (call : api)
    (batch_request : BatchRequest) :
  let b := _process_batch_request config call batch_request in
  successful_locations b + failed_locations b = length (location_ids batch_request)
  ∧ requests (batch_effects b)
    ≤ length (location_ids batch_request) * Z.to_nat (max_pages config)
  ∧ Forall (λ e, is_write e = false) (batch_effects b).
Proof. apply _process_batch_request_counts. Qed.

(** *** The batches of a run *)

Lemma location_ids_imap (template : RequestTemplate) (cs : list (list value)) : ∀ k,
  location_ids <$> imap (λ i ids, {| template := template; location_ids := ids;
                                     batch_number := k + i + 1 |}) cs = cs.
Proof.
  induction cs as [|c cs IH]; intros k; [done|]. simpl. f_equal.
  rewrite <-(IH (S k)) at 2. f_equal. apply imap_ext. intros i x _. simpl. f_equal. lia.
Qed.

Lemma batches_of_template_ok (templates : list RequestTemplate) (template : RequestTemplate)
    n (cs : list (list value)) : ∀ k,
  template ∈ templates → Forall (λ c : list value, 0 < length c ≤ n) cs →
  Forall (λ b, 0 < length (location_ids b) ≤ n ∧ TransactionRent.template b ∈ templates
               ∧ 1 ≤ batch_number b)
         (imap (λ i ids, {| template := template; location_ids := ids;
                            batch_number := k + i + 1 |}) cs).
Proof.
  intros k Hin Hall. revert k. induction Hall as [|c cs Hc _ IH]; intros k; [constructor|].
  simpl. constructor; [simpl; split_and!; [lia|lia|done|lia]|].
  specialize (IH (S k)). eapply Forall_impl; [|by intros b Hb; exact Hb].
  erewrite imap_ext; [exact IH|]. intros i x _. simpl. f_equal. lia.
Qed.

Lemma create_location_batches_Some (config : OptimizedProcessingConfig)
    (location_ids' : list value) (templates : list RequestTemplate) :
  (0 < locations_per_batch config)%Z →
  ∃ batches,
    create_location_batches config location_ids' templates = Some batches
    ∧ concat (location_ids <$> batches) = (templates ≫= λ _, location_ids')
    ∧ Forall (λ b, 0 < length (location_ids b) ≤ Z.to_nat (locations_per_batch config)
                   ∧ template b ∈ templates ∧ 1 ≤ batch_number b) batches.
Proof.
  intros Hpos. unfold create_location_batches.
  destruct templates as [|template templates]; [by exists []|].
  destruct (locations_per_batch config =? 0)%Z eqn:H0; [lia|].
  destruct (locations_per_batch config <? 0)%Z eqn:Hneg; [lia|].
  eexists. split; [reflexivity|].
  assert (0 < Z.to_nat (locations_per_batch config)) as Hn by lia.
  pose proof (chunks_concat _ location_ids' Hn) as Hcat.
  pose proof (chunks_sizes _ location_ids' Hn) as Hsizes.
  generalize (template :: templates). intros tpls. split.
  - induction tpls as [|tpl tpls IH]; [done|].
    change ((tpl :: tpls) ≫= ?f) with (f tpl ++ (tpls ≫= f)).
    rewrite fmap_app, concat_app, IH. f_equal.
    rewrite (location_ids_imap tpl _ 0). exact Hcat.
  - apply Forall_forall. intros b Hb.
    apply list_elem_of_bind in Hb as (tpl & Hb & Htpl).
    pose proof (batches_of_template_ok tpls tpl _ _ 0 Htpl Hsizes) as Hall.
    rewrite Forall_forall in Hall. by apply Hall.
Qed.

(** X16.  With [locations_per_batch] at 1 or more,
    [create_location_batches] puts every location in exactly one batch of
    every template, in order: the batches of the templates, put together,
    are the location list once for each template; no batch is empty or
    larger than [locations_per_batch], and batch numbers start at 1. *)
Theorem location_batches_partition (config : OptimizedProcessingConfig)
    (location_ids' : list value) (templates : list RequestTemplate) :
  (0 < locations_per_batch config)%Z →
  ∃ batches,
    create_location_batches config location_ids' templates = Some batches
    ∧ concat (location_ids <$> batches) = (templates ≫= λ _, location_ids')
    ∧ Forall (λ b, 0 < length (location_ids b) ≤ Z.to_nat (locations_per_batch config)
                   ∧ template b ∈ templates ∧ 1 ≤ batch_number b) batches.
Proof. apply create_location_batches_Some. Qed.

Lemma location_batches_partition_witness :
  let config := OptimizedProcessingConfig_default in
  let templates := generate_all_parameter_combinations ["int"; "imp"] in
  ∃ batches,
    create_location_batches config [VInt 7; VInt 8; VInt 9] templates = Some batches
    ∧ concat (location_ids <$> batches) = (templates ≫= λ _, [VInt 7; VInt 8; VInt 9])
    ∧ Forall (λ b, 0 < length (location_ids b) ≤ Z.to_nat (locations_per_batch config)
                   ∧ template b ∈ templates ∧ 1 ≤ batch_number b) batches.
Proof.
  apply (location_batches_partition OptimizedProcessingConfig_default
           [VInt 7; VInt 8; VInt 9] (generate_all_parameter_combinations ["int"; "imp"])).
  reflexivity.
Defined.

Lemma requests_no_fetch effects :
  Forall (λ e, is_fetch e = false) effects → requests effects = 0.
Proof.
  unfold requests. induction 1 as [|e effects He _ IH]; [done|]. simpl. by rewrite He.
Qed.

Lemma length_bind_const {A B} (l : list A) (l' : list B) :
  length (l ≫= λ _, l') = length l * length l'.
Proof.
  induction l as [|x l IH]; [done|].
  change ((x :: l) ≫= ?f) with (f x ++ (l ≫= f)). rewrite length_app, IH. simpl. lia.
Qed.

(** What one batch adds to the counters of the run when no insert raises. *)
Lemma accumulate_batch_counts config call copy_fault acc b :
  let acc' := accumulate_batch config call copy_fault false acc b in
  run_ended acc' = Returned
  ∧ successful_requests acc' + failed_requests acc'
    = successful_requests acc + failed_requests acc + length (location_ids b)
  ∧ requests (run_effects acc')
    ≤ requests (run_effects acc) + length (location_ids b) * Z.to_nat (max_pages config).
Proof.
  destruct (_process_batch_request_counts config call b) as (Hc & Hr & _).
  unfold accumulate_batch. destruct (_ && _).
  - match goal with |- context [insert_transaction_raw_rent_data ?cf false ?t ?d] =>
      pose proof (insert_transaction_raw_rent_data_returns cf t d) as He
    end.
    cbn [run_ended successful_requests failed_requests run_effects]. rewrite He.
    split_and!; [done|lia|]. rewrite !requests_app.
    rewrite (requests_no_fetch [Wrote _ _]) by by repeat constructor. lia.
  - cbn [run_ended successful_requests failed_requests run_effects].
    split_and!; [done|lia|]. rewrite requests_app. lia.
Qed.

Lemma accumulate_batches_counts config call copy_fault batches : ∀ acc,
  run_ended acc = Returned →
  let acc' := foldl (accumulate_batch config call copy_fault false) acc batches in
  run_ended acc' = Returned
  ∧ successful_requests acc' + failed_requests acc'
    = successful_requests acc + failed_requests acc
      + length (concat (location_ids <$> batches))
  ∧ requests (run_effects acc')
    ≤ requests (run_effects acc)
      + length (concat (location_ids <$> batches)) * Z.to_nat (max_pages config).
Proof.
  induction batches as [|b batches IH]; intros acc Hacc.
  - simpl. split_and!; [done|lia|lia].
  - destruct (accumulate_batch_counts config call copy_fault acc b) as (He & Hc & Hr).
    destruct (IH _ He) as (He' & Hc' & Hr').
    cbn [foldl fmap list_fmap concat]. cbv zeta in *. rewrite length_app.
    split_and!; [done|lia|]. etrans; [exact Hr'|]. lia.
Qed.

(** X17.  When no insert raises and [locations_per_batch] is 1 or more,
    the run returns, its counters of successful and failed requests add up
    to one for every location and each of the two templates, and it issues
    no more than [max_pages] requests for each of these. *)
Theorem rent_run_counts_every_location (config : OptimizedProcessingConfig) (call : api)
    (copy_fault : bool) (locations : list record) (table : list (list value)) :
  (0 < locations_per_batch config)%Z →
  let r := process_optimized_transaction_rent_batch config call copy_fault false
             locations table in
  successful_requests r + failed_requests r = 2 * length locations
  ∧ requests (run_effects r) ≤ 2 * length locations * Z.to_nat (max_pages config)
  ∧ run_ended r = Returned.
Proof.
  intros Hpos. unfold process_optimized_transaction_rent_batch.
  destruct locations as [|loc locations]; [by split_and!|].
  destruct (create_location_batches_Some config
              ((λ loc, get loc "location_id") <$> loc :: locations)
              (generate_all_parameter_combinations ["int"; "imp"]) Hpos)
    as (batches & -> & Hcat & _).
  match goal with |- context [foldl ?f ?s0 batches] =>
    destruct (accumulate_batches_counts config call copy_fault batches s0 eq_refl)
      as (He & Hc & Hr)
  end.
  cbv zeta in *. cbn [successful_requests failed_requests run_effects run_ended] in Hc, Hr.
  assert (length (concat (location_ids <$> batches)) = 2 * length (loc :: locations))
    as Hlen.
  { rewrite Hcat, length_bind_const, length_fmap. done. }
  rewrite Hlen in Hc, Hr.
  destruct (all_accumulated_data _) as [|d data]; [by split_and!|].
  destruct (dry_run config); [by split_and!|].
  match goal with |- context [insert_transaction_raw_rent_data ?cf false ?t ?d] =>
    pose proof (insert_transaction_raw_rent_data_returns cf t d) as Hw
  end.
  cbn [successful_requests failed_requests run_effects run_ended].
  split_and!; [done| |done]. rewrite requests_app.
  change (requests [Wrote "transaction_raw_rent" (d :: data)]) with 0.
  change (requests []) with 0 in Hr. lia.
Qed.

Lemma rent_run_counts_every_location_witness :
  let r := process_optimized_transaction_rent_batch OptimizedProcessingConfig_default
             single_page_server false false [location_row 7; location_row 8] [] in
  successful_requests r + failed_requests r = 2 * 2
  ∧ requests (run_effects r) ≤ 2 * 2 * Z.to_nat (max_pages OptimizedProcessingConfig_default)
  ∧ run_ended r = Returned.
Proof.
  apply (rent_run_counts_every_location OptimizedProcessingConfig_default
           single_page_server false [location_row 7; location_row 8] []).
  reflexivity.
Defined.

(** *** The columns of a flattened record *)

(** The fields [flatten_response] copies as they are. *)
Definition direct_fields : list string :=
  [ "date"; "size"; "price"; "end_date"; "start_date"; "size_land_int"; "price_per_size";
    "transaction_type"; "transaction_version" ].

Lemma flatten_response_direct item location_id measurement k :
  k ∈ direct_fields →
  get (flatten_response item location_id measurement) k = default VNone (assoc item k).
Proof.
  intros Hk. unfold get, flatten_response.
  assert ((k ∉ ["prop_type_name"; "prop_subtype_name"])
          ∧ (k ∉ ["attr_unit"; "attr_floor"; "attr_parking"; "attr_land_number";
                  "attr_no_of_rooms"; "attr_balcony_area"; "attr_building_name";
                  "attr_building_number"])
          ∧ (k ∉ ["prop_property_id"; "prop_property_name"])
          ∧ (k ∉ ["loc_city_id"; "loc_city_name"; "loc_county_id"; "loc_county_name";
                  "loc_district_id"; "loc_location_id"; "loc_district_name";
                  "loc_location_name"; "loc_municipal_area"])
          ∧ list_to_map (M := gmap string value)
              [ ("raw_data", VDict item); ("currency", VStr "aed");
                ("measurement", VStr measurement) ] !! k = None) as (H1 & H2 & H3 & H4 & H5).
  { unfold direct_fields in Hk.
    repeat (apply elem_of_cons in Hk as [->|Hk];
            [split_and!; try (by apply (bool_decide_eq_false_1 _); vm_compute); reflexivity|]).
    by apply elem_of_nil in Hk. }
  rewrite !update_from_lookup by done.
  rewrite copy_present_lookup, (bool_decide_eq_true_2 _ Hk), H5.
  by destruct (assoc item k).
Qed.

Lemma flatten_response_fixed item location_id measurement :
  let r := flatten_response item location_id measurement in
  get r "currency" = VStr "aed" ∧ get r "measurement" = VStr measurement
  ∧ get r "raw_data" = VDict item.
Proof.
  unfold get, flatten_response.
  rewrite !update_from_lookup by (by apply (bool_decide_eq_false_1 _); vm_compute).
  rewrite !copy_present_lookup.
  rewrite !(bool_decide_eq_false_2 _) by (by apply (bool_decide_eq_false_1 _); vm_compute).
  done.
Qed.

Lemma flatten_response_location_id item location_id measurement :
  get (flatten_response item location_id measurement) "loc_location_id"
  = get_if_dict (default VNone (assoc item "location")) "location_id".
Proof.
  unfold get, flatten_response.
  rewrite !update_from_lookup by (by apply (bool_decide_eq_false_1 _); vm_compute).
  unfold update_from at 1.
  match goal with |- context [copy_present ?keys item ?base] =>
    assert (copy_present keys item base !! "loc_location_id" = None) as Hbase
  end.
  { rewrite copy_present_lookup.
    rewrite (bool_decide_eq_false_2 _) by (by apply (bool_decide_eq_false_1 _); vm_compute).
    reflexivity. }
  destruct (assoc item "location") as [[| | | | | |nested]|];
    cbn [from_option get_if_dict foldl]; rewrite ?Hbase; try done.
  rewrite !lookup_insert_ne by done. by rewrite lookup_insert_eq.
Qed.

Lemma column_values_of (cols : list string) (r : record) c :
  c ∈ cols → column cols (values_of cols r) c = get r c.
Proof.
  unfold values_of. induction cols as [|c' cols IH]; intros Hc; [by apply elem_of_nil in Hc|].
  simpl. destruct (String.eqb c' c) eqn:Heq; [by apply String.eqb_eq in Heq as ->|].
  apply elem_of_cons in Hc as [->|Hc]; [by rewrite String.eqb_refl in Heq|by apply IH].
Qed.

(** X18.  What [flatten_response] makes of an item: the currency is
    always [aed] (whatever the item says), the measurement is the one of
    the request, the whole item is kept as [raw_data], the nine direct
    fields are copied as they are (a missing one reads as null), and the
    record has an entry in the unique index of [transaction_raw_rent]
    exactly when the item has a date, a price, a size and a location
    object with a location id. *)
Theorem flattened_record_columns (item : list (string * value)) (location_id : value)
    (measurement : string) :
  let r := flatten_response item location_id measurement in
  get r "currency" = VStr "aed" ∧ get r "measurement" = VStr measurement
  ∧ get r "raw_data" = VDict item
  ∧ (∀ k, k ∈ direct_fields → get r k = default VNone (assoc item k))
  ∧ (is_Some (rent_key rent_column_order (values_of rent_column_order r)) ↔
       default VNone (assoc item "date") ≠ VNone
       ∧ default VNone (assoc item "price") ≠ VNone
       ∧ default VNone (assoc item "size") ≠ VNone
       ∧ get_if_dict (default VNone (assoc item "location")) "location_id" ≠ VNone).
Proof.
  cbv zeta. destruct (flatten_response_fixed item location_id measurement)
    as (Hcur & Hmeas & Hraw).
  split; [done|]. split; [done|]. split; [done|].
  split; [intros k; apply flatten_response_direct|].
  unfold rent_key, index_key, rent_conflict_target. cbn [fmap list_fmap].
  rewrite !column_values_of by (by apply (bool_decide_eq_true_1 _); vm_compute).
  rewrite Hcur, Hmeas, flatten_response_location_id.
  rewrite !flatten_response_direct by (by apply (bool_decide_eq_true_1 _); vm_compute).
  split.
  - intros [k Hk]. destruct (bool_decide _) eqn:Hin; [discriminate|].
    apply bool_decide_eq_false in Hin.
    split_and!; intros Heq; apply Hin; rewrite Heq; set_solver.
  - intros (Hd & Hp & Hs & Hl). rewrite bool_decide_eq_false_2; [by eexists|].
    intros Hin. repeat (apply elem_of_cons in Hin as [Heq|Hin]; [by try congruence|]).
    by apply elem_of_nil in Hin.
Qed.

(** *** [_detect_error_type] (lines 361-368) *)

(** [needle in hay] on strings. *)
Fixpoint contains (needle hay : string) : bool :=
  String.prefix needle hay
  || match hay with
     | EmptyString => false
     | String _ hay' => contains needle hay'
     end.

(** An upper-case letter of ASCII. *)
Definition is_upper (c : Ascii.ascii) : bool :=
  (65 <=? Ascii.nat_of_ascii c) && (Ascii.nat_of_ascii c <=? 90).

Fixpoint has_upper (s : string) : bool :=
  match s with
  | EmptyString => false
  | String c s' => is_upper c || has_upper s'
  end.

Section ErrorType.
(** [str.lower]. *)
Variable lower : string → string.

(** [error_text] is [str(error)]. *)
Definition _detect_error_type (error_text : string) : option string :=
  let error_str := lower error_text in
  if contains "timeout" error_str || contains "ConnectTimeoutError" error_str
  then Some "timeout"
  else if contains "429" error_str || contains "Too Many Requests" error_str
  then Some "429"
  else None.

End ErrorType.

Lemma prefix_upper needle hay :
  String.prefix needle hay = true → has_upper needle = true → has_upper hay = true.
Proof.
  revert hay. induction needle as [|c needle IH]; intros hay Hpre Hup; [done|].
  destruct hay as [|c' hay]; [done|]. simpl in Hpre.
  destruct (Ascii.ascii_dec c c') as [->|]; [|done]. simpl in *.
  destruct (is_upper c'); [done|]. simpl in *. by apply IH.
Qed.

Lemma contains_upper needle hay :
  contains needle hay = true → has_upper needle = true → has_upper hay = true.
Proof.
  intros Hin Hup. induction hay as [|c hay IH]; simpl in Hin.
  - apply orb_true_iff in Hin as [Hpre|]; [|done]. by apply (prefix_upper needle).
  - apply orb_true_iff in Hin as [Hpre|Hin]; [by apply (prefix_upper needle)|].
    simpl. rewrite (IH Hin). apply orb_true_r.
Qed.

(** X19.  Since the text is put in lower case first (and [str.lower]
    leaves no upper-case letter of ASCII), the tests for
    [ConnectTimeoutError] and for [Too Many Requests] never decide: an
    error counts as a timeout exactly when its lowered text contains
    [timeout], and as a 429 exactly when it does not and contains [429]. *)
Theorem detect_error_type_by_lowered_text (lower : string → string) (error_text : string) :
  (∀ s, has_upper (lower s) = false) →
  _detect_error_type lower error_text
  = if contains "timeout" (lower error_text) then Some "timeout"
    else if contains "429" (lower error_text) then Some "429"
    else None.
Proof.
  intros Hlower. unfold _detect_error_type.
  assert (∀ needle, has_upper needle = true → contains needle (lower error_text) = false)
    as Hdead.
  { intros needle Hup. destruct (contains needle (lower error_text)) eqn:Hin; [|done].
    pose proof (contains_upper _ _ Hin Hup) as Hhay. by rewrite Hlower in Hhay. }
  rewrite (Hdead "ConnectTimeoutError") by reflexivity.
  rewrite (Hdead "Too Many Requests") by reflexivity.
  by rewrite !orb_false_r.
Qed.

(** [str.lower] on a text of ASCII. *)
Definition ascii_lower_char (c : Ascii.ascii) : Ascii.ascii :=
  if is_upper c then Ascii.ascii_of_nat (Ascii.nat_of_ascii c + 32) else c.

Fixpoint ascii_lower (s : string) : string :=
  match s with
  | EmptyString => EmptyString
  | String c s' => String (ascii_lower_char c) (ascii_lower s')
  end.

Lemma ascii_lower_no_upper s : has_upper (ascii_lower s) = false.
Proof.
  induction s as [|c s IH]; [done|]. simpl. rewrite IH, orb_false_r.
  unfold ascii_lower_char. destruct (is_upper c) eqn:Hc; [|done].
  unfold is_upper in *. apply andb_true_iff in Hc as [Hlo Hhi].
  apply Nat.leb_le in Hlo, Hhi.
  rewrite Ascii.nat_ascii_embedding by lia.
  apply andb_false_iff. right. apply Nat.leb_gt. lia.
Qed.

Lemma detect_error_type_by_lowered_text_witness :
  _detect_error_type ascii_lower "HTTP error: Too Many Requests" = None
  ∧ _detect_error_type ascii_lower "HTTPSConnectionPool: Read Timeout"
    = (if contains "timeout" (ascii_lower "HTTPSConnectionPool: Read Timeout")
       then Some "timeout"
       else if contains "429" (ascii_lower "HTTPSConnectionPool: Read Timeout")
       then Some "429" else None).
Proof.
  split; [reflexivity|].
  apply (detect_error_type_by_lowered_text ascii_lower "HTTPSConnectionPool: Read Timeout").
  apply ascii_lower_no_upper.
Defined.

End TransactionRent.

(** ** The transaction sales importer:
    [src Extract/import_transaction_sales.py] and [src Extract/processors.py] *)

Module TransactionSales.
Import Database.

Definition api := list (string * value) → option value.

(** [_build_params] (lines 325-364). *)
Definition _build_params (location_id : value) (page_number : Z) (scroll_id : value)
    (measurement transaction_type : string)
    (currency property_type bedroom size_range price_range transaction_date : value)
    (page_size : Z) : list (string * value) :=
  [ ("measurement", VStr measurement); ("transaction_type", VStr transaction_type);
    ("page_size", VInt page_size); ("location", location_id);
    ("page_number", VInt page_number) ]
  ++ (if truthy currency then [("currency", currency)] else [])
  ++ (if truthy property_type then [("property_type", property_type)] else [])
  ++ (if bool_decide (bedroom = VNone) then [] else [("bedroom", bedroom)])
  ++ (if truthy size_range then [("size_range", size_range)] else [])
  ++ (if truthy price_range then [("price_range", price_range)] else [])
  ++ (if truthy transaction_date then [("transaction_date", transaction_date)] else [])
  ++ (if truthy scroll_id then [("scroll_id", scroll_id)] else []).

Section Processor.
(** [json.dumps], the serializer of the standard library. *)
Variable json_dumps : value → string.
(** [int(x)]: the integer, [None] where [int] raises. *)
Variable int_conversion : value → option Z.
(** Whether the insert made in pass [n] of a page loop raises. *)
Variable insert_fault : nat → bool.

(** [record.get(name, {})] read at [key] when it is a dict, [None] for
    every key otherwise. *)
Definition nested_get (record : list (string * value)) (name key : string) : value :=
  match assoc record name with
  | None => VNone
  | Some (VDict d) => default VNone (assoc d key)
  | Some _ => VNone
  end.

(** The dict built at lines 715-765 of [processors.py]. *)
Definition processed_record (record : list (string * value)) (location_id : Z)
    (currency measurement transaction_type : string)
    (bedroom size_range price_range transaction_date : value) : gmap string value :=
  let field k := default VNone (assoc record k) in
  list_to_map
    [ ("start_date", field "start_date"); ("end_date", field "end_date");
      ("date", field "date"); ("transaction_version", field "transaction_version");
      ("transaction_type", default (VStr transaction_type) (assoc record "transaction_type"));
      ("location_id", VInt location_id);
      ("loc_city_id", nested_get record "location" "city_id");
      ("loc_city_name", nested_get record "location" "city_name");
      ("loc_county_id", nested_get record "location" "county_id");
      ("loc_county_name", nested_get record "location" "county_name");
      ("loc_district_id", nested_get record "location" "district_id");
      ("loc_district_name", nested_get record "location" "district_name");
      ("loc_location_id", nested_get record "location" "location_id");
      ("loc_location_name", nested_get record "location" "location_name");
      ("loc_municipal_area", nested_get record "location" "municipal_area");
      ("property_id", nested_get record "property" "property_id");
      ("property_name", nested_get record "property" "property_name");
      ("property_type_name", nested_get record "property_type" "type_name");
      ("property_subtype_name", nested_get record "property_type" "subtype_name");
      ("price", field "price"); ("price_per_size", field "price_per_size");
      ("size", field "size"); ("size_land_imp", field "size_land_imp");
      ("attr_unit", nested_get record "attributes" "unit");
      ("attr_floor", nested_get record "attributes" "floor");
      ("attr_parking", nested_get record "attributes" "parking");
      ("attr_land_number", nested_get record "attributes" "land_number");
      ("attr_no_of_rooms", int_if_digits (nested_get record "attributes" "no_of_rooms"));
      ("attr_balcony_area", nested_get record "attributes" "balcony_area");
      ("attr_building_name", nested_get record "attributes" "building_name");
      ("attr_building_number", nested_get record "attributes" "building_number");
      ("currency", VStr currency); ("measurement", VStr measurement);
      ("bedroom", bedroom); ("size_range", size_range); ("price_range", price_range);
      ("transaction_date", transaction_date);
      ("raw_data", VStr (json_dumps (VDict record))) ].

(** [unique_key] (lines 703-710). *)
Definition unique_key (record : list (string * value)) (location_id : Z)
    (transaction_type : string) : list value :=
  let field k := default VNone (assoc record k) in
  [ VInt location_id; field "start_date"; field "end_date"; field "price";
    default (VStr transaction_type) (assoc record "transaction_type"); field "date" ].

(** [DataProcessor.process_transaction_sales_data] (lines 620-771): an
    element that is no dict, or whose key cannot be hashed, raises inside
    the [try] and is skipped; so is a key seen before. *)
Definition process_transaction_sales_data (raw_data : list value) (location_id : Z)
    (currency measurement transaction_type : string)
    (bedroom size_range price_range transaction_date : value) : list record :=
  (foldl (λ '(processed_records, seen_records) item,
            match item with
            | VDict record =>
                let key := unique_key record location_id transaction_type in
                if negb (forallb hashable key) then (processed_records, seen_records)
                else if key_in key seen_records then (processed_records, seen_records)
                else (processed_records
                        ++ [processed_record record location_id currency measurement
                              transaction_type bedroom size_range price_range
                              transaction_date],
                      seen_records ++ [key])
            | _ => (processed_records, seen_records)
            end)
         ([], []) raw_data).1.

(** The state of the page loop of [_fetch_and_process_one]. *)
Record page_loop := {
  total_records : nat;
  current_scroll_id : value;
  page : Z;
  transaction_sales : list (list value);
  done_effects : list effect;
  raised : bool
}.

Definition next_page (payload : value) (s : page_loop) : page_loop * control :=
  let sid := get_if_dict payload "scroll_id" in
  ({| total_records := total_records s; current_scroll_id := sid; page := page s + 1;
      transaction_sales := transaction_sales s; done_effects := done_effects s;
      raised := raised s |},
   if truthy sid then Continue else Break).

(** One iteration of [for _ in range(max_pages)] (lines 78-114).  An API
    call that raises ends the loop; [int(location_id)] or an insert that
    raises leaves the function through its outer handler (lines 118-120). *)
Definition fetch_page (location_id : value) (measurement transaction_type : string)
    (page_size : Z) (dry_run : bool) (call : api) (n : nat) (s : page_loop)
  : page_loop * control :=
  let params := _build_params location_id (page s) (current_scroll_id s) measurement
                  transaction_type (VStr "aed") VNone VNone VNone VNone VNone page_size in
  let fetched := done_effects s ++ [Fetched params] in
  match call params with
  | None =>
      ({| total_records := total_records s; current_scroll_id := current_scroll_id s;
          page := page s; transaction_sales := transaction_sales s;
          done_effects := fetched; raised := raised s |}, Break)
  | Some payload =>
      match get_if_dict payload "results" with
      | VList (item :: items) =>
          let results := item :: items in
          let total := total_records s + length results in
          if dry_run then
            next_page payload
              {| total_records := total; current_scroll_id := current_scroll_id s;
                 page := page s; transaction_sales := transaction_sales s;
                 done_effects := fetched; raised := raised s |}
          else
            match int_conversion location_id with
            | None =>
                ({| total_records := total; current_scroll_id := current_scroll_id s;
                    page := page s; transaction_sales := transaction_sales s;
                    done_effects := fetched; raised := true |}, Break)
            | Some lid =>
                let processed :=
                  process_transaction_sales_data results lid "aed" measurement
                    transaction_type VNone VNone VNone VNone in
                let valid_data := filter has_price processed in
                let flattened := fetched ++ [Flattened results] in
                match valid_data with
                | [] =>
                    next_page payload
                      {| total_records := total; current_scroll_id := current_scroll_id s;
                         page := page s; transaction_sales := transaction_sales s;
                         done_effects := flattened; raised := raised s |}
                | _ =>
                    let w := insert_transaction_sales_data (insert_fault n)
                               (transaction_sales s) valid_data in
                    let written := flattened ++ [Wrote "transaction_sales" valid_data] in
                    match ended w with
                    | Returned =>
                        next_page payload
                          {| total_records := total;
                             current_scroll_id := current_scroll_id s; page := page s;
                             transaction_sales := stored w; done_effects := written;
                             raised := raised s |}
                    | Raised =>
                        ({| total_records := total;
                            current_scroll_id := current_scroll_id s; page := page s;
                            transaction_sales := stored w; done_effects := written;
                            raised := true |}, Break)
                    end
                end
            end
      | _ =>
          ({| total_records := total_records s; current_scroll_id := current_scroll_id s;
              page := page s; transaction_sales := transaction_sales s;
              done_effects := fetched; raised := raised s |}, Break)
      end
  end.

(** [_fetch_and_process_one] (lines 68-120): the loop state at the end; the
    function returns [total_records], and 0 when [raised]. *)
Definition _fetch_and_process_one (call : api) (table : list (list value))
    (location_id : value) (measurement transaction_type : string)
    (max_pages page_size : Z) (dry_run : bool) : page_loop :=
  for_each (seq 0 (Z.to_nat max_pages))
    (fetch_page location_id measurement transaction_type page_size dry_run call)
    {| total_records := 0; current_scroll_id := VNone; page := 1;
       transaction_sales := table; done_effects := []; raised := false |}.

Definition returned_records (s : page_loop) : nat :=
  if raised s then 0 else total_records s.

(** Every write of the fetch hands over records with a price only. *)
Lemma _fetch_and_process_one_priced call table location_id measurement transaction_type
    max_pages page_size dry_run :
  writes_priced
    (done_effects (_fetch_and_process_one call table location_id measurement
                     transaction_type max_pages page_size dry_run)).
Proof.
  unfold _fetch_and_process_one.
  apply (for_each_invariant (λ s, writes_priced (done_effects s))); [constructor|].
  intros n s Hs. unfold fetch_page, next_page.
  match goal with |- context [done_effects s ++ [Fetched ?p]] =>
    assert (writes_priced (done_effects s ++ [Fetched p])) as Hf
      by (apply Forall_app; split; [done|by apply Forall_singleton])
  end.
  destruct (call _) as [payload|]; [|done].
  destruct (get_if_dict payload "results") as [| | | | |[|item items]|]; try done.
  destruct dry_run; [done|].
  destruct (int_conversion location_id) as [lid|]; [|done].
  match goal with |- context [?f ++ [Flattened ?r]] =>
    assert (writes_priced (f ++ [Flattened r])) as Hfl
      by (apply Forall_app; split; [done|by apply Forall_singleton])
  end.
  destruct (filter has_price _) as [|r valid] eqn:Hvalid; [done|].
  match goal with |- context [?f ++ [Wrote ?t (r :: valid)]] =>
    assert (writes_priced (f ++ [Wrote t (r :: valid)])) as Hw
  end.
  { apply Forall_app. split; [done|]. apply Forall_singleton.
    rewrite <-Hvalid. apply Forall_forall. intros x Hx.
    by apply list_elem_of_filter in Hx as [? _]. }
  cbv zeta. by destruct (ended _).
Qed.

(** A dry run writes nothing and leaves the table as it is. *)
Lemma _fetch_and_process_one_dry call table location_id measurement transaction_type
    max_pages page_size :
  let r := _fetch_and_process_one call table location_id measurement transaction_type
             max_pages page_size true in
  transaction_sales r = table ∧ Forall (λ e, is_fetch e = true) (done_effects r).
Proof.
  unfold _fetch_and_process_one.
  apply (for_each_invariant
           (λ s, transaction_sales s = table
                 ∧ Forall (λ e, is_fetch e = true) (done_effects s))); [done|].
  intros n s [Ht Hs]. unfold fetch_page, next_page.
  match goal with |- context [done_effects s ++ [Fetched ?p]] =>
    assert (Forall (λ e, is_fetch e = true) (done_effects s ++ [Fetched p])) as Hf
      by (apply Forall_app; split; [done|by apply Forall_singleton])
  end.
  destruct (call _) as [payload|]; [|done].
  by destruct (get_if_dict payload "results") as [| | | | |[|item items]|].
Qed.

(** The processed record carries the price of its element. *)
Lemma processed_record_price record location_id currency measurement transaction_type
    bedroom size_range price_range transaction_date :
  get (processed_record record location_id currency measurement transaction_type
         bedroom size_range price_range transaction_date) "price"
  = default VNone (assoc record "price").
Proof. reflexivity. Qed.

End Processor.

(** Scenario B on [_fetch_and_process_one]: pages of 50, 50 and 0 results,
    an [int] that accepts the location id and no insert that raises.  The
    sales importer counts and stores 100 records and stops at the empty
    third page after 3 requests. *)
Lemma sales_pagination_scenario :
  let r := _fetch_and_process_one (λ _, "{}") py_int (λ _, false)
             TransactionRent.scrolling_server [] (VInt 7)
             "int" "Sales - Ready" 5 1000 false in
  total_records r = 100 ∧ length (transaction_sales r) = 100
  ∧ TransactionRent.requests (done_effects r) = 3 ∧ raised r = false.
Proof. by vm_compute. Qed.

(** *** The records of one page *)

(** The columns of a record that make up [unique_key]. *)
Definition record_key (r : record) : list value :=
  [ get r "location_id"; get r "start_date"; get r "end_date"; get r "price";
    get r "transaction_type"; get r "date" ].

(** Every key of the list is new with respect to [seen] and to the keys
    before it. *)
Fixpoint all_new (seen keys : list (list value)) : bool :=
  match keys with
  | [] => true
  | key :: keys' => negb (key_in key seen) && all_new (seen ++ [key]) keys'
  end.

Lemma all_new_snoc keys : ∀ seen key,
  all_new seen keys = true → key_in key (seen ++ keys) = false →
  all_new seen (keys ++ [key]) = true.
Proof.
  induction keys as [|k keys IH]; intros seen key Hall Hnew; simpl in *.
  - rewrite app_nil_r in Hnew. by rewrite Hnew.
  - apply andb_true_iff in Hall as [Hk Hall]. rewrite Hk. simpl.
    apply IH; [done|]. by rewrite <-app_assoc.
Qed.

Lemma record_key_processed_record json_dumps record location_id currency measurement
    transaction_type bedroom size_range price_range transaction_date :
  record_key (processed_record json_dumps record location_id currency measurement
                transaction_type bedroom size_range price_range transaction_date)
  = unique_key record location_id transaction_type.
Proof. reflexivity. Qed.

Lemma process_transaction_sales_data_invariant json_dumps location_id currency measurement
    transaction_type bedroom size_range price_range transaction_date raw_data : ∀ s,
  record_key <$> s.1 = s.2 → all_new [] s.2 = true →
  let s' := foldl (λ '(processed_records, seen_records) item,
            match item with
            | VDict record =>
                let key := unique_key record location_id transaction_type in
                if negb (forallb hashable key) then (processed_records, seen_records)
                else if key_in key seen_records then (processed_records, seen_records)
                else (processed_records
                        ++ [processed_record json_dumps record location_id currency
                              measurement transaction_type bedroom size_range price_range
                              transaction_date],
                      seen_records ++ [key])
            | _ => (processed_records, seen_records)
            end) s raw_data in
  record_key <$> s'.1 = s'.2 ∧ all_new [] s'.2 = true
  ∧ length s'.1 ≤ length s.1 + length raw_data.
Proof.
  induction raw_data as [|item raw_data IH]; intros [processed seen] Hkeys Hnew.
  - simpl. split_and!; [done|done|lia].
  - cbn [foldl].
    match goal with |- context [foldl ?f ?s1 raw_data] =>
      assert (record_key <$> s1.1 = s1.2 ∧ all_new [] s1.2 = true
              ∧ length s1.1 ≤ length processed + 1) as (Hk1 & Hn1 & Hl1)
    end.
    { destruct item as [| | | | | |record]; try (split_and!; [done|done|simpl; lia]).
      destruct (negb (forallb hashable _)); [split_and!; [done|done|simpl; lia]|].
      destruct (key_in _ seen) eqn:Hin; [split_and!; [done|done|simpl; lia]|].
      cbn [fst snd] in *. split_and!.
      - by rewrite fmap_app, Hkeys.
      - by apply all_new_snoc.
      - rewrite length_app. simpl. lia. }
    destruct (IH _ Hk1 Hn1) as (Hk' & Hn' & Hl').
    split_and!; [done|done|]. cbn [fst snd length] in *. lia.
Qed.

(** X20.  The records [process_transaction_sales_data] returns for one
    page differ pairwise in the six columns of the conflict target of
    [transaction_sales] (by Python's [==], so 1 and 1.0 count as equal):
    each record's key is new with respect to the records before it; and
    there are no more records than elements on the page. *)
Theorem sales_records_distinct (json_dumps : value → string) (raw_data : list value)
    (location_id : Z) (currency measurement transaction_type : string)
    (bedroom size_range price_range transaction_date : value) :
  let records := process_transaction_sales_data json_dumps raw_data location_id currency
                   measurement transaction_type bedroom size_range price_range
                   transaction_date in
  all_new [] (record_key <$> records) = true ∧ length records ≤ length raw_data.
Proof.
  unfold process_transaction_sales_data.
  pose proof (process_transaction_sales_data_invariant json_dumps location_id currency
                measurement transaction_type bedroom size_range price_range
                transaction_date raw_data ([], []) eq_refl eq_refl) as (Hk & Hn & Hl).
  cbv zeta in *. split; [by rewrite Hk|exact Hl].
Qed.

(** *** A work item fetched again *)

(** The batches handed to the store, in order. *)
Definition written (effects : list effect) : list (list record) :=
  omap (λ e, if e is Wrote _ rows then Some rows else None) effects.

Lemma written_app effects effects' :
  written (effects ++ effects') = written effects ++ written effects'.
Proof. apply omap_app. Qed.

(** An insert of records raises exactly when its fault says so. *)
Lemma ended_insert_transaction_sales_data insert_fault t r data_list :
  ended (insert_transaction_sales_data insert_fault t (r :: data_list))
  = if insert_fault then Raised else Returned.
Proof. unfold insert_transaction_sales_data. by destruct insert_fault. Qed.

(** What does not depend on the table a fetch starts from. *)
Definition same_course (s s' : page_loop) : Prop :=
  total_records s = total_records s' ∧ current_scroll_id s = current_scroll_id s'
  ∧ page s = page s' ∧ done_effects s = done_effects s' ∧ raised s = raised s'.

Lemma fetch_page_same_course json_dumps int_conversion insert_fault location_id measurement
    transaction_type page_size dry_run call n s s' :
  same_course s s' →
  same_course
    (fetch_page json_dumps int_conversion insert_fault location_id measurement
       transaction_type page_size dry_run call n s).1
    (fetch_page json_dumps int_conversion insert_fault location_id measurement
       transaction_type page_size dry_run call n s').1
  ∧ (fetch_page json_dumps int_conversion insert_fault location_id measurement
       transaction_type page_size dry_run call n s).2
    = (fetch_page json_dumps int_conversion insert_fault location_id measurement
         transaction_type page_size dry_run call n s').2.
Proof.
  intros (Ht & Hsid & Hp & He & Hr). unfold fetch_page, next_page, same_course.
  rewrite Ht, Hsid, Hp, He, Hr.
  destruct (call _) as [payload|]; [|done].
  destruct (get_if_dict payload "results") as [| | | | |[|item items]|]; try done.
  destruct dry_run; [done|].
  destruct (int_conversion location_id) as [lid|]; [|done].
  destruct (filter has_price _) as [|r valid]; [done|].
  cbv zeta. rewrite !ended_insert_transaction_sales_data.
  by destruct (insert_fault n).
Qed.

(** The course of a fetch is the same whatever the table holds. *)
Lemma _fetch_and_process_one_same_course json_dumps int_conversion insert_fault call
    table table' location_id measurement transaction_type max_pages page_size dry_run :
  same_course
    (_fetch_and_process_one json_dumps int_conversion insert_fault call table location_id
       measurement transaction_type max_pages page_size dry_run)
    (_fetch_and_process_one json_dumps int_conversion insert_fault call table' location_id
       measurement transaction_type max_pages page_size dry_run).
Proof.
  unfold _fetch_and_process_one. apply (for_each_related same_course); [|done].
  intros n s s'. apply fetch_page_same_course.
Qed.

(** One insert after the other with [ON CONFLICT ... DO NOTHING]. *)
Definition insert_all (t : list (list value)) (batches : list (list record))
  : list (list value) :=
  foldl (λ t rows, on_conflict_do_nothing sales_key t (values_of sales_columns <$> rows))
        t batches.

Lemma insert_all_concat batches : ∀ t,
  insert_all t batches
  = on_conflict_do_nothing sales_key t (values_of sales_columns <$> concat batches).
Proof.
  induction batches as [|b batches IH]; intros t; [done|].
  cbn [insert_all foldl concat]. rewrite fmap_app, do_nothing_app. apply IH.
Qed.

Lemma stored_insert_transaction_sales_data t data_list :
  stored (insert_transaction_sales_data false t data_list)
  = on_conflict_do_nothing sales_key t (values_of sales_columns <$> data_list).
Proof. by destruct data_list. Qed.

(** No insert of the fetch raises. *)
Definition no_fault : nat → bool := λ _, false.

(** When no insert raises, the table at the end of a fetch is the table it
    started from with the written batches inserted in order. *)
Lemma _fetch_and_process_one_stored json_dumps int_conversion call table location_id
    measurement transaction_type max_pages page_size dry_run :
  let r := _fetch_and_process_one json_dumps int_conversion no_fault call table location_id
             measurement transaction_type max_pages page_size dry_run in
  transaction_sales r = insert_all table (written (done_effects r)).
Proof.
  unfold _fetch_and_process_one.
  apply (for_each_invariant
           (λ s, transaction_sales s = insert_all table (written (done_effects s))));
    [done|].
  intros n s Hs. unfold fetch_page, next_page.
  assert (∀ e, is_write e = false →
            insert_all table (written (done_effects s ++ [e]))
            = insert_all table (written (done_effects s))) as Hskip.
  { intros e He. rewrite written_app.
    destruct e; [| |done]; cbn [written omap]; by rewrite app_nil_r. }
  destruct (call _) as [payload|]; cbn [fst transaction_sales done_effects];
    [|by rewrite Hskip].
  destruct (get_if_dict payload "results") as [| | | | |[|item items]|];
    cbn [fst transaction_sales done_effects]; try by rewrite Hskip.
  destruct dry_run; cbn [fst transaction_sales done_effects]; [by rewrite Hskip|].
  destruct (int_conversion location_id) as [lid|];
    cbn [fst transaction_sales done_effects]; [|by rewrite Hskip].
  destruct (filter has_price _) as [|r valid]; cbn [fst transaction_sales done_effects].
  - rewrite written_app, app_nil_r. by rewrite Hskip.
  - cbv zeta. rewrite ended_insert_transaction_sales_data. unfold no_fault.
    cbn [fst transaction_sales done_effects].
    rewrite stored_insert_transaction_sales_data, Hs.
    rewrite !written_app. cbn [written omap]. rewrite !app_nil_r.
    unfold insert_all. by rewrite foldl_app.
Qed.

(** Every row of the written batches has its entry in the unique index:
    none of its six key columns is null. *)
Definition sales_keyed (batches : list (list record)) : Prop :=
  Forall (λ r, is_Some (sales_key (values_of sales_columns r))) (concat batches).

(** X21.  When no insert raises, a work item of the sales importer fetched
    a second time against the same answers of the API leaves the table as
    the first fetch left it, provided the rows the first fetch wrote all
    have their six key columns; and the second fetch issues the same
    requests and counts the same records as the first, whatever [int]
    makes of the location id. *)
Theorem sales_refetch_stores_nothing_new (json_dumps : value → string)
    (int_conversion : value → option Z) (call : api)
    (table : list (list value)) (location_id : value)
    (measurement transaction_type : string) (max_pages page_size : Z) :
  let first := _fetch_and_process_one json_dumps int_conversion no_fault call table
                 location_id measurement transaction_type max_pages page_size false in
  let second := _fetch_and_process_one json_dumps int_conversion no_fault call
                  (transaction_sales first) location_id measurement transaction_type
                  max_pages page_size false in
  sales_keyed (written (done_effects first)) →
  transaction_sales second = transaction_sales first
  ∧ done_effects second = done_effects first
  ∧ returned_records second = returned_records first.
Proof.
  intros first second Hkeyed.
  destruct (_fetch_and_process_one_same_course json_dumps int_conversion no_fault call
              (transaction_sales first) table location_id measurement transaction_type
              max_pages page_size false)
    as (Ht & _ & _ & He & Hr).
  fold first second in Ht, He, Hr.
  split_and!; [|done|by unfold returned_records; rewrite Ht, Hr].
  pose proof (_fetch_and_process_one_stored json_dumps int_conversion call
                (transaction_sales first) location_id measurement transaction_type
                max_pages page_size false) as H2.
  pose proof (_fetch_and_process_one_stored json_dumps int_conversion call table
                location_id measurement transaction_type max_pages page_size false) as H1.
  cbv zeta in H1, H2. fold first in H1, H2. fold second in H2.
  rewrite H2, He, H1, !insert_all_concat.
  apply do_nothing_idempotent; [|done].
  apply Forall_fmap. exact Hkeyed.
Qed.

(** A result element of the sales API with its dates and its price. *)
Definition sample_sale (price : Z) : value :=
  VDict [ ("start_date", VStr "2025-06-01"); ("end_date", VStr "2025-06-30");
          ("date", VStr "2025-06-18"); ("price", VInt price); ("size", VFloat 100) ].

(** A server with one page of three elements, two of them equal. *)
Definition one_page_server : api := λ params,
  Some (VDict [ ("results", VList [sample_sale 1; sample_sale 2; sample_sale 1]);
                ("scroll_id", VNone) ]).

Lemma sales_refetch_stores_nothing_new_witness :
  let json_dumps := λ _ : value, "{}" in
  let first := _fetch_and_process_one json_dumps py_int no_fault one_page_server []
                 (VInt 7) "int" "Sales - Ready" 5 1000 false in
  let second := _fetch_and_process_one json_dumps py_int no_fault one_page_server
                  (transaction_sales first) (VInt 7) "int" "Sales - Ready" 5 1000 false in
  length (transaction_sales first) = 2
  ∧ transaction_sales second = transaction_sales first
  ∧ done_effects second = done_effects first
  ∧ returned_records second = returned_records first.
Proof.
  split; [reflexivity|].
  apply (sales_refetch_stores_nothing_new (λ _ : value, "{}") py_int one_page_server []
           (VInt 7) "int" "Sales - Ready" 5 1000).
  repeat (constructor; [by eexists|]). constructor.
Defined.

(** *** How many requests a fetch issues *)

Lemma sales_fetch_page_requests json_dumps int_conversion insert_fault location_id
    measurement transaction_type page_size dry_run call n s :
  TransactionRent.requests
    (done_effects (fetch_page json_dumps int_conversion insert_fault location_id
                     measurement transaction_type page_size dry_run call n s).1)
  = TransactionRent.requests (done_effects s) + 1.
Proof.
  unfold fetch_page, next_page.
  destruct (call _) as [payload|]; simpl; [|by rewrite TransactionRent.requests_app].
  destruct (get_if_dict payload "results") as [| | | | |[|item items]|]; simpl;
    try by rewrite TransactionRent.requests_app.
  destruct dry_run; simpl; [by rewrite TransactionRent.requests_app|].
  destruct (int_conversion location_id) as [lid|]; simpl;
    [|by rewrite TransactionRent.requests_app].
  destruct (filter has_price _) as [|r valid];
    [simpl; rewrite !TransactionRent.requests_app; unfold TransactionRent.requests;
     simpl; lia|].
  cbv zeta. rewrite ended_insert_transaction_sales_data.
  destruct (insert_fault n); simpl; rewrite !TransactionRent.requests_app;
    unfold TransactionRent.requests; simpl; lia.
Qed.

(** The requests among the effects, in order. *)
Definition fetches (effects : list effect) : list effect := List.filter is_fetch effects.

Lemma fetches_app effects effects' :
  fetches (effects ++ effects') = fetches effects ++ fetches effects'.
Proof. apply List.filter_app. Qed.

(** What a dry run and a normal run that has not raised have in common. *)
Definition same_requests (s s' : page_loop) : Prop :=
  total_records s = total_records s' ∧ current_scroll_id s = current_scroll_id s'
  ∧ page s = page s' ∧ fetches (done_effects s) = fetches (done_effects s').

(** One pass of the dry run beside one of the normal run: they send the
    same request, and either take the same decision or the normal run
    leaves through its outer handler. *)
Lemma fetch_page_dry_wet json_dumps int_conversion insert_fault location_id measurement
    transaction_type page_size call n s s' :
  same_requests s s' →
  let d := fetch_page json_dumps int_conversion insert_fault location_id measurement
             transaction_type page_size true call n s in
  let w := fetch_page json_dumps int_conversion insert_fault location_id measurement
             transaction_type page_size false call n s' in
  fetches (done_effects d.1) = fetches (done_effects w.1)
  ∧ ((same_requests d.1 w.1 ∧ d.2 = w.2 ∧ raised w.1 = raised s')
     ∨ (w.2 = Break ∧ raised w.1 = true)).
Proof.
  intros (Ht & Hsid & Hp & He). unfold fetch_page, next_page, same_requests.
  rewrite Ht, Hsid, Hp.
  assert (∀ p, fetches (done_effects s ++ [Fetched p])
               = fetches (done_effects s' ++ [Fetched p])) as Hf
    by (intros p; by rewrite !fetches_app, He).
  assert (∀ p r, fetches ((done_effects s' ++ [Fetched p]) ++ [Flattened r])
                 = fetches (done_effects s' ++ [Fetched p])) as Hfl
    by (intros p r; rewrite (fetches_app (_ ++ _)); simpl; by rewrite app_nil_r).
  assert (∀ p r v, fetches (((done_effects s' ++ [Fetched p]) ++ [Flattened r])
                             ++ [Wrote "transaction_sales" v])
                   = fetches (done_effects s' ++ [Fetched p])) as Hw
    by (intros p r v; rewrite (fetches_app (_ ++ _)); simpl; by rewrite app_nil_r, Hfl).
  destruct (call _) as [payload|];
    cbn [fst snd total_records current_scroll_id page done_effects raised];
    [|rewrite Hf; split; [done|by left]].
  destruct (get_if_dict payload "results") as [| | | | |[|item items]|];
    cbn [fst snd total_records current_scroll_id page done_effects raised];
    try (rewrite Hf; split; [done|by left]).
  destruct (int_conversion location_id) as [lid|];
    cbn [fst snd total_records current_scroll_id page done_effects raised];
    [|rewrite Hf; split; [done|by right]].
  destruct (filter has_price _) as [|r valid];
    cbn [fst snd total_records current_scroll_id page done_effects raised].
  - rewrite Hf, Hfl. split; [done|by left].
  - cbv zeta. rewrite ended_insert_transaction_sales_data.
    destruct (insert_fault n);
      cbn [fst snd total_records current_scroll_id page done_effects raised];
      rewrite Hf, Hw; (split; [done|]); [by right|by left].
Qed.

(** A dry run never raises and only adds to what it has sent. *)
Lemma dry_fetch_grows json_dumps int_conversion insert_fault location_id measurement
    transaction_type page_size call xs s :
  let r := for_each xs (fetch_page json_dumps int_conversion insert_fault location_id
                          measurement transaction_type page_size true call) s in
  raised r = raised s ∧ fetches (done_effects s) `prefix_of` fetches (done_effects r).
Proof.
  apply (for_each_invariant
           (λ r, raised r = raised s
                 ∧ fetches (done_effects s) `prefix_of` fetches (done_effects r)));
    [done|].
  intros n r [Hr Hpre]. unfold fetch_page, next_page.
  assert (∀ p, fetches (done_effects s) `prefix_of` fetches (done_effects r ++ [Fetched p]))
    as Hf.
  { intros p. rewrite fetches_app. etrans; [exact Hpre|]. by apply prefix_app_r. }
  destruct (call _) as [payload|]; cbn [fst raised done_effects];
    [|split; [done|apply Hf]].
  destruct (get_if_dict payload "results") as [| | | | |[|item items]|];
    cbn [fst raised done_effects]; (split; [done|apply Hf]).
Qed.

(** The two loops side by side. *)
Lemma dry_wet_loop json_dumps int_conversion insert_fault location_id measurement
    transaction_type page_size call xs : ∀ s s',
  same_requests s s' → raised s' = false →
  let d := for_each xs (fetch_page json_dumps int_conversion insert_fault location_id
                          measurement transaction_type page_size true call) s in
  let w := for_each xs (fetch_page json_dumps int_conversion insert_fault location_id
                          measurement transaction_type page_size false call) s' in
  fetches (done_effects w) `prefix_of` fetches (done_effects d)
  ∧ (raised w = false → same_requests d w).
Proof.
  induction xs as [|n xs IH]; intros s s' Hs Hr; cbn [for_each].
  - split; [|done]. destruct Hs as (_ & _ & _ & He). by rewrite He.
  - destruct (fetch_page_dry_wet json_dumps int_conversion insert_fault location_id
                measurement transaction_type page_size call n s s' Hs) as [Hf Hcase].
    destruct (fetch_page _ _ _ _ _ _ _ true _ n s) as [s1 c] eqn:Hd.
    destruct (fetch_page _ _ _ _ _ _ _ false _ n s') as [s1' c'] eqn:Hw.
    cbn [fst snd] in *.
    destruct Hcase as [(Hs1 & -> & Hr1)|[-> Hr1]].
    + destruct c'; [apply IH; [done|congruence]|].
      split; [by rewrite Hf|done].
    + split; [|congruence]. rewrite <-Hf.
      destruct c; [|done].
      apply (dry_fetch_grows json_dumps int_conversion insert_fault location_id
               measurement transaction_type page_size call xs s1).
Qed.

(** X22.  One location and one parameter set never cost more than
    [max_pages] requests.  The requests of the normal run are the first
    requests of the dry run, in the same order; and unless the normal run
    leaves through its outer handler (as it does exactly when
    [int(location_id)] or an insert raises on a page with results), the
    dry run sends the same requests and counts the same records. *)
Theorem sales_fetch_requests (json_dumps : value → string)
    (int_conversion : value → option Z) (insert_fault : nat → bool) (call : api)
    (table : list (list value)) (location_id : value)
    (measurement transaction_type : string) (max_pages page_size : Z) (dry_run : bool) :
  let run := _fetch_and_process_one json_dumps int_conversion insert_fault call table
               location_id measurement transaction_type max_pages page_size in
  TransactionRent.requests (done_effects (run dry_run)) ≤ Z.to_nat max_pages
  ∧ fetches (done_effects (run false)) `prefix_of` fetches (done_effects (run true))
  ∧ (raised (run false) = false →
     fetches (done_effects (run true)) = fetches (done_effects (run false))
     ∧ returned_records (run true) = returned_records (run false))
  ∧ (is_Some (int_conversion location_id) → (∀ n, insert_fault n = false) →
     raised (run false) = false).
Proof.
  cbv zeta. unfold _fetch_and_process_one.
  match goal with |- context [for_each ?xs _ ?s0] =>
    pose proof (dry_wet_loop json_dumps int_conversion insert_fault location_id
                  measurement transaction_type page_size call xs s0 s0) as Hloop;
    pose proof (dry_fetch_grows json_dumps int_conversion insert_fault location_id
                  measurement transaction_type page_size call xs s0) as [Hdry _]
  end.
  destruct Hloop as [Hpre Hsame]; [done|done|].
  split_and!.
  - etrans; [apply (for_each_bounded (λ s, TransactionRent.requests (done_effects s)))|].
    + intros n s. by rewrite sales_fetch_page_requests.
    + by rewrite length_seq.
  - exact Hpre.
  - intros Hr. destruct (Hsame Hr) as (Ht & _ & _ & He).
    split; [done|]. unfold returned_records. by rewrite Hr, Hdry, Ht.
  - intros [lid Hlid] Hfault.
    apply (for_each_invariant (λ s, raised s = false)); [done|].
    intros n s Hs. unfold fetch_page, next_page. rewrite Hlid.
    destruct (call _) as [payload|]; [|done].
    destruct (get_if_dict payload "results") as [| | | | |[|item items]|]; try done.
    destruct (filter has_price _) as [|r valid]; [done|].
    cbv zeta. rewrite ended_insert_transaction_sales_data, Hfault. done.
Qed.

(** *** The default entry point: [process_transaction_sales] (lines 196-323) *)

Section ProcessTransactionSales.
Variable json_dumps : value → string.
(** [str(x)]. *)
Variable py_str : value → string.
(** [int(x)]: the integer, [None] where [int] raises. *)
Variable int_conversion : value → option Z.
Variable call : api.

(** The state of the two loops of lines 255-304. *)
Record import_loop := {
  loc_scroll_id : value;            (* [current_scroll_id] *)
  loc_page : Z;                     (* [page] *)
  all_processed_data : list record;
  import_effects : list effect;
  import_raised : bool              (* an exception is on its way to line 321 *)
}.

(** One iteration of [for _ in range(max_pages)] (lines 260-302).  An API
    call that raises ends the loop of its location; [int(loc_id)] that
    raises has no handler but the outer one.  Nothing here looks at
    [dry_run]. *)
Definition location_page (loc_id : value) (measurement transaction_type currency : string)
    (property_type bedroom size_range price_range transaction_date : value)
    (page_size : Z) (_ : nat) (s : import_loop) : import_loop * control :=
  let params := _build_params loc_id (loc_page s) (loc_scroll_id s) measurement
                  transaction_type (VStr currency) property_type bedroom size_range
                  price_range transaction_date page_size in
  let fetched := import_effects s ++ [Fetched params] in
  match call params with
  | None =>
      ({| loc_scroll_id := loc_scroll_id s; loc_page := loc_page s;
          all_processed_data := all_processed_data s; import_effects := fetched;
          import_raised := import_raised s |}, Break)
  | Some payload =>
      match get_if_dict payload "results" with
      | VList (item :: items) =>
          let results := item :: items in
          match int_conversion loc_id with
          | None =>
              ({| loc_scroll_id := loc_scroll_id s; loc_page := loc_page s;
                  all_processed_data := all_processed_data s; import_effects := fetched;
                  import_raised := true |}, Break)
          | Some lid =>
              let processed :=
                process_transaction_sales_data json_dumps results lid currency measurement
                  transaction_type bedroom size_range price_range transaction_date in
              let sid := get_if_dict payload "scroll_id" in
              ({| loc_scroll_id := sid; loc_page := loc_page s + 1;
                  all_processed_data := all_processed_data s ++ processed;
                  import_effects := fetched ++ [Flattened results];
                  import_raised := import_raised s |},
               if truthy sid then Continue else Break)
          end
      | _ =>
          ({| loc_scroll_id := loc_scroll_id s; loc_page := loc_page s;
              all_processed_data := all_processed_data s; import_effects := fetched;
              import_raised := import_raised s |}, Break)
      end
  end.

(** One iteration of [for loc_id in location_ids] (lines 255-304). *)
Definition location_pass (measurement transaction_type currency : string)
    (property_type bedroom size_range price_range transaction_date : value)
    (max_pages page_size : Z) (loc_id : value) (s : import_loop)
  : import_loop * control :=
  let s' := for_each (seq 0 (Z.to_nat max_pages))
              (location_page loc_id measurement transaction_type currency property_type
                 bedroom size_range price_range transaction_date page_size)
              {| loc_scroll_id := VNone; loc_page := 1;
                 all_processed_data := all_processed_data s;
                 import_effects := import_effects s; import_raised := import_raised s |} in
  (s', if import_raised s' then Break else Continue).

(** [[str(r.get("location_id")) for r in db_rows
      if r.get("location_id") is not None]] (line 243). *)
Definition location_ids_of (db_rows : list record) : list value :=
  omap (λ r, if bool_decide (get r "location_id" = VNone) then None
             else Some (VStr (py_str (get r "location_id")))) db_rows.

Record sales_run := {
  run_ended : outcome;
  run_table : list (list value);   (* [transaction_sales] after the run *)
  run_effects : list effect
}.

(** [process_transaction_sales] (lines 196-323).  [country_rows] and
    [fallback_rows] are the answers of the two [get_locations] queries and
    [insert_fault] says that the insert raises; whatever raises is logged
    and re-raised at lines 321-323.  [dry_run] is read once, at line 312. *)
Definition process_transaction_sales (insert_fault : bool)
    (country_rows fallback_rows : option (list record))
    (measurement transaction_type currency : string)
    (property_type bedroom size_range price_range transaction_date : value)
    (max_pages page_size : Z) (dry_run : bool) (table : list (list value)) : sales_run :=
  let raises := {| run_ended := Raised; run_table := table; run_effects := [] |} in
  match country_rows with
  | None => raises
  | Some rows =>
      match (match rows with [] => fallback_rows | _ => Some rows end) with
      | None => raises
      | Some db_rows =>
          match location_ids_of db_rows with
          | [] => {| run_ended := Returned; run_table := table; run_effects := [] |}
          | location_ids =>
              let s := for_each location_ids
                         (location_pass measurement transaction_type currency property_type
                            bedroom size_range price_range transaction_date max_pages
                            page_size)
                         {| loc_scroll_id := VNone; loc_page := 1; all_processed_data := [];
                            import_effects := []; import_raised := false |} in
              if import_raised s then
                {| run_ended := Raised; run_table := table;
                   run_effects := import_effects s |}
              else
                match filter has_price (all_processed_data s) with
                | [] =>
                    {| run_ended := Returned; run_table := table;
                       run_effects := import_effects s |}
                | valid_data =>
                    if dry_run then
                      {| run_ended := Returned; run_table := table;
                         run_effects := import_effects s |}
                    else
                      let w := insert_transaction_sales_data insert_fault table valid_data in
                      {| run_ended := ended w; run_table := stored w;
                         run_effects :=
                           import_effects s ++ [Wrote "transaction_sales" valid_data] |}
                end
          end
      end
  end.

(** The page loops write nothing. *)
Lemma location_pass_no_write measurement transaction_type currency property_type bedroom
    size_range price_range transaction_date max_pages page_size loc_id s :
  Forall (λ e, is_write e = false) (import_effects s) →
  Forall (λ e, is_write e = false)
    (import_effects (location_pass measurement transaction_type currency property_type
                       bedroom size_range price_range transaction_date max_pages page_size
                       loc_id s).1).
Proof.
  intros Hs. unfold location_pass. cbn [fst].
  apply (for_each_invariant (λ s, Forall (λ e, is_write e = false) (import_effects s)));
    [done|].
  clear s Hs. intros n s Hs. unfold location_page.
  match goal with |- context [import_effects s ++ [Fetched ?p]] =>
    assert (Forall (λ e, is_write e = false) (import_effects s ++ [Fetched p])) as Hf
      by (apply Forall_app; split; [done|by apply Forall_singleton])
  end.
  destruct (call _) as [payload|]; [|done].
  destruct (get_if_dict payload "results") as [| | | | |[|item items]|]; try done.
  destruct (int_conversion loc_id) as [lid|]; [|done].
  cbn [fst import_effects]. apply Forall_app. split; [done|by apply Forall_singleton].
Qed.

(** A dry run of the default entry point leaves the table as it is and
    does everything the normal run does but the insert. *)
Lemma process_transaction_sales_dry insert_fault country_rows fallback_rows measurement
    transaction_type currency property_type bedroom size_range price_range
    transaction_date max_pages page_size table :
  let run := process_transaction_sales insert_fault country_rows fallback_rows measurement
               transaction_type currency property_type bedroom size_range price_range
               transaction_date max_pages page_size in
  run_table (run true table) = table
  ∧ run_effects (run true table)
    = List.filter (λ e, negb (is_write e)) (run_effects (run false table))
  ∧ Forall (λ e, is_write e = false) (run_effects (run true table)).
Proof.
  cbv zeta. unfold process_transaction_sales.
  destruct country_rows as [rows|]; [|done].
  destruct (match rows with [] => fallback_rows | _ => Some rows end) as [db_rows|];
    [|done].
  destruct (location_ids_of db_rows) as [|loc_id location_ids]; [done|].
  match goal with |- context [for_each ?xs ?f ?s0] =>
    assert (Forall (λ e, is_write e = false) (import_effects (for_each xs f s0))) as Hs
      by (apply (for_each_invariant
                   (λ s, Forall (λ e, is_write e = false) (import_effects s)));
          [done|intros x s; apply location_pass_no_write]);
    generalize dependent (for_each xs f s0)
  end.
  intros s Hs.
  assert (List.filter (λ e, negb (is_write e)) (import_effects s) = import_effects s)
    as Hkeep.
  { induction Hs as [|e l He Hl IH]; [done|]. simpl. by rewrite He, IH. }
  destruct (import_raised s); [done|].
  destruct (filter has_price _) as [|r valid]; [done|].
  cbn [run_table run_effects]. split_and!; [done| |done].
  by rewrite List.filter_app, Hkeep, app_nil_r.
Qed.

End ProcessTransactionSales.

(** *** The batch mode: [process_transaction_sales_batch] (lines 122-194) *)

(** The parameter lists of [__init__] (lines 39-40). *)
Record TransactionSalesImporter := {
  measurements : list string;
  transaction_types : list string
}.

Definition TransactionSalesImporter_init : TransactionSalesImporter :=
  {| measurements := ["int"; "imp"];
     transaction_types := ["Sales - Ready"; "Sales - Off-Plan"] |}.

(** [generate_parameter_combinations] (lines 47-56): the measurement and
    the transaction type of each parameter set. *)
Definition generate_parameter_combinations (self : TransactionSalesImporter)
  : list (string * string) :=
  measurement ← measurements self;
  transaction_type ← transaction_types self;
  [(measurement, transaction_type)].

Record batch_run := {
  batch_table : list (list value);   (* [transaction_sales] so far *)
  batch_effects : list effect;
  batch_records : nat;               (* [total_records] *)
  batch_successful : nat             (* [successful_requests] *)
}.

Section Batch.
Variable json_dumps : value → string.
Variable int_conversion : value → option Z.
(** Whether the insert made for task [i] in pass [n] of its page loop
    raises. *)
Variable insert_fault : nat → nat → bool.
Variable call : api.

(** One future of lines 176-184, the futures taken in the order of their
    submission.  [_fetch_and_process_one] catches what is raised in it, so
    every future counts as successful. *)
Definition batch_task (max_pages page_size : Z) (dry_run : bool) (s : batch_run)
    (task : nat * (value * (string * string))) : batch_run :=
  let '(i, (location_id, (measurement, transaction_type))) := task in
  let r := _fetch_and_process_one json_dumps int_conversion (insert_fault i) call
             (batch_table s) location_id measurement transaction_type max_pages page_size
             dry_run in
  {| batch_table := transaction_sales r;
     batch_effects := batch_effects s ++ done_effects r;
     batch_records := batch_records s + returned_records r;
     batch_successful := batch_successful s + 1 |}.

(** [locations] is what [get_locations] returned (the empty list when the
    query failed), each with its [location_id]. *)
Definition process_transaction_sales_batch (self : TransactionSalesImporter)
    (max_pages page_size : Z) (dry_run : bool) (locations : list record)
    (table : list (list value)) : batch_run :=
  let start := {| batch_table := table; batch_effects := []; batch_records := 0;
                  batch_successful := 0 |} in
  match locations with
  | [] => start
  | _ =>
      let location_ids := (λ loc, get loc "location_id") <$> locations in
      let all_tasks :=
        location_id ← location_ids;
        param_set ← generate_parameter_combinations self;
        [(location_id, param_set)] in
      foldl (batch_task max_pages page_size dry_run) start (imap pair all_tasks)
  end.

(** A dry run of the batch mode leaves the table as it is and does nothing
    but call the API. *)
Lemma process_transaction_sales_batch_dry self max_pages page_size locations table :
  let r := process_transaction_sales_batch self max_pages page_size true locations table in
  batch_table r = table ∧ Forall (λ e, is_fetch e = true) (batch_effects r).
Proof.
  cbv zeta. unfold process_transaction_sales_batch.
  destruct locations as [|loc locations]; [done|].
  apply (foldl_invariant
           (λ s, batch_table s = table ∧ Forall (λ e, is_fetch e = true) (batch_effects s)));
    [done|].
  intros s [i [location_id [measurement transaction_type]]] [Ht He].
  unfold batch_task. cbn [batch_table batch_effects].
  destruct (_fetch_and_process_one_dry json_dumps int_conversion (insert_fault i) call
              (batch_table s) location_id measurement transaction_type max_pages page_size)
    as [Ht' He'].
  split; [congruence|]. by apply Forall_app.
Qed.

End Batch.

End TransactionSales.

(** ** The transaction list importer: [src Extract/import_transaction_list.py] *)

Module TransactionList.
Import Database.

(** The parameter lists of [__init__] (lines 66-69). *)
Record TransactionListImporter := {
  property_types : list string;
  activity_types : list string;
  currencies : list string;
  measurements : list string
}.

Definition TransactionListImporter_init : TransactionListImporter :=
  {| property_types := ["residential"; "office"];
     activity_types := ["ready"; "off-plan"; "mortgage"; "off-plan-mortgage"];
     currencies := ["aed"];
     measurements := ["imp"] |}.

Record param_set := {
  property_type : string;
  activity_type : string;
  currency : string;
  measurement : string
}.

(** [generate_parameter_combinations] (lines 111-132). *)
Definition generate_parameter_combinations (self : TransactionListImporter)
  : list param_set :=
  pt ← property_types self;
  act ← activity_types self;
  cur ← currencies self;
  meas ← measurements self;
  [ {| property_type := pt; activity_type := act; currency := cur; measurement := meas |} ].

(** The keyword arguments of [fetch_transactions_list]. *)
Definition request (country_code : string) (location_id : value) (p : param_set)
  : list (string * value) :=
  [ ("country_code", VStr country_code); ("location_id", location_id);
    ("property_type", VStr (property_type p)); ("activity_type", VStr (activity_type p));
    ("currency", VStr (currency p)); ("measurement", VStr (measurement p)) ].

(** The characters of a string, as [for c in s] yields them. *)
Fixpoint characters (s : string) : list value :=
  match s with
  | EmptyString => []
  | String c s' => VStr (String c EmptyString) :: characters s'
  end.

(** What [for item in raw_data] runs through: the elements of a list, the
    keys of a dict, the characters of a string; any other value raises
    [TypeError] ([None]). *)
Definition iterate (raw_data : value) : option (list value) :=
  match raw_data with
  | VList l => Some l
  | VDict d => Some (VStr <$> d.*1)
  | VStr s => Some (characters s)
  | _ => None
  end.

Section Etl.
(** The remote API: the answer to a request, [None] when the call raises. *)
Variable call : list (string * value) → option value.
(** [DataProcessor.process_transaction_list_data] on the elements it runs
    through: every element is handled inside its own [try], so the
    function is total on them. *)
Variable process_transaction_list_data :
  list value → value → param_set → list record.
(** [DatabaseManager.insert_transaction_list_data], an insert with
    [ON CONFLICT ... DO UPDATE]. *)
Variable insert_transaction_list_data : list (list value) → list record → db_result.

Record etl_state := {
  total_records : nat;
  successful_requests : nat;
  failed_requests : nat;
  transaction_list : list (list value);
  done_effects : list effect
}.

(** The effects of one pass of the inner loop (lines 294-338) whatever the
    mode, and the records it would insert ([None] when the pass raises).
    Of a dict as [results] the loop of the processor sees the keys, which
    are strings and give no record, and [raw_data[0]] then raises
    [KeyError] (lines 1369-1370 of [processors.py]). *)
Definition fetched_and_processed (country_code : string) (location_id : value)
    (p : param_set) : list effect * option (list record) :=
  let req := request country_code location_id p in
  match call req with
  | Some (VDict response) =>
      let results := default (VList []) (assoc response "results") in
      if truthy results then
        match iterate results with
        | Some items =>
            ([Fetched req; Flattened items],
             match results with
             | VDict _ => None
             | _ => Some (process_transaction_list_data items location_id p)
             end)
        | None => ([Fetched req], None)
        end
      else ([Fetched req], Some [])
  | _ => ([Fetched req], None)
  end.

(** One pass of the inner loop for [(param_set, location)]. *)
Definition etl_step (country_code : string) (dry_run : bool) (s : etl_state)
    (task : param_set * record) : etl_state :=
  let location_id := get task.2 "location_id" in
  let '(effects, processed) := fetched_and_processed country_code location_id task.1 in
  match processed with
  | None =>
      {| total_records := total_records s; successful_requests := successful_requests s;
         failed_requests := failed_requests s + 1;
         transaction_list := transaction_list s;
         done_effects := done_effects s ++ effects |}
  | Some [] =>
      {| total_records := total_records s;
         successful_requests := successful_requests s + 1;
         failed_requests := failed_requests s;
         transaction_list := transaction_list s;
         done_effects := done_effects s ++ effects |}
  | Some processed_data =>
      if dry_run then
        {| total_records := total_records s;
           successful_requests := successful_requests s + 1;
           failed_requests := failed_requests s;
           transaction_list := transaction_list s;
           done_effects := done_effects s ++ effects |}
      else
        let w := insert_transaction_list_data (transaction_list s) processed_data in
        match ended w with
        | Returned =>
            {| total_records := total_records s + length processed_data;
               successful_requests := successful_requests s + 1;
               failed_requests := failed_requests s;
               transaction_list := stored w;
               done_effects :=
                 done_effects s ++ effects ++ [Wrote "transaction_list" processed_data] |}
        | Raised =>
            {| total_records := total_records s;
               successful_requests := successful_requests s;
               failed_requests := failed_requests s + 1;
               transaction_list := stored w;
               done_effects :=
                 done_effects s ++ effects ++ [Wrote "transaction_list" processed_data] |}
        end
  end.

(** [process_transaction_list_etl] (lines 259-345).  [locations] is what
    [get_locations] returned (the empty list when the query failed). *)
Definition process_transaction_list_etl (self : TransactionListImporter)
    (country_code : string) (dry_run : bool) (locations : list record)
    (table : list (list value)) : etl_state :=
  let start :=
    {| total_records := 0; successful_requests := 0; failed_requests := 0;
       transaction_list := table; done_effects := [] |} in
  match locations with
  | [] => start
  | _ =>
      foldl (etl_step country_code dry_run) start
            (p ← generate_parameter_combinations self; (λ loc, (p, loc)) <$> locations)
  end.

Definition not_write (e : effect) : bool := negb (is_write e).

Lemma fetched_and_processed_no_write country_code location_id p :
  List.filter not_write (fetched_and_processed country_code location_id p).1
  = (fetched_and_processed country_code location_id p).1.
Proof.
  unfold fetched_and_processed.
  destruct (call _) as [[| | | | | |response]|]; try done.
  destruct (truthy _); [|done]. by destruct (iterate _).
Qed.

(** The dry step leaves the table alone and does what the wet step does
    apart from the write. *)
Lemma etl_step_dry country_code sd sw task :
  done_effects sd = List.filter not_write (done_effects sw) →
  transaction_list (etl_step country_code true sd task) = transaction_list sd
  ∧ done_effects (etl_step country_code true sd task)
    = List.filter not_write (done_effects (etl_step country_code false sw task)).
Proof.
  intros Hrel. unfold etl_step.
  pose proof (fetched_and_processed_no_write country_code (get task.2 "location_id") task.1)
    as Hnw.
  destruct (fetched_and_processed _ _ _) as [effects processed]. simpl in Hnw.
  destruct processed as [[|r processed]|]; simpl;
    try (split; [done|]; by rewrite List.filter_app, Hnw, Hrel).
  split; [done|].
  destruct (ended _); simpl; rewrite !List.filter_app, Hnw, Hrel; simpl;
    by rewrite app_nil_r.
Qed.

Lemma etl_fold_dry country_code tasks : ∀ sd sw,
  done_effects sd = List.filter not_write (done_effects sw) →
  transaction_list (foldl (etl_step country_code true) sd tasks) = transaction_list sd
  ∧ done_effects (foldl (etl_step country_code true) sd tasks)
    = List.filter not_write (done_effects (foldl (etl_step country_code false) sw tasks)).
Proof.
  induction tasks as [|task tasks IH]; intros sd sw Hrel; simpl; [done|].
  destruct (etl_step_dry country_code sd sw task Hrel) as [Ht He].
  destruct (IH _ _ He) as [Ht' He']. split; [congruence|done].
Qed.

(** The dry run of the ETL: the table is untouched, no write is among its
    effects, and its effects are those of the normal run without the
    writes, fetches and flatten steps alike. *)
Lemma etl_dry_run self country_code locations table :
  let dry := process_transaction_list_etl self country_code true locations table in
  let wet := process_transaction_list_etl self country_code false locations table in
  transaction_list dry = table
  ∧ done_effects dry = List.filter not_write (done_effects wet)
  ∧ Forall (λ e, is_write e = false) (done_effects dry).
Proof.
  cbv zeta. unfold process_transaction_list_etl.
  assert (∀ l, Forall (λ e, is_write e = false) (List.filter not_write l)) as Hnw.
  { intros l. apply Forall_forall. intros e He%list_elem_of_In.
    apply List.filter_In in He as [_ He]. unfold not_write in He.
    by destruct (is_write e). }
  destruct locations as [|loc locations]; [by repeat split|].
  match goal with |- context [foldl _ ?s0 ?tasks] =>
    destruct (etl_fold_dry country_code tasks s0 s0 eq_refl) as [Ht He]
  end.
  split; [done|]. split; [done|]. rewrite He. apply Hnw.
Qed.

End Etl.

(** *** The counters of the ETL *)

Lemma fetched_and_processed_requests call process_transaction_list_data country_code
    location_id p :
  TransactionRent.requests (fetched_and_processed call process_transaction_list_data country_code
              location_id p).1 = 1.
Proof.
  unfold fetched_and_processed.
  destruct (call _) as [[| | | | | |response]|]; try done.
  destruct (truthy _); [|done]. by destruct (iterate _).
Qed.

Lemma etl_step_counts call process_transaction_list_data insert_transaction_list_data
    country_code dry_run s task :
  let s' := etl_step call process_transaction_list_data insert_transaction_list_data
              country_code dry_run s task in
  successful_requests s' + failed_requests s'
  = successful_requests s + failed_requests s + 1
  ∧ TransactionRent.requests (done_effects s') = TransactionRent.requests (done_effects s) + 1
  ∧ (dry_run = true → total_records s' = total_records s).
Proof.
  unfold etl_step.
  pose proof (fetched_and_processed_requests call process_transaction_list_data country_code
                (get task.2 "location_id") task.1) as Hreq.
  destruct (fetched_and_processed _ _ _ _ _) as [effects processed]. simpl in Hreq.
  destruct processed as [[|r processed]|]; simpl;
    try (rewrite TransactionRent.requests_app, Hreq; split_and!; [lia|done|done]).
  destruct dry_run; simpl; [rewrite TransactionRent.requests_app, Hreq; split_and!; [lia|done|done]|].
  destruct (ended _); simpl; rewrite !TransactionRent.requests_app, Hreq;
    (split_and!; [lia|unfold TransactionRent.requests; simpl; lia|done]).
Qed.

Lemma etl_fold_counts call process_transaction_list_data insert_transaction_list_data
    country_code dry_run tasks : ∀ s,
  let s' := foldl (etl_step call process_transaction_list_data insert_transaction_list_data
                     country_code dry_run) s tasks in
  successful_requests s' + failed_requests s'
  = successful_requests s + failed_requests s + length tasks
  ∧ TransactionRent.requests (done_effects s') = TransactionRent.requests (done_effects s) + length tasks
  ∧ (dry_run = true → total_records s' = total_records s).
Proof.
  induction tasks as [|task tasks IH]; intros s; simpl; [split_and!; [lia|lia|done]|].
  destruct (etl_step_counts call process_transaction_list_data insert_transaction_list_data
              country_code dry_run s task) as (Hc & Hr & Ht).
  destruct (IH (etl_step call process_transaction_list_data insert_transaction_list_data
                  country_code dry_run s task)) as (Hc' & Hr' & Ht').
  split_and!; [lia|lia|]. intros Hdry. rewrite Ht', Ht; done.
Qed.

Lemma length_generate_parameter_combinations self :
  length (generate_parameter_combinations self)
  = length (property_types self) * length (activity_types self)
    * length (currencies self) * length (measurements self).
Proof.
  unfold generate_parameter_combinations.
  assert (∀ {A B} (l : list A) (f : A → list B) n,
            (∀ x, length (f x) = n) → length (l ≫= f) = length l * n) as Hbind.
  { intros A B l f n Hf. induction l as [|x l IH]; [done|].
    change ((x :: l) ≫= f) with (f x ++ (l ≫= f)). rewrite length_app, IH, Hf. simpl. lia. }
  rewrite (Hbind _ _ _ _ (length (activity_types self) * length (currencies self)
                          * length (measurements self))); [lia|].
  intros pt. rewrite (Hbind _ _ _ _ (length (currencies self) * length (measurements self)));
    [lia|].
  intros act. rewrite (Hbind _ _ _ _ (length (measurements self))); [lia|].
  intros cur. rewrite (Hbind _ _ _ _ 1); [lia|]. done.
Qed.

(** X23.  The ETL makes exactly one API call for every pair of a
    parameter set and a location, and counts each pair once, as successful
    or as failed, in a dry run as in a normal run; there are as many
    parameter sets as the four lists have combinations; and a dry run
    counts no record as inserted. *)
Theorem etl_counts_every_pair (call : list (string * value) → option value)
    (process_transaction_list_data : list value → value → param_set → list record)
    (insert_transaction_list_data : list (list value) → list record → db_result)
    (self : TransactionListImporter) (country_code : string) (dry_run : bool)
    (locations : list record) (table : list (list value)) :
  let r := process_transaction_list_etl call process_transaction_list_data
             insert_transaction_list_data self country_code dry_run locations table in
  let pairs := length (property_types self) * length (activity_types self)
               * length (currencies self) * length (measurements self)
               * length locations in
  successful_requests r + failed_requests r = pairs
  ∧ TransactionRent.requests (done_effects r) = pairs
  ∧ (dry_run = true → total_records r = 0).
Proof.
  cbv zeta. unfold process_transaction_list_etl.
  destruct locations as [|loc locations];
    [cbn [length]; rewrite Nat.mul_0_r; by split_and!|].
  match goal with |- context [foldl _ ?s0 ?tasks] =>
    destruct (etl_fold_counts call process_transaction_list_data
                insert_transaction_list_data country_code dry_run tasks s0)
      as (Hc & Hr & Ht);
    assert (length tasks
            = length (generate_parameter_combinations self) * length (loc :: locations))
      as Hlen
  end.
  { generalize (generate_parameter_combinations self). intros ps.
    induction ps as [|p ps IH]; [done|].
    change ((p :: ps) ≫= ?f) with (f p ++ (ps ≫= f)).
    rewrite length_app, IH, length_fmap. simpl. lia. }
  rewrite Hlen, length_generate_parameter_combinations in Hc, Hr.
  cbv zeta in *. cbn [successful_requests failed_requests done_effects] in Hc, Hr.
  change (TransactionRent.requests []) with 0 in Hr. split_and!; [lia|lia|done].
Qed.

(** *** [_RateLimiter] (lines 35-50) *)

Record _RateLimiter := { _min_interval : Q; _next_allowed_time : Q }.

(** [__init__]: [max(min_interval_sec, 0.0)]. *)
Definition _RateLimiter_init (min_interval_sec : Q) : _RateLimiter :=
  {| _min_interval := py_max min_interval_sec 0; _next_allowed_time := 0 |}.

(** [acquire], with the clock read when the lock is held ([now]) and after
    the sleep ([woke]): the limiter after the call and the clock reading
    with which the caller goes on. *)
Definition acquire (self : _RateLimiter) (now woke : Q) : _RateLimiter * Q :=
  if Qle_bool (_min_interval self) 0 then (self, now)
  else
    let now' := if Qgtb (_next_allowed_time self) now then woke else now in
    ({| _min_interval := _min_interval self;
        _next_allowed_time := now' + _min_interval self |}, now').

(** The calls of [acquire] one after the other (the lock serializes them),
    each with its two clock readings: the readings with which the callers
    go on. *)
Fixpoint acquire_all (self : _RateLimiter) (readings : list (Q * Q)) : list Q :=
  match readings with
  | [] => []
  | (now, woke) :: readings' =>
      let '(self', t) := acquire self now woke in t :: acquire_all self' readings'
  end.

(** [time.sleep(d)] returns no earlier than [d] seconds later: a caller
    that had to sleep wakes up no earlier than the time it waited for. *)
Fixpoint sleeps_honoured (self : _RateLimiter) (readings : list (Q * Q)) : Prop :=
  match readings with
  | [] => True
  | (now, woke) :: readings' =>
      ((now < _next_allowed_time self)%Q → (_next_allowed_time self <= woke)%Q)
      ∧ sleeps_honoured (acquire self now woke).1 readings'
  end.

(** Consecutive entries are [d] apart at least. *)
Definition spaced (d : Q) (l : list Q) : Prop :=
  ∀ i t t', l !! i = Some t → l !! S i = Some t' → (t + d <= t')%Q.

Lemma acquire_spec self now woke :
  (0 < _min_interval self)%Q →
  ((now < _next_allowed_time self)%Q → (_next_allowed_time self <= woke)%Q) →
  let '(self', t) := acquire self now woke in
  _min_interval self' = _min_interval self
  ∧ (_next_allowed_time self <= t)%Q
  ∧ _next_allowed_time self' = (t + _min_interval self)%Q.
Proof.
  intros Hpos Hsleep. unfold acquire.
  destruct (Qle_bool (_min_interval self) 0) eqn:Hle.
  { apply Qle_bool_iff in Hle. lra. }
  destruct (Qgtb (_next_allowed_time self) now) eqn:Hlt.
  - apply Qgtb_true in Hlt. by split_and!; [|apply Hsleep|].
  - apply Qgtb_false in Hlt. by split_and!.
Qed.

Lemma acquire_all_spaced readings : ∀ self,
  (0 < _min_interval self)%Q → sleeps_honoured self readings →
  spaced (_min_interval self) (acquire_all self readings)
  ∧ Forall (λ t, (_next_allowed_time self <= t)%Q) (acquire_all self readings).
Proof.
  induction readings as [|[now woke] readings IH]; intros self Hpos Hsleeps.
  - split; [|constructor]. intros i t t' Hi. simpl in Hi. done.
  - destruct Hsleeps as [Hsleep Hrest]. simpl.
    pose proof (acquire_spec self now woke Hpos Hsleep) as Hspec.
    destruct (acquire self now woke) as [self' t0]. destruct Hspec as (Hint & Ht0 & Hnext).
    simpl in Hrest. pose proof Hpos as Hpos'. rewrite <-Hint in Hpos'.
    destruct (IH self' Hpos' Hrest) as [Hsp Hall].
    rewrite Hint in Hsp. split.
    + intros [|i] t t' Hi Hi'; simpl in *.
      * injection Hi as <-. destruct (acquire_all self' readings) as [|t1 l]; [done|].
        injection Hi' as <-. inversion Hall as [|? ? Ht1 _]; subst. rewrite Hnext in Ht1.
        exact Ht1.
      * by apply (Hsp i).
    + constructor; [done|]. eapply Forall_impl; [exact Hall|].
      intros t Ht. simpl in Ht. rewrite Hnext in Ht. lra.
Qed.

(** X24.  With a positive interval, and sleeps that last as long as
    asked, the callers of [acquire] go on at least one interval apart, one
    after the other, and none before the time the limiter allowed on
    entry. *)
Theorem acquire_keeps_callers_apart (self : _RateLimiter) (readings : list (Q * Q)) :
  (0 < _min_interval self)%Q → sleeps_honoured self readings →
  spaced (_min_interval self) (acquire_all self readings)
  ∧ Forall (λ t, (_next_allowed_time self <= t)%Q) (acquire_all self readings).
Proof. apply acquire_all_spaced. Qed.

Lemma acquire_keeps_callers_apart_witness :
  let self := _RateLimiter_init 0.25 in
  let readings : list (Q * Q) :=
    [ (100, 100); (100.1, 100.25); (100.2, 100.5); (103, 103) ]%Q in
  acquire_all self readings = [100; 100.25; 100.5; 103]%Q
  ∧ spaced (_min_interval self) (acquire_all self readings)
  ∧ Forall (λ t, (_next_allowed_time self <= t)%Q) (acquire_all self readings).
Proof.
  split; [reflexivity|].
  apply (acquire_keeps_callers_apart (_RateLimiter_init 0.25)
           [ (100, 100); (100.1, 100.25); (100.2, 100.5); (103, 103) ]%Q).
  - reflexivity.
  - simpl. repeat split; intros _; by vm_compute.
Defined.

(** *** [get_locations] (lines 82-109) *)

Section Locations.
(** [str], the conversion of Python. *)
Variable py_str : value → string.

(** [location_ids_raw] (line 93). *)
Definition location_ids_raw (db_rows : list record) : list string :=
  py_str <$> filter (λ v, v ≠ VNone) ((λ r, get r "location_id") <$> db_rows).

(** [if limit and len(location_ids) >= limit]. *)
Definition limit_reached (limit : option Z) (location_ids : list string) : bool :=
  match limit with
  | Some n => negb (n =? 0)%Z && (n <=? Z.of_nat (length location_ids))%Z
  | None => false
  end.

(** Lines 94-101: the ids in the order of their first occurrence. *)
Definition unique_location_ids (limit : option Z) (location_ids_raw : list string)
  : list string :=
  (for_each location_ids_raw
     (λ lid '(location_ids, seen_loc),
        if bool_decide (lid ∈ seen_loc) then ((location_ids, seen_loc), Continue)
        else
          let location_ids' := location_ids ++ [lid] in
          ((location_ids', seen_loc ++ [lid]),
           if limit_reached limit location_ids' then Break else Continue))
     ([], [])).1.

(** [all_rows] and [country_rows] are what the two queries return ([None]
    when the query raises); the second query is made only when the first
    returned no row.  Any exception ends in the handler, which returns the
    empty list. *)
Definition get_locations (all_rows country_rows : option (list record)) (limit : option Z)
  : list record :=
  match all_rows with
  | None => []
  | Some rows =>
      let db_rows := match rows with
                     | [] => country_rows
                     | _ => Some rows
                     end in
      match db_rows with
      | None => []
      | Some db_rows =>
          (λ lid, {[ "location_id" := VStr lid ]})
            <$> unique_location_ids limit (location_ids_raw db_rows)
      end
  end.

Lemma unique_location_ids_spec limit raw :
  let ids := unique_location_ids limit raw in
  NoDup ids ∧ ids `sublist_of` raw
  ∧ (∀ n, limit = Some n → (0 < n)%Z → length ids ≤ Z.to_nat n)
  ∧ (limit = None → ∀ lid, lid ∈ raw → lid ∈ ids).
Proof.
  unfold unique_location_ids.
  assert (∀ rest done s,
    s.2 = s.1 → NoDup s.1 → s.1 `sublist_of` done →
    (∀ n, limit = Some n → (0 < n)%Z → length s.1 < Z.to_nat n ∨ s.1 = []) →
    (∀ lid, lid ∈ done → lid ∈ s.1) →
    let s' := for_each rest
      (λ lid '(location_ids, seen_loc),
        if bool_decide (lid ∈ seen_loc) then ((location_ids, seen_loc), Continue)
        else
          let location_ids' := location_ids ++ [lid] in
          ((location_ids', seen_loc ++ [lid]),
           if limit_reached limit location_ids' then Break else Continue)) s in
    NoDup s'.1 ∧ s'.1 `sublist_of` done ++ rest
    ∧ (∀ n, limit = Some n → (0 < n)%Z → length s'.1 ≤ Z.to_nat n)
    ∧ (limit = None → ∀ lid, lid ∈ done ++ rest → lid ∈ s'.1)) as Hloop.
  { induction rest as [|lid rest IH]; intros done [ids seen] Hseen Hnd Hsub Hlim Hall;
      simpl in *; subst seen.
    - rewrite app_nil_r. split_and!; [done|done| |by intros _].
      intros n Hn Hpos. destruct (Hlim n Hn Hpos) as [?| ->]; simpl; lia.
    - destruct (bool_decide (lid ∈ ids)) eqn:Hin.
      + apply bool_decide_eq_true in Hin.
        specialize (IH (done ++ [lid]) (ids, ids) eq_refl Hnd).
        rewrite <-app_assoc in IH. simpl in IH. apply IH; [|done|].
        * by apply sublist_inserts_r.
        * intros x [Hx| ->%list_elem_of_singleton]%elem_of_app; [by apply Hall|done].
      + apply bool_decide_eq_false in Hin.
        assert (NoDup (ids ++ [lid])) as Hnd'.
        { apply NoDup_app. split; [done|]. split; [|apply NoDup_singleton].
          by intros x Hx ->%list_elem_of_singleton. }
        assert (ids ++ [lid] `sublist_of` done ++ lid :: rest) as Hsub'.
        { apply sublist_app; [done|]. apply sublist_skip, sublist_nil_l. }
        destruct (limit_reached limit (ids ++ [lid])) eqn:Hreached.
        * simpl. split_and!; [done|done| |].
          -- intros n Hn Hpos. rewrite length_app. simpl.
             destruct (Hlim n Hn Hpos) as [?| ->]; simpl; lia.
          -- intros ->. discriminate.
        * specialize (IH (done ++ [lid]) (ids ++ [lid], ids ++ [lid]) eq_refl Hnd').
          rewrite <-app_assoc in IH. simpl in IH. apply IH.
          -- by apply sublist_app.
          -- intros n Hn Hpos. left. subst limit. simpl in Hreached.
             rewrite length_app in *. simpl in *.
             apply andb_false_iff in Hreached as [Hz|Hle].
             ++ apply negb_false_iff, Z.eqb_eq in Hz. lia.
             ++ apply Z.leb_gt in Hle. lia.
          -- intros x [Hx| ->%list_elem_of_singleton]%elem_of_app;
               apply elem_of_app; [left; by apply Hall|right; apply list_elem_of_here]. }
  specialize (Hloop raw [] ([], []) eq_refl (NoDup_nil_2)). simpl in Hloop.
  apply Hloop; [done| |].
  - intros n _ _. by right.
  - intros lid Hlid. by apply elem_of_nil in Hlid.
Qed.

End Locations.

(** X25.  The locations [get_locations] returns carry pairwise different
    ids; with a limit of 1 or more there are no more than that; a first
    query that raises gives the empty list; and when the first query
    returns rows, the ids are [str] of location ids of these rows that are
    not null, in the order of the rows, and without a limit every such id
    is among them. *)
Theorem get_locations_distinct (py_str : value → string)
    (all_rows country_rows : option (list record)) (limit : option Z) :
  let locations := get_locations py_str all_rows country_rows limit in
  let ids := (λ loc, get loc "location_id") <$> locations in
  NoDup ids
  ∧ (∀ n, limit = Some n → (0 < n)%Z → length locations ≤ Z.to_nat n)
  ∧ (all_rows = None → locations = [])
  ∧ (∀ rows, all_rows = Some rows → rows ≠ [] →
       ids `sublist_of` (VStr <$> location_ids_raw py_str rows)
       ∧ (limit = None → ∀ lid, lid ∈ location_ids_raw py_str rows → VStr lid ∈ ids)).
Proof.
  cbv zeta. unfold get_locations.
  assert (∀ l : list string,
            (λ loc : record, get loc "location_id")
              <$> ((λ lid, ({[ "location_id" := VStr lid ]} : record)) <$> l)
            = VStr <$> l) as Hids.
  { intros l. rewrite <-list_fmap_compose. apply list_fmap_ext. intros i lid _. simpl.
    unfold get. by rewrite lookup_singleton_eq. }
  destruct all_rows as [rows|]; [|by split_and!; [apply NoDup_nil_2|simpl; lia| |]].
  assert (∀ db_rows,
    let ids := unique_location_ids limit (location_ids_raw py_str db_rows) in
    NoDup (VStr <$> ids)
    ∧ (∀ n, limit = Some n → (0 < n)%Z →
         length ((λ lid, ({[ "location_id" := VStr lid ]} : record)) <$> ids) ≤ Z.to_nat n)
    ∧ (VStr <$> ids) `sublist_of` (VStr <$> location_ids_raw py_str db_rows)
    ∧ (limit = None → ∀ lid, lid ∈ location_ids_raw py_str db_rows → VStr lid ∈ VStr <$> ids))
    as Hrows.
  { intros db_rows.
    destruct (unique_location_ids_spec limit (location_ids_raw py_str db_rows))
      as (Hnd & Hsub & Hlim & Hall).
    split_and!.
    - apply NoDup_fmap_2; [|done]. by intros ? ? [=].
    - intros n Hn Hpos. rewrite length_fmap. by apply Hlim.
    - by apply fmap_sublist.
    - intros Hnone lid Hlid. apply list_elem_of_fmap. exists lid. split; [done|].
      by apply Hall. }
  destruct rows as [|row rows].
  - destruct country_rows as [db_rows|].
    + rewrite Hids. destruct (Hrows db_rows) as (Hnd & Hlim & _ & _).
      split_and!; [done|done|done|]. by intros rows [= <-].
    + split_and!; [apply NoDup_nil_2|simpl; lia|done|]. by intros rows [= <-].
  - rewrite Hids. destruct (Hrows (row :: rows)) as (Hnd & Hlim & Hsub & Hall).
    split_and!; [done|done|done|]. by intros rows' [= <-] _.
Qed.

(** *** [process_transaction_list_batch] (lines 135-257) *)

Section Batch.
Variable call : list (string * value) → option value.
Variable process_transaction_list_data : list value → value → param_set → list record.
Variable insert_transaction_list_data : list (list value) → list record → db_result.

(** [_fetch_and_process_one] (lines 135-193): the number it returns (none
    when the insert raises, for which the function has no handler), the
    table and the effects.  An API call that raises is caught and gives 0. *)
Definition _fetch_and_process_one (country_code : string) (p : param_set)
    (location_id : value) (table : list (list value))
  : option nat * list (list value) * list effect :=
  let req := request country_code location_id p in
  match call req with
  | None => (Some 0, table, [Fetched req])
  | Some payload =>
      match get_if_dict payload "results" with
      | VList (item :: items) =>
          let results := item :: items in
          match process_transaction_list_data results location_id p with
          | [] => (Some 0, table, [Fetched req; Flattened results])
          | processed_data =>
              let w := insert_transaction_list_data table processed_data in
              (match ended w with
               | Returned => Some (length processed_data)
               | Raised => None
               end,
               stored w,
               [Fetched req; Flattened results; Wrote "transaction_list" processed_data])
          end
      | _ => (Some 0, table, [Fetched req])
      end
  end.

(** One future of the pass over the locations for a parameter set (lines
    228-241), the futures taken in the order of their submission. *)
Definition batch_step (country_code : string) (p : param_set) (s : etl_state)
    (location_id : value) : etl_state :=
  let '(records_count, table, effects) :=
    _fetch_and_process_one country_code p location_id (transaction_list s) in
  match records_count with
  | Some n =>
      {| total_records := total_records s + n;
         successful_requests := successful_requests s + 1;
         failed_requests := failed_requests s;
         transaction_list := table;
         done_effects := done_effects s ++ effects |}
  | None =>
      {| total_records := total_records s;
         successful_requests := successful_requests s;
         failed_requests := failed_requests s + 1;
         transaction_list := table;
         done_effects := done_effects s ++ effects |}
  end.

(** [locations] is what [get_locations] returned, each with its
    [location_id]. *)
Definition process_transaction_list_batch (self : TransactionListImporter)
    (country_code : string) (dry_run : bool) (locations : list record)
    (table : list (list value)) : etl_state :=
  let start :=
    {| total_records := 0; successful_requests := 0; failed_requests := 0;
       transaction_list := table; done_effects := [] |} in
  match locations with
  | [] => start
  | _ =>
      let location_ids := (λ loc, get loc "location_id") <$> locations in
      foldl (λ s p,
               if dry_run then
                 {| total_records := total_records s;
                    successful_requests := successful_requests s + length location_ids;
                    failed_requests := failed_requests s;
                    transaction_list := transaction_list s;
                    done_effects := done_effects s |}
               else foldl (batch_step country_code p) s location_ids)
            start (generate_parameter_combinations self)
  end.

Lemma batch_step_counts country_code p s location_id :
  let s' := batch_step country_code p s location_id in
  successful_requests s' + failed_requests s'
  = successful_requests s + failed_requests s + 1
  ∧ TransactionRent.requests (done_effects s') = TransactionRent.requests (done_effects s) + 1
  ∧ failed_requests s' + length (List.filter is_write (done_effects s))
    ≤ failed_requests s + length (List.filter is_write (done_effects s')).
Proof.
  unfold batch_step, _fetch_and_process_one.
  assert (∀ l l' : list effect,
            length (List.filter is_write (l ++ l'))
            = length (List.filter is_write l) + length (List.filter is_write l')) as Hw
    by (intros l l'; by rewrite List.filter_app, length_app).
  destruct (call _) as [payload|]; simpl;
    [|rewrite TransactionRent.requests_app, Hw; unfold TransactionRent.requests; simpl; split_and!; lia].
  destruct (get_if_dict payload "results") as [| | | | |[|item items]|]; simpl;
    try (rewrite TransactionRent.requests_app, Hw; unfold TransactionRent.requests; simpl; split_and!; lia).
  destruct (process_transaction_list_data _ _ _) as [|r l]; simpl;
    [rewrite TransactionRent.requests_app, Hw; unfold TransactionRent.requests; simpl; split_and!; lia|].
  destruct (ended _); simpl; rewrite TransactionRent.requests_app, Hw; unfold TransactionRent.requests; simpl;
    split_and!; lia.
Qed.

Lemma batch_fold_counts country_code p location_ids : ∀ s,
  let s' := foldl (batch_step country_code p) s location_ids in
  successful_requests s' + failed_requests s'
  = successful_requests s + failed_requests s + length location_ids
  ∧ TransactionRent.requests (done_effects s') = TransactionRent.requests (done_effects s) + length location_ids
  ∧ failed_requests s' + length (List.filter is_write (done_effects s))
    ≤ failed_requests s + length (List.filter is_write (done_effects s')).
Proof.
  induction location_ids as [|location_id location_ids IH]; intros s; simpl;
    [split_and!; lia|].
  destruct (batch_step_counts country_code p s location_id) as (Hc & Hr & Hf).
  destruct (IH (batch_step country_code p s location_id)) as (Hc' & Hr' & Hf').
  cbv zeta in *. split_and!; lia.
Qed.

End Batch.

(** X26.  [process_transaction_list_batch] counts every pair of a
    parameter set and a location once, as successful or as failed.  In a
    dry run it calls nothing and writes nothing: every pair counts as
    successful.  Otherwise it makes exactly one API call for every pair,
    and a pair is counted as failed only where an insert was made: an API
    call that raises is counted as successful. *)
Theorem list_batch_counts_every_pair (call : list (string * value) → option value)
    (process_transaction_list_data : list value → value → param_set → list record)
    (insert_transaction_list_data : list (list value) → list record → db_result)
    (self : TransactionListImporter) (country_code : string) (dry_run : bool)
    (locations : list record) (table : list (list value)) :
  let r := process_transaction_list_batch call process_transaction_list_data
             insert_transaction_list_data self country_code dry_run locations table in
  let pairs := length (generate_parameter_combinations self) * length locations in
  successful_requests r + failed_requests r = pairs
  ∧ failed_requests r ≤ length (List.filter is_write (done_effects r))
  ∧ TransactionRent.requests (done_effects r) = (if dry_run then 0 else pairs)
  ∧ (dry_run = true →
     done_effects r = [] ∧ transaction_list r = table ∧ failed_requests r = 0
     ∧ total_records r = 0).
Proof.
  cbv zeta. unfold process_transaction_list_batch.
  destruct locations as [|loc locations];
    [cbn [length]; rewrite Nat.mul_0_r; split_and!; try done; by destruct dry_run|].
  set (location_ids := (λ loc0 : record, get loc0 "location_id") <$> loc :: locations).
  assert (length location_ids = length (loc :: locations)) as Hlen
    by (subst location_ids; by rewrite length_fmap).
  rewrite <-Hlen. clearbody location_ids. clear Hlen.
  generalize (generate_parameter_combinations self). intros ps.
  match goal with |- context [foldl ?f ?s0 ps] =>
    assert (∀ s,
      let s' := foldl f s ps in
      successful_requests s' + failed_requests s'
      = successful_requests s + failed_requests s + length ps * length location_ids
      ∧ failed_requests s' + length (List.filter is_write (done_effects s))
        ≤ failed_requests s + length (List.filter is_write (done_effects s'))
      ∧ TransactionRent.requests (done_effects s')
        = TransactionRent.requests (done_effects s) + (if dry_run then 0 else length ps * length location_ids)
      ∧ (dry_run = true →
         done_effects s' = done_effects s ∧ transaction_list s' = transaction_list s
         ∧ failed_requests s' = failed_requests s ∧ total_records s' = total_records s))
      as Hfold
  end.
  { induction ps as [|p ps IH]; intros s.
    - simpl. split_and!; try lia; [by destruct dry_run|done].
    - cbn [foldl]. destruct dry_run.
      + match goal with |- context [foldl _ ?s1 ps] =>
          destruct (IH s1) as (Hc & Hf & Hr & Hd)
        end.
        destruct (Hd eq_refl) as (He & Ht & Hfl & Htot).
        cbv zeta in *. cbn [successful_requests failed_requests done_effects
                            transaction_list total_records length] in *.
        split_and!; [lia|lia|lia|done].
      + destruct (batch_fold_counts call process_transaction_list_data
                    insert_transaction_list_data country_code p location_ids s)
          as (Hc1 & Hr1 & Hf1).
        match goal with |- context [foldl _ ?s1 ps] =>
          destruct (IH s1) as (Hc & Hf & Hr & _)
        end.
        cbv zeta in *. cbn [length]. split_and!; [lia|lia|lia|done]. }
  match goal with |- context [foldl _ ?s0 ps] => destruct (Hfold s0) as (Hc & Hf & Hr & Hd) end.
  cbv zeta in *. cbn [successful_requests failed_requests done_effects transaction_list
                      total_records] in *.
  change (TransactionRent.requests []) with 0 in Hr. simpl in Hf.
  split_and!; [lia|lia|by destruct dry_run|done].
Qed.

(** A dry run of the batch mode calls nothing and writes nothing. *)
Lemma list_batch_dry_run (call : list (string * value) → option value)
    (process_transaction_list_data : list value → value → param_set → list record)
    (insert_transaction_list_data : list (list value) → list record → db_result)
    (self : TransactionListImporter) (country_code : string)
    (locations : list record) (table : list (list value)) :
  let r := process_transaction_list_batch call process_transaction_list_data
             insert_transaction_list_data self country_code true locations table in
  done_effects r = [] ∧ transaction_list r = table.
Proof.
  cbv zeta. unfold process_transaction_list_batch.
  destruct locations as [|loc locations]; [done|].
  generalize (generate_parameter_combinations self). intros ps.
  match goal with |- context [foldl ?f ?s0 ps] =>
    assert (∀ s, done_effects (foldl f s ps) = done_effects s
                 ∧ transaction_list (foldl f s ps) = transaction_list s) as Hfold;
      [|apply (Hfold s0)]
  end.
  induction ps as [|p ps IH]; intros s; [done|].
  cbn [foldl]. match goal with |- context [foldl _ ?s1 ps] => by destruct (IH s1) as [-> ->] end.
Qed.

End TransactionList.

(** ** The API client: [src/utils/api_client.py] *)

Module ApiClient.

(** How one attempt of [get] ends: with the decoded answer; with an
    exception raised once [response] is bound ([raise_for_status], or
    [json()] on an answer that cannot be decoded), the response having the
    given status; or with an exception of [session.get] itself (a timeout,
    a refused connection), which leaves [response] as the attempt before
    left it. *)
Inductive outcome :=
| Answered (data : value)
| Failed (status_code : Z)
| NoResponse.

Inductive get_result :=
| Returns (data : value)
| Raises
| ReturnsNone.   (* the loop ends without [return] or [raise] *)

(** The state of the loop of [get]. *)
Record get_state := {
  response : option Z;   (* the status of [response], once it is bound *)
  result : get_result;
  sent : nat;            (* the requests sent so far *)
  slept : list Q         (* the waits of [time.sleep], in order *)
}.

(** One pass of [for attempt in range(max_retries + 1)] (lines 30-64). *)
Definition attempt_pass (outcomes : nat → outcome) (max_retries : Z) (retry_delay : Q)
    (attempt : nat) (s : get_state) : get_state * control :=
  let handler (response : option Z) : get_state * control :=
    if bool_decide (response = Some 429%Z) && (Z.of_nat attempt <? max_retries)%Z
    then ({| response := response; result := result s; sent := sent s + 1;
             slept := slept s ++ [(retry_delay * inject_Z (2 ^ Z.of_nat attempt))%Q] |},
          Continue)
    else ({| response := response; result := Raises; sent := sent s + 1;
             slept := slept s |}, Break) in
  match outcomes attempt with
  | Answered data =>
      ({| response := Some 200%Z; result := Returns data; sent := sent s + 1;
          slept := slept s |}, Break)
  | Failed status_code => handler (Some status_code)
  | NoResponse => handler (response s)
  end.

(** [get(endpoint, params, max_retries, retry_delay)]; [outcomes k] is how
    attempt [k] ends. *)
Definition get (outcomes : nat → outcome) (max_retries : Z) (retry_delay : Q) : get_state :=
  for_each (seq 0 (Z.to_nat (max_retries + 1)))
    (attempt_pass outcomes max_retries retry_delay)
    {| response := None; result := ReturnsNone; sent := 0; slept := [] |}.

(** The waits of an exponential backoff: [retry_delay * 2**k] for the
    retries 0, 1, ... *)
Definition backoff (retry_delay : Q) (retries : nat) : list Q :=
  (λ k, retry_delay * inject_Z (2 ^ Z.of_nat k))%Q <$> seq 0 retries.

Lemma length_backoff retry_delay retries : length (backoff retry_delay retries) = retries.
Proof. unfold backoff. by rewrite length_fmap, length_seq. Qed.

(** A failure after which [get] sends the request again: a response of
    status 429, or, after an earlier one, an exception of [session.get]
    itself, for which line 40 finds the response of the attempt before. *)
Definition retried (outcomes : nat → outcome) (j : nat) : Prop :=
  outcomes j = Failed 429%Z ∨ (outcomes j = NoResponse ∧ 0 < j).

(** What the loop keeps true before attempt [k]. *)
Definition get_invariant (outcomes : nat → outcome) (max_retries : Z) (retry_delay : Q)
    (k : nat) (s : get_state) : Prop :=
  sent s = k ∧ slept s = backoff retry_delay k ∧ result s = ReturnsNone
  ∧ (Z.of_nat k <= max_retries + 1)%Z
  ∧ (k = 0 → response s = None)
  ∧ (∀ j, j < k → retried outcomes j).

Lemma get_loop outcomes max_retries retry_delay n : ∀ k s,
  get_invariant outcomes max_retries retry_delay k s →
  Z.of_nat (k + n) = (max_retries + 1)%Z →
  let s' := for_each (seq k n) (attempt_pass outcomes max_retries retry_delay) s in
  sent s' ≤ k + n
  ∧ slept s' = backoff retry_delay (length (slept s'))
  ∧ length (slept s') + (if result s' is ReturnsNone then 0 else 1) = sent s'
  ∧ (result s' = ReturnsNone → n = 0)
  ∧ (∀ data, result s' = Returns data → outcomes (sent s' - 1) = Answered data)
  ∧ (∀ j, j < length (slept s') → retried outcomes j).
Proof.
  induction n as [|n IH]; intros k s (Hsent & Hslept & Hres & Hk & Hresp & Hprev) Hn; simpl.
  - rewrite Hslept, Hres, Hsent. rewrite !length_backoff.
    split_and!; [lia|done|lia|done|done|done].
  - destruct (attempt_pass outcomes max_retries retry_delay k s) as [s1 c] eqn:Hpass.
    unfold attempt_pass in Hpass.
    assert (∀ r,
      (r = Some 429%Z → retried outcomes k) →
      (if bool_decide (r = Some 429%Z) && (Z.of_nat k <? max_retries)%Z
       then ({| response := r; result := result s; sent := sent s + 1;
                slept := slept s ++ [(retry_delay * inject_Z (2 ^ Z.of_nat k))%Q] |},
             Continue)
       else ({| response := r; result := Raises; sent := sent s + 1;
                slept := slept s |}, Break)) = (s1, c) →
      let s' := match c with
                | Break => s1
                | Continue => for_each (seq (S k) n)
                                (attempt_pass outcomes max_retries retry_delay) s1
                end in
      sent s' ≤ k + S n
      ∧ slept s' = backoff retry_delay (length (slept s'))
      ∧ length (slept s') + (if result s' is ReturnsNone then 0 else 1) = sent s'
      ∧ (result s' = ReturnsNone → S n = 0)
      ∧ (∀ data, result s' = Returns data → outcomes (sent s' - 1) = Answered data)
      ∧ (∀ j, j < length (slept s') → retried outcomes j))
      as Hhandler.
    { clear Hpass. intros r Hr.
      destruct (bool_decide (r = _) && _) eqn:Hretry; intros [= <- <-].
      - apply andb_true_iff in Hretry as [Hstatus Hlt].
        apply bool_decide_eq_true in Hstatus. apply Z.ltb_lt in Hlt.
        match goal with |- context [for_each _ _ ?s1] =>
          assert (get_invariant outcomes max_retries retry_delay (S k) s1) as Hinv
        end.
        { unfold get_invariant. simpl. split_and!; [lia| |done|lia|done|].
          - rewrite Hslept. unfold backoff. by rewrite seq_S, fmap_app.
          - intros j Hj. destruct (decide (j = k)) as [->|]; [by apply Hr|].
            apply Hprev. lia. }
        destruct (IH (S k) _ Hinv) as (H1 & H2 & H3 & H4 & H5 & H6); [lia|].
        split_and!; [lia|done|done| |done|done].
        intros Hnone. specialize (H4 Hnone). lia.
      - simpl. rewrite Hslept, Hsent, !length_backoff.
        split_and!; [lia|done|lia|done|done|done]. }
    destruct (outcomes k) as [data| status_code|] eqn:Hout.
    + injection Hpass as <- <-. simpl. rewrite Hslept, Hsent, !length_backoff.
      split_and!; [lia|done|lia|done| |done].
      intros data' [= <-]. by replace (k + 1 - 1) with k by lia.
    + apply (Hhandler (Some status_code)); [|done].
      intros [= ->]. by left.
    + apply (Hhandler (response s)); [|done].
      intros H429. right. split; [done|].
      destruct k; [|lia]. rewrite Hresp in H429; done.
Qed.

(** X27.  [get] sends no more than [max_retries + 1] requests, one more
    than it waits unless it sends none; it waits [retry_delay], twice
    that, four times that, ... ; each request it sends again had a
    response of status 429, or no response after an earlier 429; what it
    returns is the answer of its last request; and it ends without an
    answer and without an exception exactly when [max_retries] is
    negative. *)
Theorem get_backs_off (outcomes : nat → outcome) (max_retries : Z) (retry_delay : Q) :
  let r := get outcomes max_retries retry_delay in
  sent r ≤ Z.to_nat (max_retries + 1)
  ∧ slept r = backoff retry_delay (length (slept r))
  ∧ length (slept r) + (if result r is ReturnsNone then 0 else 1) = sent r
  ∧ (result r = ReturnsNone ↔ (max_retries < 0)%Z)
  ∧ (∀ data, result r = Returns data → outcomes (sent r - 1) = Answered data)
  ∧ (∀ j, j < length (slept r) → retried outcomes j).
Proof.
  unfold get. destruct (decide (max_retries < 0)%Z) as [Hneg|Hpos].
  - replace (Z.to_nat (max_retries + 1)) with 0 by lia. simpl.
    split_and!; [lia|done|done|done|done|]. intros j Hj. lia.
  - match goal with |- context [for_each _ _ ?s0] =>
      destruct (get_loop outcomes max_retries retry_delay (Z.to_nat (max_retries + 1)) 0 s0)
        as (H1 & H2 & H3 & H4 & H5 & H6)
    end.
    + unfold get_invariant. simpl. split_and!; [done|done|done|lia|done|].
      intros j Hj. lia.
    + lia.
    + split_and!; [exact H1|exact H2|exact H3| |exact H5|exact H6].
      split; [|lia]. intros Hnone. specialize (H4 Hnone). lia.
Qed.

End ApiClient.

(** ** Properties that span several importers *)

Lemma flush_buffer_snoc l r : CmaSales._flush_buffer (l ++ [r]) = [l ++ [r]].
Proof. by destruct l. Qed.

Lemma flush_batch_snoc l r : Cma2Rents._flush_batch_to_db (l ++ [r]) = [l ++ [r]].
Proof. by destruct l. Qed.

(** C7.  In both flusher threads: a record that brings the buffer to
    [batch_size] makes the pass flush the whole buffer at once; a buffer
    that is not empty is flushed by a pass that received nothing, in the
    CMA sales worker once more than 30 seconds have gone by since the last
    flush, in the CMA2 rents worker at once; and on the shutdown signal
    (the sentinel, or [processing_complete] for the CMA sales worker) the
    worker finishes with the buffered partial batch flushed. *)
Theorem flush_triggers (batch_size : Z) :
  (∀ (w : CmaSales.flusher) (p : CmaSales.pass) (r : record),
     CmaSales.received p = Some (CmaSales.Single r) →
     (batch_size ≤ Z.of_nat (length (CmaSales.buffer w ++ [r])))%Z →
     CmaSales.flusher_pass batch_size w p
     = ({| CmaSales.buffer := []; CmaSales.last_flush_time := CmaSales.now_flushed p |},
        [CmaSales.buffer w ++ [r]], Continue))
  ∧ (∀ (w : CmaSales.flusher) (p : CmaSales.pass),
       CmaSales.received p = None → CmaSales.buffer w ≠ [] →
       (30 < CmaSales.now p - CmaSales.last_flush_time w)%Q →
       CmaSales.flusher_pass batch_size w p
       = ({| CmaSales.buffer := []; CmaSales.last_flush_time := CmaSales.now_flushed p |},
          [CmaSales.buffer w],
          if CmaSales.complete_at_break p then Break else Continue))
  ∧ (∀ (w : CmaSales.flusher) (p : CmaSales.pass) (passes : list CmaSales.pass),
       CmaSales.received p = Some CmaSales.PoisonPill
       ∨ (CmaSales.received p = None ∧ CmaSales.complete_at_test p = true
          ∧ CmaSales.complete_at_break p = true) →
       CmaSales.flusher_run batch_size w (p :: passes)
       = (CmaSales.Finished, CmaSales._flush_buffer (CmaSales.buffer w)))
  ∧ (∀ (w : Cma2Rents.flusher) (p : Cma2Rents.pass) (r : record),
       Cma2Rents.received p = Cma2Rents.Item r →
       (batch_size ≤ Z.of_nat (length (Cma2Rents.batch w ++ [r])))%Z →
       Cma2Rents.flusher_pass batch_size w p
       = ({| Cma2Rents.batch := [];
             Cma2Rents.batch_start_time := Cma2Rents.now_flushed p |},
          [Cma2Rents.batch w ++ [r]], Continue))
  ∧ (∀ (w : Cma2Rents.flusher) (p : Cma2Rents.pass),
       Cma2Rents.received p = Cma2Rents.Empty → Cma2Rents.batch w ≠ [] →
       Cma2Rents.flusher_pass batch_size w p
       = ({| Cma2Rents.batch := [];
             Cma2Rents.batch_start_time := Cma2Rents.now_flushed p |},
          [Cma2Rents.batch w], Continue))
  ∧ (∀ (w : Cma2Rents.flusher) (p : Cma2Rents.pass) (passes : list Cma2Rents.pass),
       Cma2Rents.received p = Cma2Rents.Sentinel →
       Cma2Rents.flusher_run batch_size w (p :: passes)
       = (Cma2Rents.Finished, Cma2Rents._flush_batch_to_db (Cma2Rents.batch w))).
Proof.
  repeat split.
  - intros w p r Hp Hfull. unfold CmaSales.flusher_pass. rewrite Hp.
    apply Z.leb_le in Hfull. rewrite Hfull. by rewrite flush_buffer_snoc.
  - intros w p Hp Hbuf Hlate. unfold CmaSales.flusher_pass. rewrite Hp.
    apply Qgtb_true in Hlate. rewrite Hlate. simpl.
    rewrite bool_decide_eq_false_2 by done. simpl.
    by destruct (CmaSales.buffer w).
  - intros w p passes [Hp|(Hp & Htest & Hbreak)]; simpl; unfold CmaSales.flusher_pass;
      rewrite Hp; [done|].
    rewrite Htest, Hbreak, orb_true_r, andb_true_r. simpl.
    destruct (CmaSales.buffer w) as [|r buffer] eqn:Hbuf; simpl; [by rewrite Hbuf|done].
  - intros w p r Hp Hfull. unfold Cma2Rents.flusher_pass. rewrite Hp.
    apply Z.leb_le in Hfull. rewrite Hfull. simpl. by rewrite flush_batch_snoc.
  - intros w p Hp Hbatch. unfold Cma2Rents.flusher_pass. rewrite Hp.
    by destruct (Cma2Rents.batch w).
  - intros w p passes Hp. simpl. unfold Cma2Rents.flusher_pass. by rewrite Hp.
Qed.

Lemma flush_triggers_witness :
  let r1 := Database.sample_record 1 in
  let r2 := Database.sample_record 2 in
  CmaSales.flusher_pass 2 {| CmaSales.buffer := [r1]; CmaSales.last_flush_time := 0 |}
    {| CmaSales.received := Some (CmaSales.Single r2); CmaSales.now := 3;
       CmaSales.now_flushed := 4; CmaSales.complete_at_test := false;
       CmaSales.complete_at_break := false |}
  = ({| CmaSales.buffer := []; CmaSales.last_flush_time := 4 |}, [[r1; r2]], Continue)
  ∧ CmaSales.flusher_pass 2 {| CmaSales.buffer := [r1]; CmaSales.last_flush_time := 0 |}
      {| CmaSales.received := None; CmaSales.now := 31; CmaSales.now_flushed := 32;
         CmaSales.complete_at_test := false; CmaSales.complete_at_break := false |}
    = ({| CmaSales.buffer := []; CmaSales.last_flush_time := 32 |}, [[r1]], Continue)
  ∧ CmaSales.flusher_run 2 {| CmaSales.buffer := [r1]; CmaSales.last_flush_time := 0 |}
      [{| CmaSales.received := Some CmaSales.PoisonPill; CmaSales.now := 3;
          CmaSales.now_flushed := 4; CmaSales.complete_at_test := false;
          CmaSales.complete_at_break := false |}]
    = (CmaSales.Finished, [[r1]])
  ∧ Cma2Rents.flusher_pass 2 {| Cma2Rents.batch := [r1]; Cma2Rents.batch_start_time := 0 |}
      {| Cma2Rents.received := Cma2Rents.Item r2; Cma2Rents.now := 1;
         Cma2Rents.now_flushed := 2 |}
    = ({| Cma2Rents.batch := []; Cma2Rents.batch_start_time := 2 |}, [[r1; r2]], Continue)
  ∧ Cma2Rents.flusher_pass 2 {| Cma2Rents.batch := [r1]; Cma2Rents.batch_start_time := 0 |}
      {| Cma2Rents.received := Cma2Rents.Empty; Cma2Rents.now := 1;
         Cma2Rents.now_flushed := 2 |}
    = ({| Cma2Rents.batch := []; Cma2Rents.batch_start_time := 2 |}, [[r1]], Continue)
  ∧ Cma2Rents.flusher_run 2 {| Cma2Rents.batch := [r1]; Cma2Rents.batch_start_time := 0 |}
      [{| Cma2Rents.received := Cma2Rents.Sentinel; Cma2Rents.now := 1;
          Cma2Rents.now_flushed := 2 |}]
    = (Cma2Rents.Finished, [[r1]]).
Proof.
  intros r1 r2.
  destruct (flush_triggers 2) as (Hfull & Hlate & Hstop & Hfull' & Hidle & Hstop').
  split; [|split; [|split; [|split; [|split]]]].
  - apply (Hfull {| CmaSales.buffer := [r1]; CmaSales.last_flush_time := 0 |}
             {| CmaSales.received := Some (CmaSales.Single r2); CmaSales.now := 3;
                CmaSales.now_flushed := 4; CmaSales.complete_at_test := false;
                CmaSales.complete_at_break := false |} r2); [reflexivity|simpl; lia].
  - apply (Hlate {| CmaSales.buffer := [r1]; CmaSales.last_flush_time := 0 |}
             {| CmaSales.received := None; CmaSales.now := 31; CmaSales.now_flushed := 32;
                CmaSales.complete_at_test := false; CmaSales.complete_at_break := false |});
      [reflexivity|discriminate|reflexivity].
  - apply (Hstop {| CmaSales.buffer := [r1]; CmaSales.last_flush_time := 0 |}).
    left. reflexivity.
  - apply (Hfull' {| Cma2Rents.batch := [r1]; Cma2Rents.batch_start_time := 0 |}
             {| Cma2Rents.received := Cma2Rents.Item r2; Cma2Rents.now := 1;
                Cma2Rents.now_flushed := 2 |} r2); [reflexivity|simpl; lia].
  - apply (Hidle {| Cma2Rents.batch := [r1]; Cma2Rents.batch_start_time := 0 |}
             {| Cma2Rents.received := Cma2Rents.Empty; Cma2Rents.now := 1;
                Cma2Rents.now_flushed := 2 |}); [reflexivity|discriminate].
  - apply (Hstop' {| Cma2Rents.batch := [r1]; Cma2Rents.batch_start_time := 0 |}).
    reflexivity.
Defined.

(** C9, as the code has it.  With the dry-run flag every entry point
    leaves its table as it is and writes nothing, and each goes its own
    way up to there: the CMA sales importer returns at once, with no effect
    at all; the rent importer and the batch mode of the sales importer,
    as a whole and in each of its work items, do nothing but call the
    API; the default entry point of the sales importer and the
    transaction-list ETL do what their normal run does apart from the
    write, the fetches and the flatten steps included; the batch mode of
    the transaction-list importer calls nothing. *)
Theorem dry_run_leaves_destination :
  (∀ (pipeline : list (list value) → CmaSales.run_result) (table : list (list value)),
     CmaSales.process_cma_sales true pipeline table
     = {| CmaSales.effects := []; CmaSales.destination := table |})
  ∧ (∀ (config : TransactionRent.OptimizedProcessingConfig) (call : TransactionRent.api)
       (copy_fault insert_fault : bool) (locations : list record)
       (table : list (list value)),
       TransactionRent.dry_run config = true →
       let r := TransactionRent.process_optimized_transaction_rent_batch config call
                  copy_fault insert_fault locations table in
       TransactionRent.transaction_raw_rent r = table
       ∧ Forall (λ e, is_fetch e = true) (TransactionRent.run_effects r))
  ∧ (∀ (json_dumps : value → string) (int_conversion : value → option Z)
       (insert_fault : nat → bool) (call : TransactionSales.api)
       (table : list (list value)) (location_id : value)
       (measurement transaction_type : string) (max_pages page_size : Z),
       let r := TransactionSales._fetch_and_process_one json_dumps int_conversion
                  insert_fault call table location_id measurement transaction_type
                  max_pages page_size true in
       TransactionSales.transaction_sales r = table
       ∧ Forall (λ e, is_fetch e = true) (TransactionSales.done_effects r))
  ∧ (∀ (call : list (string * value) → option value)
       (process_transaction_list_data :
          list value → value → TransactionList.param_set → list record)
       (insert_transaction_list_data :
          list (list value) → list record → Database.db_result)
       (self : TransactionList.TransactionListImporter) (country_code : string)
       (locations : list record) (table : list (list value)),
       let run := TransactionList.process_transaction_list_etl call
                    process_transaction_list_data insert_transaction_list_data
                    self country_code in
       TransactionList.transaction_list (run true locations table) = table
       ∧ TransactionList.done_effects (run true locations table)
         = List.filter TransactionList.not_write
             (TransactionList.done_effects (run false locations table))
       ∧ Forall (λ e, is_write e = false)
                (TransactionList.done_effects (run true locations table)))
  ∧ (∀ (json_dumps : value → string) (py_str : value → string)
       (int_conversion : value → option Z) (call : TransactionSales.api)
       (insert_fault : bool) (country_rows fallback_rows : option (list record))
       (measurement transaction_type currency : string)
       (property_type bedroom size_range price_range transaction_date : value)
       (max_pages page_size : Z) (table : list (list value)),
       let run := TransactionSales.process_transaction_sales json_dumps py_str
                    int_conversion call insert_fault country_rows fallback_rows
                    measurement transaction_type currency property_type bedroom
                    size_range price_range transaction_date max_pages page_size in
       TransactionSales.run_table (run true table) = table
       ∧ TransactionSales.run_effects (run true table)
         = List.filter TransactionList.not_write
             (TransactionSales.run_effects (run false table))
       ∧ Forall (λ e, is_write e = false)
                (TransactionSales.run_effects (run true table)))
  ∧ (∀ (call : list (string * value) → option value)
       (process_transaction_list_data :
          list value → value → TransactionList.param_set → list record)
       (insert_transaction_list_data :
          list (list value) → list record → Database.db_result)
       (self : TransactionList.TransactionListImporter) (country_code : string)
       (locations : list record) (table : list (list value)),
       let r := TransactionList.process_transaction_list_batch call
                  process_transaction_list_data insert_transaction_list_data
                  self country_code true locations table in
       TransactionList.done_effects r = [] ∧ TransactionList.transaction_list r = table)
  ∧ (∀ (json_dumps : value → string) (int_conversion : value → option Z)
       (insert_fault : nat → nat → bool) (call : TransactionSales.api)
       (self : TransactionSales.TransactionSalesImporter) (max_pages page_size : Z)
       (locations : list record) (table : list (list value)),
       let r := TransactionSales.process_transaction_sales_batch json_dumps
                  int_conversion insert_fault call self max_pages page_size true
                  locations table in
       TransactionSales.batch_table r = table
       ∧ Forall (λ e, is_fetch e = true) (TransactionSales.batch_effects r)).
Proof.
  split; [done|]. split; [|split; [|split; [|split; [|split]]]].
  - intros. by apply TransactionRent.rent_dry_run.
  - intros. apply TransactionSales._fetch_and_process_one_dry.
  - intros. apply TransactionList.etl_dry_run.
  - intros. apply TransactionSales.process_transaction_sales_dry.
  - intros. apply TransactionList.list_batch_dry_run.
  - intros. apply TransactionSales.process_transaction_sales_batch_dry.
Qed.

Lemma dry_run_leaves_destination_witness :
  let r := TransactionRent.process_optimized_transaction_rent_batch
             TransactionRent.dry_config TransactionRent.single_page_server false false
             [TransactionRent.location_row 7] [] in
  TransactionRent.dry_run TransactionRent.dry_config = true
  ∧ TransactionRent.transaction_raw_rent r = []
  ∧ Forall (λ e, is_fetch e = true) (TransactionRent.run_effects r).
Proof.
  split; [reflexivity|].
  destruct dry_run_leaves_destination as (_ & Hrent & _).
  apply (Hrent TransactionRent.dry_config TransactionRent.single_page_server false false
           [TransactionRent.location_row 7] []).
  reflexivity.
Defined.

(** C9 as stated fails: a dry run of the rent importer calls the API and
    never runs the flatten step that its normal run runs; a dry run of the
    CMA sales importer does not even call the API. *)
Lemma dry_run_skips_flatten_or_fetch :
  let locations := [TransactionRent.location_row 7] in
  let dry := TransactionRent.process_optimized_transaction_rent_batch
               TransactionRent.dry_config TransactionRent.single_page_server
               false false locations [] in
  let wet := TransactionRent.process_optimized_transaction_rent_batch
               TransactionRent.OptimizedProcessingConfig_default
               TransactionRent.single_page_server false false locations [] in
  let pipeline := λ table : list (list value),
    {| CmaSales.effects := [Fetched [("property_id", VInt 101)]];
       CmaSales.destination := table |} in
  existsb is_fetch (TransactionRent.run_effects dry) = true
  ∧ existsb is_flatten (TransactionRent.run_effects dry) = false
  ∧ existsb is_flatten (TransactionRent.run_effects wet) = true
  ∧ existsb is_fetch (CmaSales.effects (CmaSales.process_cma_sales true pipeline [])) = false
  ∧ existsb is_fetch (CmaSales.effects (CmaSales.process_cma_sales false pipeline [])) = true.
Proof. by vm_compute. Qed.

(** C10, as the code has it.  In both importers the transform carries the
    price of a fetched element over unchanged and no write hands a record
    without a price to the store, whatever the mode; and in the rent
    importer, outside a dry run, a page with results none of which has a
    price ends the page loop whatever cursor the answer carries. *)
Theorem null_price_never_written :
  (∀ (item : list (string * value)) (location_id : value) (measurement : string),
     get (TransactionRent.flatten_response item location_id measurement) "price"
     = default VNone (assoc item "price"))
  ∧ (∀ (config : TransactionRent.OptimizedProcessingConfig) (call : TransactionRent.api)
       (copy_fault insert_fault : bool) (locations : list record)
       (table : list (list value)),
       writes_priced
         (TransactionRent.run_effects
            (TransactionRent.process_optimized_transaction_rent_batch config call
               copy_fault insert_fault locations table)))
  ∧ (∀ (json_dumps : value → string) (record : list (string * value)) (location_id : Z)
       (currency measurement transaction_type : string)
       (bedroom size_range price_range transaction_date : value),
       get (TransactionSales.processed_record json_dumps record location_id currency
              measurement transaction_type bedroom size_range price_range
              transaction_date) "price"
       = default VNone (assoc record "price"))
  ∧ (∀ (json_dumps : value → string) (int_conversion : value → option Z)
       (insert_fault : nat → bool) (call : TransactionSales.api)
       (table : list (list value)) (location_id : value)
       (measurement transaction_type : string) (max_pages page_size : Z) (dry_run : bool),
       writes_priced
         (TransactionSales.done_effects
            (TransactionSales._fetch_and_process_one json_dumps int_conversion
               insert_fault call table location_id measurement transaction_type
               max_pages page_size dry_run)))
  ∧ (∀ (config : TransactionRent.OptimizedProcessingConfig) (call : TransactionRent.api)
       (location_id : value) (template : TransactionRent.RequestTemplate) (n : nat)
       (s : TransactionRent.page_loop) (payload item : value) (items : list value),
       TransactionRent.dry_run config = false →
       call (TransactionRent._build_api_params location_id template
               (TransactionRent.page s) (TransactionRent.current_scroll_id s))
         = Some payload →
       get_if_dict payload "results" = VList (item :: items) →
       Forall (λ item, get_if_dict item "price" = VNone) (item :: items) →
       (TransactionRent.fetch_page config call location_id template n s).2 = Break).
Proof.
  split; [apply TransactionRent.flatten_response_price|].
  split; [apply TransactionRent.rent_run_writes_priced|].
  split; [apply TransactionSales.processed_record_price|].
  split; [apply TransactionSales._fetch_and_process_one_priced|].
  intros config call location_id template n s payload item items Hdry Hcall Hres Hnull.
  eapply TransactionRent.fetch_page_unpriced_breaks; [done|done|done|].
  by apply TransactionRent.unpriced_page_has_no_valid_data.
Qed.

Lemma null_price_never_written_witness :
  let s := {| TransactionRent.total_records := 0;
              TransactionRent.current_scroll_id := VNone; TransactionRent.page := 1;
              TransactionRent.accumulated_data := []; TransactionRent.done_effects := [];
              TransactionRent.api_failed := false |} in
  truthy (get_if_dict (VDict [("results", VList [TransactionRent.unpriced_item]);
                              ("scroll_id", VStr "scroll-1")]) "scroll_id") = true
  ∧ (TransactionRent.fetch_page TransactionRent.OptimizedProcessingConfig_default
       TransactionRent.unpriced_server (VInt 7) TransactionRent.int_template 0 s).2 = Break.
Proof.
  intros s. split; [reflexivity|].
  destruct null_price_never_written as (_ & _ & _ & _ & Hbreak).
  apply (Hbreak TransactionRent.OptimizedProcessingConfig_default
           TransactionRent.unpriced_server (VInt 7) TransactionRent.int_template 0%nat s
           (VDict [("results", VList [TransactionRent.unpriced_item]);
                   ("scroll_id", VStr "scroll-1")])
           TransactionRent.unpriced_item []);
    [reflexivity|reflexivity|reflexivity|].
  constructor; [reflexivity|constructor].
Defined.
